(** * Media-library gateway: shallow embedding and checked properties

    The development embeds the TypeScript handlers of the gateway
    (query builder, JSON column decoding, pagination metadata, image key
    resolution, related-items blending, collection creation and the
    session gate) and proves the properties stated about them. *)

From Stdlib Require Import ZArith NArith Ascii Lia.
From Stdlib Require DecimalN.
From stdpp Require Import base list gmap strings sorting.

Local Open Scope N_scope.

(** ** JavaScript strings

    A JavaScript string is a sequence of UTF-16 code units. *)

Abbreviation jsstring := (list N).

(** String literals of the source, written with Rocq's ASCII strings. *)
Fixpoint js (s : string) : list N :=
  match s with
  | EmptyString => []
  | String a r => N_of_ascii a :: js r
  end.

Arguments js : simpl never.

Definition dquote : N := 34.

(** [s.startsWith(p)] *)
Fixpoint startsWith (s p : list N) {struct p} : bool :=
  match p, s with
  | [], _ => true
  | _ :: _, [] => false
  | a :: p', b :: s' => (a =? b) && startsWith s' p'
  end.

(** [s.includes(sub)] *)
Fixpoint includes (s sub : list N) : bool :=
  startsWith s sub ||
  match s with
  | [] => false
  | _ :: s' => includes s' sub
  end.

(** WhiteSpace and LineTerminator code units, the set removed by
    [String.prototype.trim] and skipped by [parseInt]. *)
Definition is_ws (c : N) : bool :=
  (c =? 9) || (c =? 10) || (c =? 11) || (c =? 12) || (c =? 13) || (c =? 32)
  || (c =? 160) || (c =? 5760) || ((8192 <=? c) && (c <=? 8202))
  || (c =? 8232) || (c =? 8233) || (c =? 8239) || (c =? 8287)
  || (c =? 12288) || (c =? 65279).

Fixpoint trimStart (s : list N) : list N :=
  match s with
  | [] => []
  | c :: r => if is_ws c then trimStart r else s
  end.

Definition trimEnd (s : list N) : list N := reverse (trimStart (reverse s)).

(** [s.trim()] *)
Definition trim (s : list N) : list N := trimEnd (trimStart s).

(** [s.split(sep)] for a separator of one code unit; the empty string
    splits into one empty token. *)
Fixpoint split (sep : N) (s : list N) : list (list N) :=
  match s with
  | [] => [[]]
  | c :: r =>
      if c =? sep then [] :: split sep r
      else match split sep r with
           | [] => [[c]]
           | t :: ts => (c :: t) :: ts
           end
  end.

(** [l.join(sep)] *)
Fixpoint join (sep : list N) (l : list (list N)) : list N :=
  match l with
  | [] => []
  | [x] => x
  | x :: rest => x ++ sep ++ join sep rest
  end.

(** Truthiness of a possibly absent string property: [undefined] and the
    empty string are falsy. *)
Definition truthy (v : option (list N)) : bool :=
  match v with
  | Some (_ :: _) => true
  | _ => false
  end.

Definition nonempty (s : list N) : bool :=
  match s with [] => false | _ :: _ => true end.

(** [s.replace(/\/\//g, '/')]: every non-overlapping pair of slashes,
    scanning left to right, becomes one slash. *)
Fixpoint collapse_slashes (s : list N) : list N :=
  match s with
  | [] => []
  | a :: t =>
      match t with
      | b :: r =>
          if (a =? 47) && (b =? 47) then 47 :: collapse_slashes r
          else a :: collapse_slashes t
      | [] => [a]
      end
  end.

(** ** Completions: a call either returns or throws. *)

Inductive completion (A : Type) : Type :=
| Normal (a : A)
| Throw (message : list N).
Arguments Normal {A} a.
Arguments Throw {A} message.

(** [try { body } catch (e) { handler(e.message) }] *)
Definition try_catch {A} (body : completion A) (handler : list N -> completion A)
  : completion A :=
  match body with
  | Normal a => Normal a
  | Throw m => handler m
  end.

(** ** [parseInt(s, 10)]

    Leading white space is skipped, an optional sign is read, then the
    longest prefix of decimal digits; [None] stands for [NaN]. Results
    are exact integers (the safe-integer range of the number type). *)

Definition is_digit (c : N) : bool := (48 <=? c) && (c <=? 57).

Fixpoint digits_value (acc : Z) (s : list N) : Z :=
  match s with
  | [] => acc
  | c :: r =>
      if is_digit c then digits_value (10 * acc + Z.of_N (c - 48))%Z r
      else acc
  end.

Definition parse_magnitude (s : list N) : option Z :=
  match s with
  | c :: _ => if is_digit c then Some (digits_value 0%Z s) else None
  | [] => None
  end.

Definition parseInt (s : list N) : option Z :=
  match trimStart s with
  | 45 :: r => Z.opp <$> parse_magnitude r
  | 43 :: r => parse_magnitude r
  | r => parse_magnitude r
  end.

(** [!isNaN(parseInt(s, 10))] *)
Definition looks_numeric (s : list N) : bool :=
  match parseInt s with Some _ => true | None => false end.

(** ** SQL values bound to positional placeholders *)

Inductive sqlval : Type :=
| SqlText (s : list N)
| SqlNum (n : option Z).

(** ** JavaScript values

    [json] collects the values a JSON text denotes; numbers are the
    integral ones, objects list their properties in order. An argument
    typed [any] is either [undefined] (also an absent property) or such a
    value. *)

Unset Elimination Schemes.
Inductive json : Type :=
| JNull
| JBool (b : bool)
| JNum (z : Z)
| JStr (s : list N)
| JArr (items : list json)
| JObj (fields : list (list N * json)).
Set Elimination Schemes.

Inductive any : Type :=
| Undefined
| Value (v : json).

(** * dbUtils.ts *)

Module DbUtils.

(** *** [buildMovieWhereClauseAndParams]

    [argsDict] is the query-string map handed over by the listing
    handler: its filter entries are strings. The two local arrays
    [conditions] and [sqlParams] are threaded through the nine blocks of
    the function in source order. *)

Record builder : Type := Builder {
  conditions : list (list N);
  sqlParams : list sqlval
}.

Definition push_condition (c : list N) (b : builder) : builder :=
  Builder (conditions b ++ [c]) (sqlParams b).

Definition push_param (s : list N) (b : builder) : builder :=
  Builder (conditions b) (sqlParams b ++ [SqlText s]).

Definition paren (s : list N) : list N := js "(" ++ s ++ js ")".

Definition get (argsDict : gmap (list N) (list N)) (key : string) : option (list N) :=
  argsDict !! js key.

(** [if (argsDict.SearchTerm) { ... }] *)
Definition search_block (argsDict : gmap (list N) (list N)) (b : builder) : builder :=
  match get argsDict "SearchTerm" with
  | Some (c :: v) =>
      let term := js "%" ++ (c :: v) ++ js "%" in
      let searchConditions : list (list N) := [] in
      let searchConditions := searchConditions ++ [js "title LIKE ?"] in
      let b := push_param term b in
      let searchConditions := searchConditions ++ [js "plot LIKE ?"] in
      let b := push_param term b in
      let searchConditions := searchConditions ++ [js "director LIKE ?"] in
      let b := push_param term b in
      let searchConditions := searchConditions ++ [js "studio LIKE ?"] in
      let b := push_param term b in
      let searchConditions := searchConditions ++ [js "uniqueid_num LIKE ?"] in
      let b := push_param term b in
      let searchConditions := searchConditions ++ [js "actors LIKE ?"] in
      let b := push_param term b in
      push_condition (paren (join (js " OR ") searchConditions)) b
  | _ => b
  end.

(** [if (argsDict.uniqueid_num_fuzzy) { ... }] *)
Definition fuzzy_block (argsDict : gmap (list N) (list N)) (b : builder) : builder :=
  match get argsDict "uniqueid_num_fuzzy" with
  | Some (c :: v) =>
      push_param (js "%" ++ (c :: v) ++ js "%")
        (push_condition (js "uniqueid_num LIKE ?") b)
  | _ => b
  end.

(** [if (argsDict.uniqueid_num_prefix) { ... }] *)
Definition prefix_block (argsDict : gmap (list N) (list N)) (b : builder) : builder :=
  match get argsDict "uniqueid_num_prefix" with
  | Some (c :: v) =>
      push_param ((c :: v) ++ js "%")
        (push_condition (js "uniqueid_num LIKE ?") b)
  | _ => b
  end.

(** The body of [argsDict.Genres.split(',').forEach(...)]: the state is
    the local [genreConditions] together with the shared [sqlParams]. *)
Definition genre_step (st : list (list N) * builder) (genreToken : list N)
  : list (list N) * builder :=
  let genre := trim genreToken in
  match genre with
  | _ :: _ =>
      (st.1 ++ [js "genres LIKE ?"],
       push_param (js "%" ++ [dquote] ++ genre ++ [dquote] ++ js "%") st.2)
  | [] => st
  end.

(** [if (argsDict.Genres) { ... }] *)
Definition genres_block (argsDict : gmap (list N) (list N)) (b : builder) : builder :=
  match get argsDict "Genres" with
  | Some (c :: v) =>
      let '(genreConditions, b) := foldl genre_step ([], b) (split 44 (c :: v)) in
      match genreConditions with
      | _ :: _ => push_condition (paren (join (js " OR ") genreConditions)) b
      | [] => b
      end
  | _ => b
  end.

(** [if (argsDict.ParentId) { ... }] *)
Definition parent_block (argsDict : gmap (list N) (list N)) (b : builder) : builder :=
  match get argsDict "ParentId" with
  | Some (c :: v) => push_param (c :: v) (push_condition (js "root_folder = ?") b)
  | _ => b
  end.

Definition str_eqb (a b : list N) : bool := bool_decide (a = b).

(** [if (argsDict.IncludeItemTypes === "Movie") ... else if (... === "Series") ...] *)
Definition types_block (argsDict : gmap (list N) (list N)) (b : builder) : builder :=
  match get argsDict "IncludeItemTypes" with
  | Some t =>
      if str_eqb t (js "Movie")
      then push_condition (js "(set_name IS NULL OR set_name = '')") b
      else if str_eqb t (js "Series")
      then push_condition (js "(set_name IS NOT NULL AND set_name != '')") b
      else b
  | None => b
  end.

(** [if (argsDict.personIds) { ... }] *)
Definition person_block (argsDict : gmap (list N) (list N)) (b : builder) : builder :=
  match get argsDict "personIds" with
  | Some (c :: v) =>
      let personName := c :: v in
      let personConditions : list (list N) := [] in
      let personConditions := personConditions ++ [js "actors LIKE ?"] in
      let b := push_param (js "%" ++ [dquote] ++ js "name" ++ [dquote] ++ js ":"
                           ++ [dquote] ++ personName ++ [dquote] ++ js "%") b in
      let personConditions := personConditions ++ [js "director = ?"] in
      let b := push_param personName b in
      let personConditions := personConditions ++ [js "director LIKE ?"] in
      let b := push_param (js "%" ++ [dquote] ++ personName ++ [dquote] ++ js "%") b in
      push_condition (paren (join (js " OR ") personConditions)) b
  | _ => b
  end.

(** [if (argsDict.studioIds) { ... }] *)
Definition studio_block (argsDict : gmap (list N) (list N)) (b : builder) : builder :=
  match get argsDict "studioIds" with
  | Some (c :: v) => push_param (c :: v) (push_condition (js "studio = ?") b)
  | _ => b
  end.

(** [if (argsDict.seriesName) { ... }] *)
Definition series_block (argsDict : gmap (list N) (list N)) (b : builder) : builder :=
  match get argsDict "seriesName" with
  | Some (c :: v) => push_param (c :: v) (push_condition (js "set_name = ?") b)
  | _ => b
  end.

Record where_clause : Type := WhereClause {
  clause : list N;
  params : list sqlval
}.

Definition buildMovieWhereClauseAndParams (argsDict : gmap (list N) (list N))
  : where_clause :=
  let b := Builder [] [] in
  let b := search_block argsDict b in
  let b := fuzzy_block argsDict b in
  let b := prefix_block argsDict b in
  let b := genres_block argsDict b in
  let b := parent_block argsDict b in
  let b := types_block argsDict b in
  let b := person_block argsDict b in
  let b := studio_block argsDict b in
  let b := series_block argsDict b in
  WhereClause
    (match conditions b with
     | _ :: _ => join (js " AND ") (conditions b)
     | [] => js "1=1"
     end)
    (sqlParams b).

(** *** [parseJsonField]

    [JSON.parse] is a primitive of the platform: it returns the decoded
    value or throws a [SyntaxError]. *)

Section ParseJsonField.

Variable JSON_parse : list N -> completion json.

Definition parseJsonField (value : any) (defaultValue : list json)
  : completion (list json) :=
  match value with
  | Value (JStr (c :: v)) =>
      try_catch
        (match JSON_parse (c :: v) with
         | Normal parsed =>
             Normal (match parsed with
                     | JArr items => items
                     | _ => [parsed]
                     end)
         | Throw m => Throw m
         end)
        (fun _ =>
           Normal (JStr <$> filter (fun s : list N => s ≠ [])
                                   (trim <$> split 44 (c :: v))))
  | Value (JArr items) => Normal items
  | _ => Normal defaultValue
  end.

End ParseJsonField.

End DbUtils.

(** [o.name]: the property of an object as [JSON.parse] builds it, where
    the last of several members of one name stays. *)
Fixpoint property (name : list N) (fields : list (list N * json)) : option json :=
  match fields with
  | [] => None
  | (k, v) :: rest =>
      match property name rest with
      | Some later => Some later
      | None => if DbUtils.str_eqb k name then Some v else None
      end
  end.

(** * HTTP responses *)

Inductive response : Type :=
| RText (status : Z) (body : list N)
| RJson (status : Z) (body : json)
| RRedirect (status : Z) (location : list N)
| RBody (contentType : list N) (contentLength : Z) (etag : list N)
        (cacheControl : list N) (body : list N).

Definition is_redirect (r : response) : bool :=
  match r with RRedirect _ _ => true | _ => false end.

(** * r2Utils.ts *)

Module R2Utils.

Record R2Object : Type := {
  body : list N;
  contentType : option (list N);
  size : Z;
  httpEtag : list N
}.

Definition default_cache : list N := js "public, max-age=86400".

(** [serveFileFromR2(c, bucket, key, cacheControl)]: the bucket maps keys
    to stored objects, [bucket.get] yields [null] for a missing key. *)
Definition serveFileFromR2 (bucket : gmap (list N) R2Object) (key : list N)
    (cacheControl : list N) : response :=
  match bucket !! key with
  | None => RText 404 (js "Object Not Found in R2: " ++ key)
  | Some object =>
      RBody (match contentType object with
             | Some (c :: t) => c :: t
             | _ => js "application/octet-stream"
             end)
            (size object) (httpEtag object) cacheControl (body object)
  end.

End R2Utils.

(** * auth.ts *)

Module Auth.

Definition COOKIE_NAME : list N := js "auth_session".
Definition LOGIN_PATH : list N := js "/login".

(** The decoded token payload; [loggedIn] is read for its truthiness. *)
Record JwtPayload : Type := { loggedIn : bool }.

(** What the middleware does with a request: hand it to the next handler
    (with the payload stored on the context when a session was checked)
    or answer it, possibly after clearing the session cookie. *)
Inductive gate : Type :=
| Next (userPayload : option JwtPayload)
| Respond (cookieDeleted : bool) (r : response).

Definition allowedPaths : list (list N) :=
  [LOGIN_PATH; js "/login"; js "/static/"; js "/favicon.ico"].

Definition is_api_path (path : list N) : bool :=
  startsWith path (js "/api_movies/") || startsWith path (js "/api/").

Definition unauthorized (message : string) : response :=
  RJson 401 (JObj [(js "error", JStr (js "Unauthorized"));
                   (js "message", JStr (js message))]).

Section RequireLogin.

(** [verify(token, secret)] of the JWT library: the decoded payload, or
    an exception for a token that does not verify. *)
Variable verify : list N -> list N -> completion JwtPayload.

Variable SESSION_SECRET_KEY : list N.

(** [verifyJwt]: an exception of [verify] becomes [null]. *)
Definition verifyJwt (token : list N) : option JwtPayload :=
  match verify token SESSION_SECRET_KEY with
  | Normal decoded => Some decoded
  | Throw _ => None
  end.

(** [requireLogin], as a function of the request path and of the value of
    the session cookie. *)
Definition requireLogin (path : list N) (cookie : option (list N)) : gate :=
  if existsb (fun allowedPath => startsWith path allowedPath) allowedPaths
  then Next None
  else
    match cookie with
    | Some (c :: t) =>
        let token := c :: t in
        match verifyJwt token with
        | Some payload =>
            if loggedIn payload then Next (Some payload)
            else
              if is_api_path path
              then Respond true (unauthorized "Invalid session.")
              else Respond true (RRedirect 307 LOGIN_PATH)
        | None =>
            if is_api_path path
            then Respond true (unauthorized "Invalid session.")
            else Respond true (RRedirect 307 LOGIN_PATH)
        end
    | _ =>
        if is_api_path path
        then Respond false (unauthorized "Authentication required.")
        else Respond false (RRedirect 307 LOGIN_PATH)
    end.

End RequireLogin.

End Auth.

(** * movieApi.ts *)

Module MovieApi.

Import DbUtils R2Utils.

(** ** Rows and response records

    A row of [movies], projected on the columns read by the handlers
    below, and the record [movieRowToDict] makes of it: the Emby-style
    fields [Id], [Name], [Type], [SortName] and the normalised flag. The
    image tags, people, studios and collection memberships of the record
    play no part below and are left out. *)

Record movie_row : Type := {
  id : option Z;
  title : option (list N);
  is_liked : option Z
}.

Record movie : Type := {
  row : movie_row;
  Id : option Z;
  Name : option (list N);
  Type_ : list N;
  SortName : option (list N);
  liked : bool
}.

(** [movieRowToDict]: [null] for an absent row. *)
Definition movieRowToDict (r : option movie_row) : option movie :=
  match r with
  | None => None
  | Some data =>
      Some {| row := data;
              Id := id data;
              Name := title data;
              Type_ := js "Movie";
              SortName := title data;
              liked := match is_liked data with
                       | Some z => negb (z =? 0)%Z
                       | None => false
                       end |}
  end.

Definition null_or {A} (f : A -> json) (o : option A) : json :=
  match o with Some a => f a | None => JNull end.

(** The JSON text [c.json] sends for a record: the column of a row that
    is NULL is sent as [null]. *)
Definition movie_json (m : movie) : json :=
  JObj [(js "id", null_or JNum (id (row m)));
        (js "title", null_or JStr (title (row m)));
        (js "is_liked", JBool (liked m));
        (js "Id", null_or JNum (Id m));
        (js "Name", null_or JStr (Name m));
        (js "Type", JStr (Type_ m));
        (js "SortName", null_or JStr (SortName m))].

(** ** Numbers of the listing handler: integers, an infinite quotient,
    and [NaN]. *)

Inductive number : Type :=
| Int (z : Z)
| Infinite
| NaN.

(** [Math.ceil(a / b)] for an integer [a] and the result [b] of
    [parseInt], exact in the safe-integer range. *)
Definition ceil_quotient (a : Z) (b : option Z) : number :=
  match b with
  | None => NaN
  | Some d =>
      if (d =? 0)%Z then (if (a =? 0)%Z then NaN else Infinite)
      else Int (- ((- a) / d))%Z
  end.

(** [x || d] on numbers: zero and [NaN] are falsy. *)
Definition or_number (x : number) (d : Z) : number :=
  match x with
  | Int z => if (z =? 0)%Z then Int d else Int z
  | Infinite => Infinite
  | NaN => Int d
  end.

(** Serialisation of a number by [c.json]: non-finite numbers become
    [null]. *)
Definition number_json (x : number) : json :=
  match x with Int z => JNum z | _ => JNull end.

Definition parsed_json (x : option Z) : json :=
  match x with Some z => JNum z | None => JNull end.

(** [o[key] || d] for a string property *)
Definition or_default (o : option (list N)) (d : string) : list N :=
  match o with Some (c :: v) => c :: v | _ => js d end.

(** ** GET /items *)

Definition validSortCols : list (list N) :=
  [js "title"; js "rating"; js "runtime"; js "premiered"; js "uniqueid_num";
   js "last_scanned_date"; js "id"].

(** Own properties of the [sortMap] literal of movieApi.ts. *)
Definition sortMap : list (list N * list N) :=
  [(js "SortName", js "title"); (js "Name", js "title");
   (js "DateCreated", js "last_scanned_date"); (js "PremiereDate", js "premiered");
   (js "CommunityRating", js "rating"); (js "RunTimeTicks", js "runtime")].

(** The [sortMap] literal of the unnamed variants (part_000, part_001). *)
Definition sortMap_variant : list (list N * list N) :=
  sortMap ++ [(js "movieCount", js "id")].

Fixpoint assoc (k : list N) (m : list (list N * list N)) : option (list N) :=
  match m with
  | [] => None
  | (k', v) :: rest => if str_eqb k k' then Some v else assoc k rest
  end.

(** [sortMap[sortBy] || "premiered"], then the check against
    [validSortCols]; a key that is not an own property ends on
    ["premiered"] as well. *)
Definition dbSortBy (smap : list (list N * list N)) (sortBy : list N) : list N :=
  let col := or_default (assoc sortBy smap) "premiered" in
  if existsb (str_eqb col) validSortCols then col else js "premiered".

Section Items.

(** [String.prototype.toUpperCase] and the two prepared statements of the
    handler, run against the database with their bound values: the count
    statement yields the [total] of its first row, the data statement its
    rows. *)
Variable toUpperCase : list N -> list N.
Variable DB_first_total : list N -> list sqlval -> completion (option Z).
Variable DB_all : list N -> list sqlval -> completion (list movie_row).

(** What distinguishes the variants of the handler: the sort map and the
    fallback of [Math.ceil(totalCount / limit) || fallback]. *)
Variable smap : list (list N * list N).
Variable pagesFallback : Z.

Definition dbSortOrder (sortOrder : list N) : list N :=
  if str_eqb (toUpperCase sortOrder) (js "DESCENDING") then js "DESC" else js "ASC".

Definition countQuery (clause : list N) : list N :=
  js "SELECT COUNT(id) as total FROM movies WHERE " ++ clause.

Definition dataQuery (clause sortBy sortOrder : list N) : list N :=
  js "SELECT * FROM movies WHERE " ++ clause ++ js " ORDER BY "
  ++ dbSortBy smap sortBy ++ js " " ++ dbSortOrder sortOrder
  ++ js " NULLS LAST LIMIT ? OFFSET ?".

Definition TotalPages (totalCount : Z) (limit : option Z) : number :=
  or_number (ceil_quotient totalCount limit) pagesFallback.

(** The handler. The filter entries of [argsDict] are those of [query];
    the response carries every field but [CurrentPage], a quotient that
    need not be integral. An exception of the database is known by its
    message: the [cause] property of the error body is left out. *)
Definition get_items (query : gmap (list N) (list N)) : response :=
  let startIndex := parseInt (or_default (query !! js "StartIndex") "0") in
  let limit := parseInt (or_default (query !! js "Limit") "100") in
  let sortBy := or_default (query !! js "SortBy") "PremiereDate" in
  let sortOrder := or_default (query !! js "SortOrder") "Descending" in
  let w := buildMovieWhereClauseAndParams query in
  match DB_first_total (countQuery (clause w)) (params w) with
  | Throw message =>
      RJson 500 (JObj [(js "error", JStr (js "Database query failed"));
                       (js "details", JStr message)])
  | Normal totalResult =>
      let totalCount := default 0%Z totalResult in
      match DB_all (dataQuery (clause w) sortBy sortOrder)
                   (params w ++ [SqlNum limit; SqlNum startIndex]) with
      | Throw message =>
          RJson 500 (JObj [(js "error", JStr (js "Database query failed"));
                           (js "details", JStr message)])
      | Normal itemsRaw =>
          let itemsList := omap (fun r => movieRowToDict (Some r)) itemsRaw in
          RJson 200 (JObj [(js "Items", JArr (movie_json <$> itemsList));
                           (js "TotalRecordCount", JNum totalCount);
                           (js "PageSize", parsed_json limit);
                           (js "TotalPages", number_json (TotalPages totalCount limit))])
      end
  end.

End Items.

(** ** GET /images/poster/:id and /images/fanart/:id (unnamed variant
    part_001, [serveMovieImage]) *)

Inductive image_type : Type := poster | fanart.

Definition image_type_name (t : image_type) : list N :=
  match t with poster => js "poster" | fanart => js "fanart" end.

(** The environment of the image handler. [DB_MOVIES] is the [movies]
    table keyed by its primary key [id], projected on the column
    [uniqueid_num] ([None] for SQL NULL). *)
Record Env : Type := {
  MOVIE_ASSETS_R2_BASE_PREFIX : list N;
  DB_MOVIES : gmap Z (option (list N));
  MOVIES_ASSETS_BUCKET : gmap (list N) R2Object
}.

Definition image_url (t : image_type) (ident : list N) : list N :=
  js "/api_movies/images/" ++ image_type_name t ++ js "/" ++ ident.

Definition image_key (e : Env) (t : image_type) (effectiveId : list N) : list N :=
  let prefix := hd [] (split 45 effectiveId) in
  collapse_slashes
    (MOVIE_ASSETS_R2_BASE_PREFIX e ++ js "/movies/movies_poster/" ++ prefix
     ++ js "/" ++ effectiveId ++ js "_" ++ image_type_name t ++ js ".avif").

(** Step 1 of [serveMovieImage]: an early response, or the identifier
    the key is built from. *)
Definition resolve_image_id (e : Env) (t : image_type) (movieIdOrNum : list N)
  : response + list N :=
  match parseInt movieIdOrNum with
  | Some n =>
      match DB_MOVIES e !! n with
      | Some (Some (c :: u)) =>
          if negb (str_eqb (c :: u) movieIdOrNum)
          then inl (RRedirect 301 (image_url t (c :: u)))
          else inr (c :: u)
      | _ =>
          inl (RText 404 (image_type_name t ++ js " not found for ID " ++ movieIdOrNum))
      end
  | None => inr movieIdOrNum
  end.

Definition serveMovieImage (e : Env) (t : image_type) (movieIdOrNum : list N)
  : response :=
  match resolve_image_id e t movieIdOrNum with
  | inl early => early
  | inr effectiveId =>
      serveFileFromR2 (MOVIES_ASSETS_BUCKET e) (image_key e t effectiveId) default_cache
  end.

(** The two image routes: the parameter is the non-empty rest of the
    path (identifiers free of URL escapes). *)
Definition route_image (path : list N) : option (image_type * list N) :=
  if startsWith path (image_url poster [])
  then match drop (length (image_url poster [])) path with
       | c :: p => Some (poster, c :: p)
       | [] => None
       end
  else if startsWith path (image_url fanart [])
  then match drop (length (image_url fanart [])) path with
       | c :: p => Some (fanart, c :: p)
       | [] => None
       end
  else None.

(** A client that follows redirects: the chain of responses of the image
    handler to a request for [path], at most [fuel] requests long (empty
    when [path] is not an image request). *)
Fixpoint request_chain (fuel : nat) (e : Env) (path : list N) : list response :=
  match fuel with
  | O => []
  | S fuel' =>
      match route_image path with
      | Some (t, p) =>
          let r := serveMovieImage e t p in
          match r with
          | RRedirect _ location => r :: request_chain fuel' e location
          | _ => [r]
          end
      | None => []
      end
  end.

(** ** GET /items/:id/precomputed_related *)

(** Truthiness of an [Id]: [undefined], [null] and [0] are falsy. *)
Definition id_truthy (i : option Z) : bool :=
  match i with Some z => negb (z =? 0)%Z | None => false end.

(** [n > 0] and [len >= n] for a number [n] that may be [NaN]. *)
Definition positive (n : option Z) : bool :=
  match n with Some z => (0 <? z)%Z | None => false end.

Definition reached (len : nat) (n : option Z) : bool :=
  match n with Some z => (z <=? Z.of_nat len)%Z | None => false end.

(** The [for ... of] loop over [genreCandidatesList]: the state is
    [genreRandomRelatedList] and the set [relatedIdsSoFar]. *)
Fixpoint pick_genre_random (NUM_RANDOM_GENRE_PICKS : option Z)
    (genreCandidatesList : list movie)
    (genreRandomRelatedList : list movie) (relatedIdsSoFar : gset (option Z))
  : list movie * gset (option Z) :=
  match genreCandidatesList with
  | [] => (genreRandomRelatedList, relatedIdsSoFar)
  | movieDict :: rest =>
      if reached (length genreRandomRelatedList) NUM_RANDOM_GENRE_PICKS
      then (genreRandomRelatedList, relatedIdsSoFar)
      else if id_truthy (Id movieDict)
                && negb (bool_decide (Id movieDict ∈ relatedIdsSoFar))
      then pick_genre_random NUM_RANDOM_GENRE_PICKS rest
             (genreRandomRelatedList ++ [movieDict])
             ({[Id movieDict]} ∪ relatedIdsSoFar)
      else pick_genre_random NUM_RANDOM_GENRE_PICKS rest
             genreRandomRelatedList relatedIdsSoFar
  end.

(** The mapped lists of the two queries. *)
Definition mapped (rows : list movie_row) : list movie :=
  omap (fun r => movieRowToDict (Some r)) rows.

(** The two parts of the answer: [primaryRelatedList] and
    [genreRandomRelatedList], from the rows of the ranked query and the
    rows of the candidate query. *)
Definition blend_related (NUM_RANDOM_GENRE_PICKS : option Z)
    (primaryRows candidateRows : list movie_row) : list movie * list movie :=
  let primaryRelatedList := mapped primaryRows in
  let relatedIdsSoFar : gset (option Z) := list_to_set (Id <$> primaryRelatedList) in
  let genreRandomRelatedList :=
    if positive NUM_RANDOM_GENRE_PICKS
    then (pick_genre_random NUM_RANDOM_GENRE_PICKS (mapped candidateRows)
            [] relatedIdsSoFar).1
    else [] in
  (primaryRelatedList, genreRandomRelatedList).

(** The handler, given the row of the source lookup and the rows of the
    two relation queries. This is the handler body; which requests the
    application hands to it is a matter of the route table. *)
Definition get_precomputed_related (NUM_RANDOM_GENRE_PICKS : option Z)
    (sourceMovieRow : option movie_row)
    (primaryRows candidateRows : list movie_row) : response :=
  match sourceMovieRow with
  | Some src =>
      if id_truthy (id src)
      then let '(primaryRelatedList, genreRandomRelatedList) :=
             blend_related NUM_RANDOM_GENRE_PICKS primaryRows candidateRows in
           RJson 200 (JArr (movie_json <$> (primaryRelatedList ++ genreRandomRelatedList)))
      else RJson 404 (JObj [(js "error", JStr (js "Source movie not found"))])
  | None => RJson 404 (JObj [(js "error", JStr (js "Source movie not found"))])
  end.

(** ** POST /movie_collections (unnamed variant part_001) *)

Record collection : Type := {
  collection_id : Z;
  collection_name : list N
}.

Definition next_id (table : list collection) : Z :=
  (1 + foldr Z.max 0 (collection_id <$> table))%Z.

Definition unique_violation : list N :=
  js "D1_ERROR: UNIQUE constraint failed: movie_collections.name".

(** Modelled from the spec: the [movie_collections] table and its
    insert-returning statement; the schema is not part of the sources.
    Names are unique and ids are generated: inserting a name that is
    present raises the UNIQUE-constraint error and adds no row, any other
    insert appends a row with a fresh id and returns that id. *)
Definition insert_returning_id (table : list collection) (name : list N)
  : completion (option Z) * list collection :=
  if bool_decide (name ∈ collection_name <$> table)
  then (Throw unique_violation, table)
  else (Normal (Some (next_id table)),
        table ++ [{| collection_id := next_id table; collection_name := name |}]).

(** [payload.name?.trim()], the first statement after the body is
    read: reading a property of [null] is a TypeError, a missing or
    [null] name gives [undefined], a string its trimmed text, and on
    any other value [trim] is not a function. *)
Definition collectionName_of (payload : json) : completion (option (list N)) :=
  match payload with
  | JNull => Throw (js "Cannot read properties of null (reading 'name')")
  | JObj fields =>
      match property (js "name") fields with
      | None | Some JNull => Normal None
      | Some (JStr s) => Normal (Some (trim s))
      | Some _ => Throw (js "payload.name?.trim is not a function")
      end
  | _ => Normal None
  end.

(** The handler, on the outcome of [c.req.json()] and the table; it
    returns the response, or the exception that leaves the handler (the
    statements before the [try] are not guarded), and the table
    afterwards. *)
Definition post_movie_collections (table : list collection) (body : completion json)
  : completion response * list collection :=
  match body with
  | Throw m => (Throw m, table)
  | Normal payload =>
      match collectionName_of payload with
      | Throw m => (Throw m, table)
      | Normal (Some (c :: n)) =>
          let collectionName := c :: n in
          let '(result, table') := insert_returning_id table collectionName in
          (try_catch
             (match result with
              | Normal (Some i) =>
                  if (i =? 0)%Z then Throw (js "Failed to get ID of new collection.")
                  else Normal (RJson 201 (JObj [(js "id", JNum i);
                                                (js "name", JStr collectionName)]))
              | Normal None => Throw (js "Failed to get ID of new collection.")
              | Throw m => Throw m
              end)
             (fun message =>
                Normal
                  (if includes message (js "UNIQUE constraint failed")
                   then RJson 409
                          (JObj [(js "error", JStr (js "Collection name already exists"))])
                   else RJson 500 (JObj [(js "error", JStr (js "Database error"));
                                         (js "details", JStr message)]))),
           table')
      | Normal _ => (Normal (RJson 400 (JObj [(js "error", JStr (js "Name required"))])), table)
      end
  end.

End MovieApi.

(** * A JSON codec

    An implementation of the two JSON primitives over [json]: compact
    serialisation as [JSON.stringify] writes it (quotes, backslashes and
    control characters escaped, every other code unit written as it is),
    and a parser for the JSON grammar (a numeral with a fraction or an
    exponent has no counterpart in [json] and is rejected). It
    instantiates the primitive that [parseJsonField] is parameterised
    by. *)

Module JsonCodec.

Import Decimal.

(** *** Serialisation *)

Definition hex_digit (d : N) : N := if d <? 10 then 48 + d else 87 + d.

Definition escape_unit (c : N) : list N :=
  if c =? 34 then [92; 34]
  else if c =? 92 then [92; 92]
  else if c =? 8 then [92; 98]
  else if c =? 9 then [92; 116]
  else if c =? 10 then [92; 110]
  else if c =? 12 then [92; 102]
  else if c =? 13 then [92; 114]
  else if c <? 32 then [92; 117; 48; 48; hex_digit (c / 16); hex_digit (c mod 16)]
  else [c].

Definition quote (s : list N) : list N :=
  dquote :: concat (map escape_unit s) ++ [dquote].

Fixpoint uint_units (u : uint) : list N :=
  match u with
  | Nil => []
  | D0 u => 48 :: uint_units u
  | D1 u => 49 :: uint_units u
  | D2 u => 50 :: uint_units u
  | D3 u => 51 :: uint_units u
  | D4 u => 52 :: uint_units u
  | D5 u => 53 :: uint_units u
  | D6 u => 54 :: uint_units u
  | D7 u => 55 :: uint_units u
  | D8 u => 56 :: uint_units u
  | D9 u => 57 :: uint_units u
  end.

Definition stringify_number (z : Z) : list N :=
  match z with
  | Z0 => [48]
  | Zpos p => uint_units (N.to_uint (Npos p))
  | Zneg p => 45 :: uint_units (N.to_uint (Npos p))
  end.

Fixpoint stringify (v : json) : list N :=
  match v with
  | JNull => js "null"
  | JBool true => js "true"
  | JBool false => js "false"
  | JNum z => stringify_number z
  | JStr s => quote s
  | JArr items => js "[" ++ join (js ",") (map stringify items) ++ js "]"
  | JObj fields =>
      js "{"
      ++ join (js ",")
           (map (fun kv => match kv with
                           | (k, x) => quote k ++ js ":" ++ stringify x
                           end) fields)
      ++ js "}"
  end.

(** *** Parsing *)

Definition is_json_ws (c : N) : bool :=
  (c =? 32) || (c =? 9) || (c =? 10) || (c =? 13).

Fixpoint skip_ws (s : list N) : list N :=
  match s with
  | [] => []
  | c :: r => if is_json_ws c then skip_ws r else s
  end.

Definition hex_value (c : N) : option N :=
  if (48 <=? c) && (c <=? 57) then Some (c - 48)
  else if (97 <=? c) && (c <=? 102) then Some (c - 87)
  else if (65 <=? c) && (c <=? 70) then Some (c - 55)
  else None.

Definition hex4 (a b c d : N) : option N :=
  match hex_value a, hex_value b, hex_value c, hex_value d with
  | Some x, Some y, Some z, Some w => Some (4096 * x + 256 * y + 16 * z + w)
  | _, _, _, _ => None
  end.

Definition unescape (e : N) : option N :=
  if e =? 34 then Some 34
  else if e =? 92 then Some 92
  else if e =? 47 then Some 47
  else if e =? 98 then Some 8
  else if e =? 102 then Some 12
  else if e =? 110 then Some 10
  else if e =? 114 then Some 13
  else if e =? 116 then Some 9
  else None.

Definition consing (c : N) (o : option (list N * list N)) : option (list N * list N) :=
  match o with
  | Some (s, r) => Some (c :: s, r)
  | None => None
  end.

(** The characters of a string literal after its opening quote, up to
    and including the closing quote. *)
Fixpoint parse_string_body (s : list N) : option (list N * list N) :=
  match s with
  | [] => None
  | c :: r =>
      if c =? 34 then Some ([], r)
      else if c =? 92 then
        match r with
        | [] => None
        | e :: r1 =>
            if e =? 117 then
              match r1 with
              | h1 :: h2 :: h3 :: h4 :: r2 =>
                  match hex4 h1 h2 h3 h4 with
                  | Some n => consing n (parse_string_body r2)
                  | None => None
                  end
              | _ => None
              end
            else
              match unescape e with
              | Some n => consing n (parse_string_body r1)
              | None => None
              end
        end
      else if c <? 32 then None
      else consing c (parse_string_body r)
  end.

Definition digit_of (c : N) : option (uint -> uint) :=
  if c =? 48 then Some D0 else if c =? 49 then Some D1
  else if c =? 50 then Some D2 else if c =? 51 then Some D3
  else if c =? 52 then Some D4 else if c =? 53 then Some D5
  else if c =? 54 then Some D6 else if c =? 55 then Some D7
  else if c =? 56 then Some D8 else if c =? 57 then Some D9
  else None.

Fixpoint read_digits (s : list N) : uint * list N :=
  match s with
  | [] => (Nil, [])
  | c :: r =>
      match digit_of c with
      | Some d => let '(u, r') := read_digits r in (d u, r')
      | None => (Nil, s)
      end
  end.

Definition starts_fraction (s : list N) : bool :=
  match s with
  | c :: _ => (c =? 46) || (c =? 101) || (c =? 69)
  | [] => false
  end.

(** An optional minus sign. *)
Definition split_sign (s : list N) : bool * list N :=
  match s with
  | c :: r => if c =? 45 then (true, r) else (false, s)
  | [] => (false, s)
  end.

(** An integer numeral: an optional minus sign and digits without a
    superfluous leading zero. *)
Definition parse_number (s : list N) : option (json * list N) :=
  let '(negative, s1) := split_sign s in
  let '(u, r) := read_digits s1 in
  if uint_beq u Nil then None
  else if uint_beq (unorm u) u && negb (starts_fraction r)
  then Some (JNum (if negative then - Z.of_N (N.of_uint u)
                   else Z.of_N (N.of_uint u))%Z, r)
  else None.

Fixpoint parse_value (fuel : nat) (s : list N) : option (json * list N) :=
  match fuel with
  | O => None
  | S fuel' =>
      match skip_ws s with
      | [] => None
      | c :: r =>
          if c =? 34 then
            match parse_string_body r with
            | Some (str, r') => Some (JStr str, r')
            | None => None
            end
          else if c =? 91 then
            match skip_ws r with
            | c' :: r' =>
                if c' =? 93 then Some (JArr [], r')
                else match parse_elements fuel' r with
                     | Some (items, r'') => Some (JArr items, r'')
                     | None => None
                     end
            | [] => None
            end
          else if c =? 123 then
            match skip_ws r with
            | c' :: r' =>
                if c' =? 125 then Some (JObj [], r')
                else match parse_members fuel' r with
                     | Some (fields, r'') => Some (JObj fields, r'')
                     | None => None
                     end
            | [] => None
            end
          else if startsWith (c :: r) (js "null") then Some (JNull, drop 4 (c :: r))
          else if startsWith (c :: r) (js "true") then Some (JBool true, drop 4 (c :: r))
          else if startsWith (c :: r) (js "false") then Some (JBool false, drop 5 (c :: r))
          else parse_number (c :: r)
      end
  end
with parse_elements (fuel : nat) (s : list N) : option (list json * list N) :=
  match fuel with
  | O => None
  | S fuel' =>
      match parse_value fuel' s with
      | Some (x, r) =>
          match skip_ws r with
          | c :: r' =>
              if c =? 44 then
                match parse_elements fuel' r' with
                | Some (xs, r'') => Some (x :: xs, r'')
                | None => None
                end
              else if c =? 93 then Some ([x], r')
              else None
          | [] => None
          end
      | None => None
      end
  end
with parse_members (fuel : nat) (s : list N)
  : option (list (list N * json) * list N) :=
  match fuel with
  | O => None
  | S fuel' =>
      match skip_ws s with
      | c :: r =>
          if c =? 34 then
            match parse_string_body r with
            | Some (k, r1) =>
                match skip_ws r1 with
                | c1 :: r2 =>
                    if c1 =? 58 then
                      match parse_value fuel' r2 with
                      | Some (x, r3) =>
                          match skip_ws r3 with
                          | c2 :: r4 =>
                              if c2 =? 44 then
                                match parse_members fuel' r4 with
                                | Some (ms, r5) => Some ((k, x) :: ms, r5)
                                | None => None
                                end
                              else if c2 =? 125 then Some ([(k, x)], r4)
                              else None
                          | [] => None
                          end
                      | None => None
                      end
                    else None
                | [] => None
                end
            | None => None
            end
          else None
      | [] => None
      end
  end.

Definition syntax_error : list N := js "SyntaxError: Unexpected token in JSON".

(** [JSON.parse]: one value, surrounded by optional white space. *)
Definition JSON_parse (s : list N) : completion json :=
  match parse_value (S (length s)) s with
  | Some (v, r) =>
      match skip_ws r with
      | [] => Normal v
      | _ :: _ => Throw syntax_error
      end
  | None => Throw syntax_error
  end.

(** *** Vocabulary of the round-trip statements *)

(** What may follow a numeral: no further digit. *)
Definition no_digit (rest : list N) : Prop :=
  match rest with
  | [] => True
  | c :: _ => digit_of c = None
  end.

(** What follows a value inside a text: nothing, a comma, or a closing
    bracket or brace. *)
Definition delimited (rest : list N) : Prop :=
  match rest with
  | [] => True
  | c :: _ => c = 44 \/ c = 93 \/ c = 125
  end.

(** The fuel that suffices to read a value back. *)
Fixpoint jsize (v : json) : nat :=
  match v with
  | JArr items => S (list_sum (map (fun x => S (jsize x)) items))
  | JObj fields =>
      S (list_sum (map (fun kv => match kv with (_, x) => S (jsize x) end) fields))
  | _ => 1%nat
  end.

Definition member_text (kv : list N * json) : list N :=
  match kv with (k, x) => quote k ++ js ":" ++ stringify x end.

(** A value is read back from its text, whatever delimiter follows. *)
Definition reads_back (v : json) : Prop :=
  forall (fuel : nat) (rest : list N),
    (jsize v <= fuel)%nat -> delimited rest ->
    parse_value fuel (stringify v ++ rest) = Some (v, rest).

End JsonCodec.

(** * Specification vocabulary *)

(** The number of positional placeholders of an SQL text. *)
Definition placeholders (sql : list N) : nat :=
  length (filter (fun c : N => c = 63) sql).

Module FilterSpec.

Import DbUtils.

(** The filter keys read by the predicate builder, in source order. *)
Inductive filter_key : Type :=
| SearchTerm | UniqueidFuzzy | UniqueidPrefix | Genres | ParentId
| IncludeItemTypes | PersonIds | StudioIds | SeriesName.

Definition key_name (k : filter_key) : list N :=
  match k with
  | SearchTerm => js "SearchTerm"
  | UniqueidFuzzy => js "uniqueid_num_fuzzy"
  | UniqueidPrefix => js "uniqueid_num_prefix"
  | Genres => js "Genres"
  | ParentId => js "ParentId"
  | IncludeItemTypes => js "IncludeItemTypes"
  | PersonIds => js "personIds"
  | StudioIds => js "studioIds"
  | SeriesName => js "seriesName"
  end.

Definition filter_keys : list filter_key :=
  [SearchTerm; UniqueidFuzzy; UniqueidPrefix; Genres; ParentId;
   IncludeItemTypes; PersonIds; StudioIds; SeriesName].

(** The values of a comma-separated list that count: trimmed and
    non-empty. *)
Definition tokens (v : list N) : list (list N) :=
  filter (fun s : list N => s ≠ []) (trim <$> split 44 v).

Definition and_join (subs : list (list N)) : list N := join (js " AND ") subs.
Definition or_join (subs : list (list N)) : list N := paren (join (js " OR ") subs).

Definition like_wrap (v : list N) : list N := js "%" ++ v ++ js "%".
Definition quoted_wrap (v : list N) : list N :=
  js "%" ++ [dquote] ++ v ++ [dquote] ++ js "%".

Definition search_columns : list (list N) :=
  [js "title LIKE ?"; js "plot LIKE ?"; js "director LIKE ?"; js "studio LIKE ?";
   js "uniqueid_num LIKE ?"; js "actors LIKE ?"].

Definition person_columns : list (list N) :=
  [js "actors LIKE ?"; js "director = ?"; js "director LIKE ?"].

Definition movie_only : list N := js "(set_name IS NULL OR set_name = '')".
Definition series_only : list N := js "(set_name IS NOT NULL AND set_name != '')".

(** The sub-clause a filter key contributes, if any. *)
Definition subclause (argsDict : gmap (list N) (list N)) (k : filter_key)
  : option (list N) :=
  match argsDict !! key_name k with
  | None => None
  | Some v =>
      match k with
      | IncludeItemTypes =>
          if str_eqb v (js "Movie") then Some movie_only
          else if str_eqb v (js "Series") then Some series_only
          else None
      | Genres =>
          match v, tokens v with
          | _ :: _, _ :: _ =>
              Some (or_join ((fun _ => js "genres LIKE ?") <$> tokens v))
          | _, _ => None
          end
      | _ =>
          match v with
          | [] => None
          | _ :: _ =>
              Some match k with
                   | SearchTerm => or_join search_columns
                   | UniqueidFuzzy | UniqueidPrefix => js "uniqueid_num LIKE ?"
                   | ParentId => js "root_folder = ?"
                   | PersonIds => or_join person_columns
                   | StudioIds => js "studio = ?"
                   | _ => js "set_name = ?"
                   end
          end
      end
  end.

(** The values a filter key binds, in order. *)
Definition subparams (argsDict : gmap (list N) (list N)) (k : filter_key)
  : list sqlval :=
  match argsDict !! key_name k with
  | Some (c :: t) =>
      let v := c :: t in
      match k with
      | SearchTerm => replicate 6 (SqlText (like_wrap v))
      | UniqueidFuzzy => [SqlText (like_wrap v)]
      | UniqueidPrefix => [SqlText (v ++ js "%")]
      | Genres => (fun g => SqlText (quoted_wrap g)) <$> tokens v
      | IncludeItemTypes => []
      | PersonIds =>
          [SqlText (js "%" ++ [dquote] ++ js "name" ++ [dquote] ++ js ":"
                    ++ [dquote] ++ v ++ [dquote] ++ js "%");
           SqlText v; SqlText (quoted_wrap v)]
      | ParentId | StudioIds | SeriesName => [SqlText v]
      end
  | _ => []
  end.

(** The predicate as the specification words it: the sub-clauses of the
    keys joined by AND, or the always-true predicate when there is
    none. *)
Definition spec_clause (argsDict : gmap (list N) (list N)) : list N :=
  match omap (subclause argsDict) filter_keys with
  | [] => js "1=1"
  | subs => and_join subs
  end.

Definition spec_params (argsDict : gmap (list N) (list N)) : list sqlval :=
  filter_keys ≫= subparams argsDict.

(** Every block appends the sub-clause of its key, when there is one,
    and the values that sub-clause binds. *)
Definition appends (k : filter_key) (block : gmap (list N) (list N) -> builder -> builder)
  : Prop :=
  forall argsDict b,
    block argsDict b
    = Builder (conditions b ++ option_list (subclause argsDict k))
              (sqlParams b ++ subparams argsDict k).

(** A text assembled from the fixed fragments below. *)
Definition assembled_from (frags : list (list N)) (s : list N) : Prop :=
  exists fs, Forall (fun f => f ∈ frags) fs /\ s = concat fs.

(** What of an argument map the clause may depend on: which keys carry a
    non-empty value, how many genre values count, and which item type is
    selected. *)
Inductive type_choice : Type := OnlyMovies | OnlySeries | AnyType.

Record shape : Type := Shape {
  given : list bool;
  genre_count : nat;
  item_type : type_choice
}.

Definition shape_of (argsDict : gmap (list N) (list N)) : shape :=
  Shape ((fun k => truthy (argsDict !! key_name k))
           <$> [SearchTerm; UniqueidFuzzy; UniqueidPrefix; ParentId;
                PersonIds; StudioIds; SeriesName])
        (match argsDict !! key_name Genres with
         | Some (c :: t) => length (tokens (c :: t))
         | _ => O
         end)
        (match argsDict !! key_name IncludeItemTypes with
         | Some v => if str_eqb v (js "Movie") then OnlyMovies
                     else if str_eqb v (js "Series") then OnlySeries
                     else AnyType
         | None => AnyType
         end).

(** The fixed text the clause is assembled from. *)
Definition fragments : list (list N) :=
  [js "1=1"; js " AND "; js " OR "; js "("; js ")";
   js "title LIKE ?"; js "plot LIKE ?"; js "director LIKE ?"; js "studio LIKE ?";
   js "uniqueid_num LIKE ?"; js "actors LIKE ?"; js "genres LIKE ?";
   js "root_folder = ?"; movie_only; series_only;
   js "director = ?"; js "studio = ?"; js "set_name = ?"].

(** The claim of value-independence in its original form: the same
    filter keys present and the same number of comma-separated genre
    tokens. *)
Definition same_keys_present (a1 a2 : gmap (list N) (list N)) : Prop :=
  forall k, is_Some (a1 !! key_name k) <-> is_Some (a2 !! key_name k).

Definition comma_tokens (a : gmap (list N) (list N)) : nat :=
  match a !! key_name Genres with
  | Some v => length (split 44 v)
  | None => O
  end.

(** The sub-clause of a key, read off a shape. *)
Definition given_at (s : shape) (i : nat) : bool := default false (given s !! i).

Definition subclause_of_shape (s : shape) (k : filter_key) : option (list N) :=
  match k with
  | SearchTerm => if given_at s 0 then Some (or_join search_columns) else None
  | UniqueidFuzzy => if given_at s 1 then Some (js "uniqueid_num LIKE ?") else None
  | UniqueidPrefix => if given_at s 2 then Some (js "uniqueid_num LIKE ?") else None
  | Genres =>
      match genre_count s with
      | O => None
      | S n => Some (or_join (replicate (S n) (js "genres LIKE ?")))
      end
  | ParentId => if given_at s 3 then Some (js "root_folder = ?") else None
  | IncludeItemTypes =>
      match item_type s with
      | OnlyMovies => Some movie_only
      | OnlySeries => Some series_only
      | AnyType => None
      end
  | PersonIds => if given_at s 4 then Some (or_join person_columns) else None
  | StudioIds => if given_at s 5 then Some (js "studio = ?") else None
  | SeriesName => if given_at s 6 then Some (js "set_name = ?") else None
  end.

(** Concrete argument maps used as test inputs. *)
Definition no_filter_args : gmap (list N) (list N) :=
  {[ js "SortBy" := js "Name" ]}.

Definition genre_args : gmap (list N) (list N) :=
  {[ js "Genres" := js "Action, ,Drama" ]}.

Definition movies_args : gmap (list N) (list N) :=
  {[ js "IncludeItemTypes" := js "Movie" ]}.

Definition series_args : gmap (list N) (list N) :=
  {[ js "IncludeItemTypes" := js "Series" ]}.

Definition search_args_1 : gmap (list N) (list N) :=
  <[ js "SearchTerm" := js "alien" ]> {[ js "Genres" := js "Action,Drama" ]}.

Definition search_args_2 : gmap (list N) (list N) :=
  <[ js "SearchTerm" := js "x' OR 1=1 --" ]> {[ js "Genres" := js " Sci-Fi ,, Noir" ]}.

End FilterSpec.

(** * Specification vocabulary for the handlers *)

Module HandlerSpec.

Import MovieApi.

(** The listing handler of movieApi.ts and the one of the unnamed
    variants, which differ in the sort map and in the fallback of
    [TotalPages]. *)
Definition get_items_current toUpperCase DB_first_total DB_all :=
  get_items toUpperCase DB_first_total DB_all sortMap 1.

Definition get_items_variant toUpperCase DB_first_total DB_all :=
  get_items toUpperCase DB_first_total DB_all sortMap_variant 0.

(** The ceiling of the quotient [n / p] for a positive [p]. *)
Definition ceil_div (n p : Z) : Z := ((n + p - 1) / p)%Z.

(** A property of a JSON object sent as response body. *)
Fixpoint field_of (name : list N) (fields : list (list N * json)) : option json :=
  match fields with
  | [] => None
  | (k, v) :: rest => if DbUtils.str_eqb k name then Some v else field_of name rest
  end.

Definition response_field (name : string) (r : response) : option json :=
  match r with
  | RJson _ (JObj fields) => field_of (js name) fields
  | _ => None
  end.

(** A database that counts [n] matching records and returns no rows,
    for test requests. *)
Definition counting (n : Z) : list N -> list sqlval -> completion (option Z) :=
  fun _ _ => Normal (Some n).

Definition no_rows : list N -> list sqlval -> completion (list movie_row) :=
  fun _ _ => Normal [].

(** A session cookie is valid when it is present, verifies, and its
    payload says [loggedIn]. *)
Definition session_valid (verify : list N -> list N -> completion Auth.JwtPayload)
    (secret : list N) (cookie : option (list N)) : bool :=
  match cookie with
  | Some (c :: t) =>
      match verify (c :: t) secret with
      | Normal payload => Auth.loggedIn payload
      | Throw _ => false
      end
  | _ => false
  end.

(** A toy verifier for test requests: the token must equal the secret. *)
Definition verify_same (token secret : list N) : completion Auth.JwtPayload :=
  if DbUtils.str_eqb token secret then Normal {| Auth.loggedIn := true |}
  else Throw (js "signature mismatched").

(** Two records that point at each other's numeric ids. *)
Definition crossed_env : Env :=
  {| MOVIE_ASSETS_R2_BASE_PREFIX := js "assets";
     DB_MOVIES := <[1%Z := Some (js "2")]> {[2%Z := Some (js "1")]};
     MOVIES_ASSETS_BUCKET := ∅ |}.

(** A record whose external identifier starts with digits, and its
    stored poster. *)
Definition digits_env : Env :=
  {| MOVIE_ASSETS_R2_BASE_PREFIX := js "assets";
     DB_MOVIES := {[1%Z := Some (js "300MAAN-123")]};
     MOVIES_ASSETS_BUCKET :=
       {[ js "assets/movies/movies_poster/300MAAN/300MAAN-123_poster.avif" :=
            {| R2Utils.body := [4; 5; 6];
               R2Utils.contentType := Some (js "image/avif");
               R2Utils.size := 3;
               R2Utils.httpEtag := js "etag" |} ]} |}.

(** A record with an alphabetic external identifier and its poster. *)
Definition plain_env : Env :=
  {| MOVIE_ASSETS_R2_BASE_PREFIX := js "assets";
     DB_MOVIES := <[7%Z := Some (js "ABC-123")]> {[8%Z := Some (js "8")]};
     MOVIES_ASSETS_BUCKET :=
       {[ js "assets/movies/movies_poster/ABC/ABC-123_poster.avif" :=
            {| R2Utils.body := [1; 2; 3];
               R2Utils.contentType := Some (js "image/avif");
               R2Utils.size := 3;
               R2Utils.httpEtag := js "etag" |} ]} |}.

(** The identifiers of a list of response records. *)
Definition ids (l : list movie) : list (option Z) := Id <$> l.

End HandlerSpec.

(** * Further vocabulary *)

(** How often a code unit occurs in a text. *)
Definition count_unit (c : N) (s : list N) : nat :=
  length (filter (fun x : N => x = c) s).

(** A text that neither starts nor ends with white space. *)
Definition starts_clean (s : list N) : Prop :=
  match s with
  | [] => True
  | c :: _ => is_ws c = false
  end.

Definition clean (s : list N) : Prop := starts_clean s /\ starts_clean (reverse s).

(** Argument maps that differ outside the filter keys only. *)
Definition search_args_paged : gmap (list N) (list N) :=
  <[ js "Limit" := js "20" ]>
    (<[ js "StartIndex" := js "40" ]>
       (<[ js "SortBy" := js "Name" ]> FilterSpec.search_args_1)).

(** * movieApi.ts: lookups, likes and streams

    The [movies] table as the list of its rows in storage order, with
    the columns these handlers read or write. *)

Module MovieStore.

Import DbUtils R2Utils MovieApi.

Record stored_movie : Type := {
  movie_id : Z;
  movie_uniqueid_num : option (list N);
  movie_title : option (list N);
  movie_is_liked : Z;
  movie_strm_files : option (list N)
}.

(** [SELECT ... FROM movies WHERE id = ?], first row *)
Definition first_by_id (movies : list stored_movie) (n : Z) : option stored_movie :=
  head (filter (fun m => movie_id m = n) movies).

(** [SELECT ... FROM movies WHERE uniqueid_num = ?], first row; a NULL
    column matches nothing. *)
Definition first_by_uniqueid_num (movies : list stored_movie) (s : list N)
  : option stored_movie :=
  head (filter (fun m => movie_uniqueid_num m = Some s) movies).

(** The lookup every handler starts with:
    [if (!isNaN(parseInt(p, 10))) by id else by uniqueid_num]. *)
Definition find_movie (movies : list stored_movie) (itemIdOrNum : list N)
  : option stored_movie :=
  match parseInt itemIdOrNum with
  | Some n => first_by_id movies n
  | None => first_by_uniqueid_num movies itemIdOrNum
  end.

Definition as_row (m : stored_movie) : movie_row :=
  {| id := Some (movie_id m);
     title := movie_title m;
     is_liked := Some (movie_is_liked m) |}.

Definition not_found (message : string) : response :=
  RJson 404 (JObj [(js "error", JStr (js message))]).

(** GET /items/:item_id_or_num *)
Definition get_item (movies : list stored_movie) (itemIdOrNum : list N) : response :=
  match find_movie movies itemIdOrNum with
  | None => not_found "Movie not found"
  | Some movieRaw =>
      match movieRowToDict (Some (as_row movieRaw)) with
      | Some movieDict => RJson 200 (movie_json movieDict)
      | None => RJson 200 JNull
      end
  end.

(** [UPDATE movies SET is_liked = ? WHERE id = ?] *)
Definition set_is_liked (flag : Z) (n : Z) (movies : list stored_movie)
  : list stored_movie :=
  (fun m => if bool_decide (movie_id m = n)
            then {| movie_id := movie_id m;
                    movie_uniqueid_num := movie_uniqueid_num m;
                    movie_title := movie_title m;
                    movie_is_liked := flag;
                    movie_strm_files := movie_strm_files m |}
            else m) <$> movies.

(** The two handlers of [/items/:item_id_or_num/like]: they differ in
    the flag they store and in their answer. A row whose id is [0] is
    treated like a missing one ([if (!movieId)]). *)
Definition change_like (flag : Z) (answer : response)
    (movies : list stored_movie) (itemIdOrNum : list N)
  : response * list stored_movie :=
  match find_movie movies itemIdOrNum with
  | Some row =>
      if (movie_id row =? 0)%Z then (not_found "Movie not found", movies)
      else (answer, set_is_liked flag (movie_id row) movies)
  | None => (not_found "Movie not found", movies)
  end.

Definition post_like : list stored_movie -> list N -> response * list stored_movie :=
  change_like 1
    (RJson 200 (JObj [(js "message", JStr (js "Movie liked"));
                      (js "is_liked", JBool true)])).

Definition delete_like : list stored_movie -> list N -> response * list stored_movie :=
  change_like 0
    (RJson 200 (JObj [(js "message", JStr (js "Movie unliked"));
                      (js "is_liked", JBool false)])).

(** Truthiness of a value. *)
Definition json_truthy (v : json) : bool :=
  match v with
  | JNull => false
  | JBool b => b
  | JNum z => negb (z =? 0)%Z
  | JStr s => nonempty s
  | JArr _ | JObj _ => true
  end.

(** The text a template literal makes of a value. An object made by
    [JSON.parse] has no callable [toString] of its own: with a member of
    that name the conversion fails with a TypeError, without one it gives
    [[object Object]]. A list joins the texts of its entries, with nothing
    for [null]. *)
Fixpoint to_string (v : json) : completion (list N) :=
  match v with
  | JNull => Normal (js "null")
  | JBool true => Normal (js "true")
  | JBool false => Normal (js "false")
  | JNum z => Normal (JsonCodec.stringify_number z)
  | JStr s => Normal s
  | JArr items =>
      match
        (fix texts (l : list json) : completion (list (list N)) :=
           match l with
           | [] => Normal []
           | x :: rest =>
               match (match x with
                      | JNull => Normal []
                      | _ => to_string x
                      end) with
               | Throw m => Throw m
               | Normal s =>
                   match texts rest with
                   | Throw m => Throw m
                   | Normal ss => Normal (s :: ss)
                   end
               end
           end) items
      with
      | Throw m => Throw m
      | Normal ss => Normal (join (js ",") ss)
      end
  | JObj fields =>
      match property (js "toString") fields with
      | Some _ => Throw (js "Cannot convert object to primitive value")
      | None => Normal (js "[object Object]")
      end
  end.

(** GET /stream/:item_id_or_num of movieApi.ts. [MOVIES_BUCKET] is
    [None] when the binding is missing. *)
Definition get_stream (JSON_parse : list N -> completion json)
    (MOVIE_ASSETS_R2_BASE_PREFIX : list N)
    (MOVIES_BUCKET : option (gmap (list N) R2Object))
    (movies : list stored_movie) (itemIdOrNum : list N) : completion response :=
  match find_movie movies itemIdOrNum with
  | None => Normal (not_found "Movie not found for streaming")
  | Some movieRaw =>
      match movie_strm_files movieRaw with
      | Some (c :: s) =>
          match parseJsonField JSON_parse (Value (JStr (c :: s))) [] with
          | Throw m => Throw m
          | Normal [] => Normal (not_found "No stream links available")
          | Normal (firstStreamEntry :: _) =>
              let streamPathOrKey : option json :=
                match firstStreamEntry with
                | JStr k => Some (JStr k)
                | JObj fields =>
                    match property (js "url") fields with
                    | Some url => if json_truthy url then Some url else None
                    | None => None
                    end
                | _ => None
                end in
              match streamPathOrKey with
              | Some key =>
                  if json_truthy key then
                    match to_string key with
                    | Throw m => Throw m
                    | Normal text =>
                        let fullR2Key :=
                          collapse_slashes
                            (MOVIE_ASSETS_R2_BASE_PREFIX ++ js "/" ++ text) in
                        match MOVIES_BUCKET with
                        | Some bucket =>
                            Normal (serveFileFromR2 bucket fullR2Key
                                      (js "public, max-age=86400"))
                        | None =>
                            Normal (RText 500 (js "Stream service misconfiguration"))
                        end
                    end
                  else
                    Normal (not_found
                      "Valid R2 key/path for video file not found in strm_files")
              | None =>
                  Normal (not_found
                    "Valid R2 key/path for video file not found in strm_files")
              end
          end
      | _ => Normal (not_found "Stream files metadata not found for this movie")
      end
  end.

(** Sample rows *)
Definition sample_movies : list stored_movie :=
  [ {| movie_id := 1; movie_uniqueid_num := Some (js "ABC-123");
       movie_title := Some (js "First"); movie_is_liked := 0;
       movie_strm_files := Some (js "[]") |};
    {| movie_id := 2; movie_uniqueid_num := Some (js "300MAAN-123");
       movie_title := Some (js "Second"); movie_is_liked := 0;
       movie_strm_files := None |};
    {| movie_id := 300; movie_uniqueid_num := None;
       movie_title := Some (js "Third"); movie_is_liked := 1;
       movie_strm_files := None |} ].

End MovieStore.

(** Two states of the table that differ in [is_liked] at most, row by
    row. *)
Definition same_but_likes (before after : list MovieStore.stored_movie) : Prop :=
  Forall2 (fun m m' =>
             MovieStore.movie_id m' = MovieStore.movie_id m
             /\ MovieStore.movie_uniqueid_num m' = MovieStore.movie_uniqueid_num m
             /\ MovieStore.movie_title m' = MovieStore.movie_title m
             /\ MovieStore.movie_strm_files m' = MovieStore.movie_strm_files m)
          before after.

(** What a like request may change: [is_liked] of the rows that share
    the id of the row found, nothing else. *)
Definition flag_only (before after : list MovieStore.stored_movie)
    (found : option MovieStore.stored_movie) : Prop :=
  same_but_likes before after
  /\ forall m, m ∈ before ->
       (forall row, found = Some row -> MovieStore.movie_id m <> MovieStore.movie_id row) ->
       m ∈ after.

(** A row with one stream file, and a bucket that stores it. *)
Definition stream_movies : list MovieStore.stored_movie :=
  [ {| MovieStore.movie_id := 5;
       MovieStore.movie_uniqueid_num := Some (js "XYZ-9");
       MovieStore.movie_title := Some (js "Streamed");
       MovieStore.movie_is_liked := 0;
       MovieStore.movie_strm_files :=
         Some (JsonCodec.stringify (JArr [JStr (js "videos/a.mp4"); JNull])) |} ].

Definition stream_bucket : gmap (list N) R2Utils.R2Object :=
  {[ js "assets/videos/a.mp4" :=
       {| R2Utils.body := [7; 8; 9];
          R2Utils.contentType := Some (js "video/mp4");
          R2Utils.size := 3;
          R2Utils.httpEtag := js "v1" |} ]}.

(** * auth.ts and index.ts: client address, token issue, login *)

Module Session.

Import Auth.

(** [getClientIp], as a function of the two request headers it reads
    ([None] when [headers.get] returns [null]). *)
Definition getClientIp (cfConnectingIp xForwardedFor : option (list N)) : list N :=
  match cfConnectingIp with
  | Some (c :: t) => c :: t
  | _ =>
      match xForwardedFor with
      | Some v =>
          match trim (default [] (head (split 44 v))) with
          | c :: t => c :: t
          | [] => js "Unknown IP"
          end
      | None => js "Unknown IP"
      end
  end.

(** The cookie written by [setCookie], with the options given at the
    call. *)
Record cookie : Type := {
  cookie_name : list N;
  cookie_value : list N;
  cookie_path : list N;
  cookie_secure : bool;
  cookie_httpOnly : bool;
  cookie_sameSite : list N;
  cookie_maxAge : Z
}.

Record answer : Type := {
  set_cookie : option cookie;
  sent : response
}.

Section Login.

(** [sign(payload, secret)] of the JWT library. *)
Variable sign : JwtPayload -> list N -> completion (list N).

(** [generateJwt]; the secret is [None] when the binding is not a
    string. *)
Definition generateJwt (SESSION_SECRET_KEY : option (list N)) : completion (list N) :=
  match SESSION_SECRET_KEY with
  | Some (c :: t) => sign {| loggedIn := true |} (c :: t)
  | _ => Throw (js "Server configuration error: Session secret is missing.")
  end.

(** POST /login of index.ts. [formData] is the outcome of
    [c.req.formData()]: an exception for a body that is not a form,
    otherwise the field [login_code] when it is a string ([None] when
    it is absent or a file). [LOGIN_CODE] is the binding when it is
    set, [protocol] the protocol of the request URL and [errorUrl] the
    text of the request URL after its path is set to [/login] and its
    [error] parameter to the message. An exception leaves the handler. *)
Definition post_login (formData : completion (option (list N)))
    (LOGIN_CODE SESSION_SECRET_KEY : option (list N))
    (protocol errorUrl : list N) : completion answer :=
  match formData with
  | Throw m => Throw m
  | Normal loginCode =>
      match loginCode, LOGIN_CODE with
      | Some given, Some expected =>
          if DbUtils.str_eqb given expected then
            match generateJwt SESSION_SECRET_KEY with
            | Throw m => Throw m
            | Normal token =>
                Normal {| set_cookie :=
                            Some {| cookie_name := js "auth_session";
                                    cookie_value := token;
                                    cookie_path := js "/";
                                    cookie_secure :=
                                      DbUtils.str_eqb protocol (js "https:");
                                    cookie_httpOnly := true;
                                    cookie_sameSite := js "Lax";
                                    cookie_maxAge := 7 * 24 * 60 * 60 |};
                          sent := RRedirect 303 (js "/") |}
            end
          else Normal {| set_cookie := None; sent := RRedirect 303 errorUrl |}
      | _, _ => Normal {| set_cookie := None; sent := RRedirect 303 errorUrl |}
      end
  end.

End Login.

(** The cookie a later request carries after an answer, for a browser
    that held [before]. *)
Definition carried (before : option (list N)) (a : answer) : option (list N) :=
  match set_cookie a with
  | Some ck => Some (cookie_value ck)
  | None => before
  end.

(** A toy signer matching [HandlerSpec.verify_same]: the token is the
    secret. *)
Definition sign_same (payload : JwtPayload) (secret : list N) : completion (list N) :=
  Normal secret.

End Session.

(** Rows of the two relation queries, for a test request. *)
Definition related_row (i : option Z) : MovieApi.movie_row :=
  {| MovieApi.id := i; MovieApi.title := None; MovieApi.is_liked := None |}.

Definition ranked_rows : list MovieApi.movie_row := [related_row (Some 1%Z)].

Definition candidate_rows : list MovieApi.movie_row :=
  [related_row (Some 1%Z); related_row (Some 2%Z); related_row None;
   related_row (Some 2%Z); related_row (Some 3%Z)].

(** * movieApi.ts: GET /genres *)

(** The order of [Array.prototype.sort] without a comparator on strings:
    code unit by code unit, a proper prefix first. *)
Fixpoint str_leb (a b : list N) : bool :=
  match a, b with
  | [], _ => true
  | _ :: _, [] => false
  | x :: a', y :: b' =>
      if x <? y then true else if y <? x then false else str_leb a' b'
  end.

Definition str_le (a b : list N) : Prop := str_leb a b = true.

#[global] Instance str_le_dec (a b : list N) : Decision (str_le a b) :=
  decide (str_leb a b = true).

Module Genres.

Import DbUtils.

(** [Set.prototype.add] on a set kept in insertion order. *)
Definition set_add (x : list N) (s : list (list N)) : list (list N) :=
  if bool_decide (x ∈ s) then s else s ++ [x].

(** One entry of the answer. *)
Definition genre_entry (g : list N) : json :=
  JObj [(js "Name", JStr g); (js "Id", JStr g)].

Section GetGenres.

Variable JSON_parse : list N -> completion json.

(** The statement run against the table: the [genres] column of its
    rows, or the exception of a failed query. *)
Variable DB_all : list N -> list sqlval -> completion (list (list N)).

(** The body of the inner [forEach]: [gName?.trim()] is [undefined] for
    [null], a text for a string, and a TypeError for every other
    entry. *)
Definition add_genre (allGenreNames : completion (list (list N))) (gName : json)
  : completion (list (list N)) :=
  match allGenreNames with
  | Throw m => Throw m
  | Normal names =>
      match gName with
      | JNull => Normal names
      | JStr s =>
          match trim s with
          | c :: t => Normal (set_add (c :: t) names)
          | [] => Normal names
          end
      | _ => Throw (js "gName?.trim is not a function")
      end
  end.

(** The body of the outer [forEach]. *)
Definition add_row (allGenreNames : completion (list (list N))) (genres : list N)
  : completion (list (list N)) :=
  match allGenreNames with
  | Throw m => Throw m
  | Normal names =>
      match parseJsonField JSON_parse (Value (JStr genres)) [] with
      | Throw m => Throw m
      | Normal entries => foldl add_genre (Normal names) entries
      end
  end.

Definition genres_query (parentId : option (list N)) : list N * list sqlval :=
  let query :=
    js "SELECT DISTINCT genres FROM movies WHERE genres IS NOT NULL AND genres != '' AND genres != '[]'" in
  match parentId with
  | Some (c :: p) => (query ++ js " AND scan_root = ?", [SqlText (c :: p)])
  | _ => (query, [])
  end.

Definition get_genres (parentId : option (list N)) : completion response :=
  let '(query, params) := genres_query parentId in
  match DB_all query params with
  | Throw m => Throw m
  | Normal results =>
      match foldl add_row (Normal []) results with
      | Throw m => Throw m
      | Normal allGenreNames =>
          Normal (RJson 200 (JArr (genre_entry <$> merge_sort str_le allGenreNames)))
      end
  end.

End GetGenres.

(** A table of three rows for test requests. *)
Definition sample_genres : list N -> list sqlval -> completion (list (list N)) :=
  fun _ _ =>
    Normal [JsonCodec.stringify (JArr [JStr (js "Drama"); JStr (js " Action ")]);
            js "Comedy, Drama";
            JsonCodec.stringify (JArr [JNull; JStr (js "  ")])].

End Genres.

(** * mangaApi.ts *)

Module MangaApi.

(** ** GET /mangas: the filter of the listing *)

Record manga_filter : Type := {
  fromClause : list N;
  conditions : list (list N);
  params : list sqlval
}.

Definition number_truthy (n : option Z) : bool :=
  match n with Some z => negb (z =? 0)%Z | None => false end.

(** The three [if] blocks of the handler, in source order, on the
    clause of the joined tables, [conditions] and [params]. *)
Definition collection_block (query : gmap (list N) (list N)) (f : manga_filter)
  : manga_filter :=
  let collectionId :=
    match query !! js "collection_id" with
    | Some (c :: v) => parseInt (c :: v)
    | _ => None
    end in
  if number_truthy collectionId
  then {| fromClause :=
            fromClause f ++ js " JOIN manga_collections mc ON m.id = mc.manga_id";
          conditions := conditions f ++ [js "mc.collection_id = ?"];
          params := params f ++ [SqlNum collectionId] |}
  else f.

Definition author_block (query : gmap (list N) (list N)) (f : manga_filter)
  : manga_filter :=
  match query !! js "author" with
  | Some (c :: author) =>
      {| fromClause := fromClause f;
         conditions := conditions f ++ [js "m.author = ?"];
         params := params f ++ [SqlText (c :: author)] |}
  | _ => f
  end.

Definition search_block (query : gmap (list N) (list N)) (f : manga_filter)
  : manga_filter :=
  match query !! js "search_term" with
  | Some (c :: searchTerm) =>
      if negb (truthy (query !! js "author"))
      then {| fromClause := fromClause f;
              conditions := conditions f ++ [js "(m.title LIKE ? OR m.author LIKE ?)"];
              params := params f
                        ++ [SqlText (js "%" ++ (c :: searchTerm) ++ js "%");
                            SqlText (js "%" ++ (c :: searchTerm) ++ js "%")] |}
      else f
  | _ => f
  end.

Definition build_filter (query : gmap (list N) (list N)) : manga_filter :=
  search_block query
    (author_block query
       (collection_block query
          {| fromClause := js " FROM mangas m";
             conditions := [js "m.is_appendix_to IS NULL"];
             params := [] |})).

Definition whereClause (f : manga_filter) : list N :=
  match conditions f with
  | [] => []
  | _ :: _ => js " WHERE " ++ join (js " AND ") (conditions f)
  end.

(** The count statement and the values bound to it. *)
Definition countQuery (query : gmap (list N) (list N)) : list N * list sqlval :=
  let f := build_filter query in
  (js "SELECT COUNT(DISTINCT m.id) as total" ++ fromClause f ++ whereClause f, params f).

(** ** POST /manga_item/:item_id/favorite *)






End MangaApi.

(** * index.ts: manga images *)

Module Index.

Import R2Utils.

(** [s.replace(pattern, replacement)] for a string pattern: the first
    occurrence is replaced. *)
Fixpoint replace_first (s pattern replacement : list N) {struct s} : list N :=
  if startsWith s pattern then replacement ++ drop (length pattern) s
  else match s with
       | [] => []
       | c :: r => c :: replace_first r pattern replacement
       end.

(** GET /data/manga_images/*, on the path of the request. [ASSETS_BUCKET]
    is [None] when the binding is missing. *)
Definition get_manga_image (MANGA_R2_BASE_PREFIX : list N)
    (ASSETS_BUCKET : option (gmap (list N) R2Object)) (fullPath : list N) : response :=
  let imagePathSuffix := replace_first fullPath (js "/data/manga_images/") [] in
  if negb (nonempty imagePathSuffix) || DbUtils.str_eqb imagePathSuffix fullPath
  then RText 400 (js "Manga image path suffix missing or invalid")
  else
    let r2Key :=
      collapse_slashes (MANGA_R2_BASE_PREFIX ++ js "/" ++ imagePathSuffix) in
    match ASSETS_BUCKET with
    | None => RText 500 (js "Manga image service misconfiguration")
    | Some bucket => serveFileFromR2 bucket r2Key (js "public, max-age=604800")
    end.

End Index.

(** A stored collection name is a trimmed, non-empty text. *)
Definition stored_name_clean (c : MovieApi.collection) : Prop :=
  MovieApi.collection_name c <> [] /\ clean (MovieApi.collection_name c).

(** * Identifiers in URLs

    A path segment that a client sends, and a server receives, exactly
    as it is written: made of the unreserved characters of URLs
    (letters, digits, [-], [.], [_], [~]), not empty and not a dot
    segment. Neither the resolution of a [Location] header nor the
    decoding of a route parameter changes such a segment. *)
Definition unreserved (c : N) : bool :=
  ((65 <=? c) && (c <=? 90)) || ((97 <=? c) && (c <=? 122)) || is_digit c
  || (c =? 45) || (c =? 46) || (c =? 95) || (c =? 126).

Definition url_safe (segment : list N) : bool :=
  nonempty segment && forallb unreserved segment
  && negb (DbUtils.str_eqb segment (js ".")) && negb (DbUtils.str_eqb segment (js "..")).

(** * Routing of [movieApiApp]

    The routes of the sub-application in the order of their
    registration, as paths below the mount point [/api_movies]. A
    request is answered by the first registered handler whose pattern
    matches its path: no handler of the file hands on to the next one. *)

Module Router.

(** The parts of a route pattern: a fixed segment, a parameter that
    stands for one non-empty segment ([:name]), and a parameter with
    the expression [.+], which stands for the whole rest of the path,
    slashes included ([:name{.+}]). *)
Inductive segment : Type :=
| Lit (s : string)
| Param
| ParamRest.

(** The segments of a path that starts with a slash. *)
Definition path_parts (path : list N) : option (list (list N)) :=
  match split 47 path with
  | [] :: parts => Some parts
  | _ => None
  end.

(** Matching of a pattern against the segments of a path; the result
    carries the value of the parameter, if the pattern has one. *)
Fixpoint match_segments (pattern : list segment) (parts : list (list N))
  : option (option (list N)) :=
  match pattern, parts with
  | [], [] => Some None
  | Lit s :: pattern', part :: parts' =>
      if DbUtils.str_eqb part (js s) then match_segments pattern' parts' else None
  | Param :: pattern', (c :: part) :: parts' =>
      match match_segments pattern' parts' with
      | Some _ => Some (Some (c :: part))
      | None => None
      end
  | [ParamRest], (c :: part) :: parts' => Some (Some (join (js "/") ((c :: part) :: parts')))
  | _, _ => None
  end.

(** The first route that matches, with the value of its parameter. *)
Fixpoint dispatch {H : Type} (routes : list (list segment * H)) (path : list N)
  : option (H * option (list N)) :=
  match routes with
  | [] => None
  | (pattern, handler) :: routes' =>
      match path_parts path ≫= match_segments pattern with
      | Some param => Some (handler, param)
      | None => dispatch routes' path
      end
  end.



(** The POST handlers: those of movieApi.ts, where the collection
    routes are inside a block comment, and those of the variant
    part_001. *)
Inductive post_handler : Type :=
| PostLike | PostMovieCollections.

Definition post_routes : list (list segment * post_handler) :=
  [ ([Lit "items"; Param; Lit "like"], PostLike) ].

Definition post_routes_variant : list (list segment * post_handler) :=
  [ ([Lit "items"; Param; Lit "like"], PostLike);
    ([Lit "movie_collections"], PostMovieCollections) ].



End Router.

(** * Properties of the predicate builder *)

Section BuilderFacts.

Import DbUtils FilterSpec.

Implicit Types (argsDict : gmap (list N) (list N)) (b : builder).

Lemma placeholders_app (s t : list N) :
  placeholders (s ++ t) = (placeholders s + placeholders t)%nat.
Proof. unfold placeholders. by rewrite filter_app, length_app. Qed.

Lemma placeholders_join (sep : list N) (l : list (list N)) :
  placeholders sep = O ->
  placeholders (join sep l) = sum_list (placeholders <$> l).
Proof.
  intros Hsep. induction l as [|x [|y l] IH].
  - reflexivity.
  - cbn [join fmap list_fmap sum_list sum_list_with]. unfold id. lia.
  - change (join sep (x :: y :: l)) with (x ++ sep ++ join sep (y :: l)).
    rewrite !placeholders_app, Hsep, IH. cbn [fmap list_fmap sum_list sum_list_with]. unfold id. lia.
Qed.

Lemma placeholders_paren (s : list N) : placeholders (paren s) = placeholders s.
Proof. unfold paren. rewrite !placeholders_app. change (placeholders (js "(")) with O. change (placeholders (js ")")) with O. lia. Qed.

(** The loop over the genre tokens appends one condition and one bound
    value per token that counts. *)
Lemma genre_loop (toks : list (list N)) (gc : list (list N)) b :
  foldl genre_step (gc, b) toks
  = (gc ++ ((fun _ => js "genres LIKE ?") <$> filter (fun s : list N => s ≠ []) (trim <$> toks)),
     Builder (conditions b)
             (sqlParams b ++ ((fun g => SqlText (quoted_wrap g))
                                <$> filter (fun s : list N => s ≠ []) (trim <$> toks)))).
Proof.
  revert gc b. induction toks as [|t toks IH]; intros gc b.
  - simpl. rewrite !app_nil_r. by destruct b.
  - cbn [foldl fmap list_fmap]. unfold genre_step at 2.
    destruct (trim t) as [|c g] eqn:Ht.
    + rewrite !filter_cons_False by (intros H; by apply H).
      destruct b. apply IH.
    + rewrite !filter_cons_True by done.
      cbn [fst snd]. rewrite IH. cbn [fmap list_fmap conditions sqlParams push_param].
      unfold quoted_wrap. f_equal.
      * by rewrite <- app_assoc.
      * f_equal. by rewrite <- app_assoc.
Qed.

Ltac block_cases :=
  intros argsDict [conds ps];
  unfold subclause, subparams, get, key_name;
  match goal with
  | |- context [argsDict !! ?key] => destruct (argsDict !! key) as [[|c v]|]
  end;
  simpl; rewrite ?app_nil_r; try reflexivity.

Lemma search_block_appends : appends SearchTerm search_block.
Proof.
  unfold search_block. block_cases.
  unfold push_condition, push_param. simpl. f_equal.
  by rewrite <- !app_assoc.
Qed.

Lemma fuzzy_block_appends : appends UniqueidFuzzy fuzzy_block.
Proof. unfold fuzzy_block. block_cases. Qed.

Lemma prefix_block_appends : appends UniqueidPrefix prefix_block.
Proof. unfold prefix_block. block_cases. Qed.

Lemma parent_block_appends : appends ParentId parent_block.
Proof. unfold parent_block. block_cases. Qed.

Lemma person_block_appends : appends PersonIds person_block.
Proof.
  unfold person_block. block_cases.
  unfold push_condition, push_param. simpl. f_equal.
  by rewrite <- !app_assoc.
Qed.

Lemma studio_block_appends : appends StudioIds studio_block.
Proof. unfold studio_block. block_cases. Qed.

Lemma series_block_appends : appends SeriesName series_block.
Proof. unfold series_block. block_cases. Qed.

Lemma types_block_appends : appends IncludeItemTypes types_block.
Proof.
  intros argsDict [conds ps].
  unfold types_block, subclause, subparams, get, key_name.
  destruct (argsDict !! js "IncludeItemTypes") as [v|]; simpl.
  - assert (Hps : ps ++ match v with [] => [] | _ :: _ => [] end = ps)
      by (destruct v; apply app_nil_r).
    rewrite Hps.
    destruct (str_eqb v (js "Movie")); [reflexivity|].
    destruct (str_eqb v (js "Series")); [reflexivity|].
    simpl. by rewrite app_nil_r.
  - by rewrite !app_nil_r.
Qed.

Lemma genres_block_appends : appends Genres genres_block.
Proof.
  intros argsDict [conds ps].
  unfold genres_block, subclause, subparams, get, key_name.
  destruct (argsDict !! js "Genres") as [[|c v]|];
    cbn [conditions sqlParams option_list]; rewrite ?app_nil_r; try reflexivity.
  rewrite genre_loop. fold (tokens (c :: v)).
  cbn [conditions sqlParams app].
  destruct (tokens (c :: v)) as [|g gs].
  - cbn [fmap list_fmap option_list]. by rewrite !app_nil_r.
  - reflexivity.
Qed.

Lemma blocks_spec argsDict :
  series_block argsDict
    (studio_block argsDict
       (person_block argsDict
          (types_block argsDict
             (parent_block argsDict
                (genres_block argsDict
                   (prefix_block argsDict
                      (fuzzy_block argsDict
                         (search_block argsDict (Builder [] [])))))))))
  = Builder (omap (subclause argsDict) filter_keys) (spec_params argsDict).
Proof.
  rewrite search_block_appends, fuzzy_block_appends, prefix_block_appends,
    genres_block_appends, parent_block_appends, types_block_appends,
    person_block_appends, studio_block_appends, series_block_appends.
  cbn [conditions sqlParams app].
  unfold spec_params, filter_keys.
  cbn [omap list_omap mbind list_bind].
  f_equal.
  - rewrite <- !app_assoc.
    repeat match goal with
           | |- context [subclause argsDict ?k] =>
               destruct (subclause argsDict k); cbn [option_list app]
           end; reflexivity.
  - by rewrite <- !app_assoc, app_nil_r.
Qed.

(** The builder computes the specification's clause and the values of
    its sub-clauses, in the order of the keys. *)
Lemma build_refines argsDict :
  buildMovieWhereClauseAndParams argsDict
  = WhereClause (spec_clause argsDict) (spec_params argsDict).
Proof.
  unfold buildMovieWhereClauseAndParams. cbv zeta.
  rewrite blocks_spec. cbn [conditions sqlParams].
  unfold spec_clause, and_join.
  by destruct (omap (subclause argsDict) filter_keys).
Qed.


(** Each sub-clause holds one placeholder per value it binds. *)
Lemma subclause_placeholders argsDict (k : filter_key) :
  from_option placeholders O (subclause argsDict k)
  = length (subparams argsDict k).
Proof.
  unfold subclause, subparams.
  destruct (argsDict !! key_name k) as [v|]; [|reflexivity].
  destruct k; try (destruct v; reflexivity).
  - destruct v as [|c v]; [reflexivity|].
    destruct (tokens (c :: v)) as [|g gs] eqn:Ht; [reflexivity|].
    cbn [from_option]. unfold or_join.
    rewrite placeholders_paren, placeholders_join by reflexivity.
    rewrite length_fmap. generalize (g :: gs). clear.
    intros l. induction l as [|x l IH]; [reflexivity|].
    cbn [fmap list_fmap sum_list sum_list_with length] in *. rewrite IH.
    reflexivity.
  - destruct (str_eqb v (js "Movie")); [by destruct v|].
    destruct (str_eqb v (js "Series")); by destruct v.
Qed.

Lemma spec_placeholders argsDict :
  placeholders (spec_clause argsDict) = length (spec_params argsDict).
Proof.
  unfold spec_clause, spec_params.
  assert (H : sum_list (placeholders <$> omap (subclause argsDict) filter_keys)
              = length (filter_keys ≫= subparams argsDict)).
  { induction filter_keys as [|k ks IH]; [reflexivity|].
    cbn [omap list_omap mbind list_bind]. rewrite length_app.
    rewrite <- subclause_placeholders, <- IH.
    destruct (subclause argsDict k); reflexivity. }
  rewrite <- H.
  destruct (omap (subclause argsDict) filter_keys) as [|s subs] eqn:E;
    [reflexivity|].
  unfold and_join. by rewrite placeholders_join.
Qed.

(** The sort column and direction spliced into the data query are
    fixed words without placeholders. *)
Lemma dbSortBy_placeholders smap sortBy :
  placeholders (MovieApi.dbSortBy smap sortBy) = O.
Proof.
  unfold MovieApi.dbSortBy.
  set (col := MovieApi.or_default _ _).
  destruct (existsb (str_eqb col) MovieApi.validSortCols) eqn:E; [|reflexivity].
  apply existsb_exists in E as (x & Hx & Heq).
  unfold str_eqb in Heq. apply bool_decide_eq_true in Heq. subst x.
  unfold MovieApi.validSortCols in Hx. simpl in Hx.
  repeat destruct Hx as [<-|Hx]; try reflexivity. destruct Hx.
Qed.

Lemma dbSortOrder_placeholders toUpperCase sortOrder :
  placeholders (MovieApi.dbSortOrder toUpperCase sortOrder) = O.
Proof. unfold MovieApi.dbSortOrder. by destruct (str_eqb _ _). Qed.

(** C9. For every argument map, the clause of
    [buildMovieWhereClauseAndParams] holds exactly as many [?]
    placeholders as the builder returns values; hence the count query
    and the data query of the listing handler are each bound with
    exactly as many values as they hold placeholders. *)
Theorem placeholders_match_params
    (argsDict : gmap (list N) (list N)) toUpperCase smap sortBy sortOrder
    (limit startIndex : option Z) :
  let w := buildMovieWhereClauseAndParams argsDict in
  placeholders (clause w) = length (params w)
  /\ placeholders (MovieApi.countQuery (clause w)) = length (params w)
  /\ placeholders (MovieApi.dataQuery toUpperCase smap (clause w) sortBy sortOrder)
     = length (params w ++ [SqlNum limit; SqlNum startIndex]).
Proof.
  cbv zeta. rewrite build_refines. cbn [clause params].
  pose proof (spec_placeholders argsDict) as H.
  unfold MovieApi.countQuery, MovieApi.dataQuery.
  rewrite !placeholders_app, dbSortBy_placeholders, dbSortOrder_placeholders, H.
  rewrite length_app.
  change (placeholders (js "SELECT COUNT(id) as total FROM movies WHERE ")) with O.
  change (placeholders (js "SELECT * FROM movies WHERE ")) with O.
  change (placeholders (js " ORDER BY ")) with O.
  change (placeholders (js " ")) with O.
  change (placeholders (js " NULLS LAST LIMIT ? OFFSET ?")) with 2%nat.
  cbn [length]. lia.
Qed.


(** ** The shape of the clause *)

Lemma tokens_nil : tokens [] = [].
Proof. reflexivity. Qed.

Lemma fmap_constant {A B} (y : B) (l : list A) :
  (fun _ => y) <$> l = replicate (length l) y.
Proof.
  induction l as [|x l IH]; [reflexivity|].
  cbn [fmap list_fmap length replicate]. by rewrite <- IH.
Qed.

(** C2. Without any filter key the builder returns the always-true
    clause [1=1] and no values; in general the clause is the AND-join of
    the sub-clauses of the filter keys that contribute one, and the
    sub-clause of the [Genres] key is the parenthesised OR-join of one
    [genres LIKE ?] per comma-separated value. *)
Theorem where_clause_structure (argsDict : gmap (list N) (list N)) :
  ((forall k, argsDict !! key_name k = None) ->
   buildMovieWhereClauseAndParams argsDict = WhereClause (js "1=1") [])
  /\ clause (buildMovieWhereClauseAndParams argsDict)
     = match omap (subclause argsDict) filter_keys with
       | [] => js "1=1"
       | subs => join (js " AND ") subs
       end
  /\ (forall v, argsDict !! js "Genres" = Some v -> tokens v <> [] ->
      subclause argsDict Genres
      = Some (paren (join (js " OR ")
                          (replicate (length (tokens v)) (js "genres LIKE ?"))))).
Proof.
  rewrite build_refines. split; [|split].
  - intros Hnone. unfold spec_clause, spec_params.
    assert (Hs : forall k, subclause argsDict k = None)
      by (intros k; unfold subclause; by rewrite Hnone).
    assert (Hp : forall k, subparams argsDict k = [])
      by (intros k; unfold subparams; by rewrite Hnone).
    unfold filter_keys. cbn [omap list_omap mbind list_bind].
    by rewrite !Hs, !Hp.
  - reflexivity.
  - intros v Hv Ht. unfold subclause.
    change (key_name Genres) with (js "Genres"). rewrite Hv.
    destruct v as [|c v]; [by rewrite tokens_nil in Ht|].
    destruct (tokens (c :: v)) as [|g gs]; [done|].
    by rewrite fmap_constant.
Qed.

Lemma where_clause_structure_witness :
  ((forall k, no_filter_args !! key_name k = None)
   /\ buildMovieWhereClauseAndParams no_filter_args = WhereClause (js "1=1") [])
  /\ (genre_args !! js "Genres" = Some (js "Action, ,Drama")
      /\ tokens (js "Action, ,Drama") <> []
      /\ subclause genre_args Genres
         = Some (js "(genres LIKE ? OR genres LIKE ?)")).
Proof.
  assert (H : forall k, no_filter_args !! key_name k = None)
    by (intros k; destruct k; reflexivity).
  assert (Hg : genre_args !! js "Genres" = Some (js "Action, ,Drama"))
    by reflexivity.
  assert (Ht : tokens (js "Action, ,Drama") <> []) by (vm_compute; discriminate).
  split; [split; [exact H|]|split; [exact Hg|split; [exact Ht|]]].
  - exact (proj1 (where_clause_structure no_filter_args) H).
  - exact (proj2 (proj2 (where_clause_structure genre_args)) _ Hg Ht).
Defined.

(** ** Independence of the clause from the values *)

Lemma subclause_shape argsDict (k : filter_key) :
  subclause argsDict k = subclause_of_shape (shape_of argsDict) k.
Proof.
  unfold subclause, subclause_of_shape, shape_of, given_at.
  destruct k; cbn [given genre_count item_type fmap list_fmap lookup list_lookup default];
    try (destruct (argsDict !! key_name _) as [[|c v]|]; reflexivity).
  - destruct (argsDict !! key_name Genres) as [[|c v]|]; try reflexivity.
    destruct (tokens (c :: v)) as [|g gs]; [reflexivity|].
    by rewrite fmap_constant.
  - destruct (argsDict !! key_name IncludeItemTypes) as [v|]; [|reflexivity].
    destruct (str_eqb v (js "Movie")); [reflexivity|].
    by destruct (str_eqb v (js "Series")).
Qed.

Lemma assembled_fragment (s : list N) :
  s ∈ fragments -> assembled_from fragments s.
Proof.
  intros H. exists [s]. split; [by constructor|].
  simpl. by rewrite app_nil_r.
Qed.

Lemma assembled_app (s t : list N) :
  assembled_from fragments s -> assembled_from fragments t ->
  assembled_from fragments (s ++ t).
Proof.
  intros (fs & Hfs & ->) (ft & Hft & ->). exists (fs ++ ft). split.
  - by apply Forall_app.
  - by rewrite concat_app.
Qed.

Lemma assembled_join (sep : list N) (l : list (list N)) :
  l <> [] ->
  assembled_from fragments sep ->
  Forall (assembled_from fragments) l ->
  assembled_from fragments (join sep l).
Proof.
  intros Hne Hsep Hl. induction l as [|x [|y l] IH]; [done| |].
  - by inversion Hl.
  - change (join sep (x :: y :: l)) with (x ++ sep ++ join sep (y :: l)).
    inversion Hl; subst. repeat apply assembled_app; auto.
Qed.

Ltac in_fragments :=
  unfold fragments;
  solve [repeat first [apply list_elem_of_here | apply list_elem_of_further]].

Lemma assembled_or_join (l : list (list N)) :
  l <> [] -> Forall (fun s => s ∈ fragments) l ->
  assembled_from fragments (or_join l).
Proof.
  intros Hne Hl. unfold or_join, paren.
  repeat apply assembled_app.
  - apply assembled_fragment. in_fragments.
  - apply assembled_join; [done| |].
    + apply assembled_fragment. in_fragments.
    + eapply Forall_impl; [exact Hl|]. apply assembled_fragment.
  - apply assembled_fragment. in_fragments.
Qed.

Lemma subclause_assembled (s : shape) (k : filter_key) (c : list N) :
  subclause_of_shape s k = Some c -> assembled_from fragments c.
Proof.
  unfold subclause_of_shape. intros H.
  destruct k;
    repeat match type of H with
           | (if ?b then _ else _) = _ => destruct b
           | match ?x with _ => _ end = _ => destruct x
           end;
    try discriminate; injection H as <-;
    try (apply assembled_fragment; in_fragments);
    apply assembled_or_join; try done;
    try (unfold search_columns, person_columns;
         repeat (constructor; [in_fragments|]); by constructor).
  apply Forall_forall. intros x Hx.
  change (x ∈ replicate (S n) (js "genres LIKE ?")) in Hx.
  apply elem_of_replicate in Hx as [-> _]. in_fragments.
Qed.


Lemma spec_clause_shape argsDict :
  spec_clause argsDict
  = match omap (subclause_of_shape (shape_of argsDict)) filter_keys with
    | [] => js "1=1"
    | subs => and_join subs
    end.
Proof.
  unfold spec_clause.
  replace (omap (subclause argsDict) filter_keys)
    with (omap (subclause_of_shape (shape_of argsDict)) filter_keys);
    [reflexivity|].
  apply list_omap_ext. apply Forall2_same_length_lookup. split; [done|].
  intros i x y Hx Hy. rewrite Hx in Hy. injection Hy as <-.
  symmetry. apply subclause_shape.
Qed.

(** C6, as stated: equal sets of present filter keys and equal numbers
    of comma-separated genre tokens do not make the clauses equal. The
    value of [IncludeItemTypes] selects the fragment that is emitted. *)
Lemma clause_value_independence_fails :
  ~ (forall a1 a2 : gmap (list N) (list N),
       same_keys_present a1 a2 -> comma_tokens a1 = comma_tokens a2 ->
       clause (buildMovieWhereClauseAndParams a1)
       = clause (buildMovieWhereClauseAndParams a2)).
Proof.
  intros H. specialize (H movies_args series_args).
  assert (Hk : same_keys_present movies_args series_args).
  { intros k. destruct k; split; intros [x Hx]; vm_compute in Hx;
      try discriminate; eexists; reflexivity. }
  specialize (H Hk eq_refl). vm_compute in H. discriminate.
Qed.

(** C6, amended. The clause is assembled from fixed fragments only, and
    it is the same for two argument maps of the same shape: the same
    keys with a non-empty value, the same number of non-empty trimmed
    genre values, and the same selection by [IncludeItemTypes]. *)
Theorem clause_from_fixed_fragments (a1 a2 : gmap (list N) (list N)) :
  assembled_from fragments (clause (buildMovieWhereClauseAndParams a1))
  /\ (shape_of a1 = shape_of a2 ->
      clause (buildMovieWhereClauseAndParams a1)
      = clause (buildMovieWhereClauseAndParams a2)).
Proof.
  rewrite !build_refines. cbn [clause]. rewrite !spec_clause_shape. split.
  - destruct (omap _ filter_keys) as [|s subs] eqn:E.
    + apply assembled_fragment. in_fragments.
    + rewrite <- E. apply assembled_join.
      * by rewrite E.
      * apply assembled_fragment. in_fragments.
      * apply Forall_forall. intros x Hx.
        apply list_elem_of_omap in Hx as (k & _ & Hk).
        by eapply subclause_assembled.
  - by intros ->.
Qed.

Lemma clause_from_fixed_fragments_witness :
  shape_of search_args_1 = shape_of search_args_2
  /\ clause (buildMovieWhereClauseAndParams search_args_1)
     = clause (buildMovieWhereClauseAndParams search_args_2).
Proof.
  assert (H : shape_of search_args_1 = shape_of search_args_2)
    by (vm_compute; reflexivity).
  split; [exact H|].
  exact (proj2 (clause_from_fixed_fragments search_args_1 search_args_2) H).
Defined.

End BuilderFacts.

(** * Pagination metadata of the listing handler *)

Section ItemsFacts.

Import DbUtils MovieApi HandlerSpec.

Local Open Scope Z_scope.

(** [ceil_div n p] is the least [k] with [n <= p * k]. *)
Lemma ceil_div_spec (n p k : Z) :
  0 < p -> (p * (k - 1) < n <= p * k <-> k = ceil_div n p).
Proof.
  intros Hp. unfold ceil_div.
  pose proof (Z.div_mod (n + p - 1) p ltac:(lia)) as Hdm.
  pose proof (Z.mod_pos_bound (n + p - 1) p Hp) as Hb.
  split.
  - intros [H1 H2]. nia.
  - intros ->. nia.
Qed.

(** The quotient the handler computes is that ceiling. *)
Lemma ceil_quotient_ceil_div (n p : Z) :
  0 < p -> ceil_quotient n (Some p) = Int (ceil_div n p).
Proof.
  intros Hp. unfold ceil_quotient.
  destruct (p =? 0) eqn:E; [lia|]. f_equal.
  apply ceil_div_spec; [done|].
  pose proof (Z.div_mod (- n) p ltac:(lia)) as Hdm.
  pose proof (Z.mod_pos_bound (- n) p Hp) as Hb.
  nia.
Qed.

Lemma ceil_div_zero_iff (n p : Z) :
  0 < p -> 0 <= n -> (ceil_div n p = 0 <-> n = 0).
Proof.
  intros Hp Hn. split.
  - intros H. symmetry in H. apply ceil_div_spec in H; lia.
  - intros ->. symmetry. apply ceil_div_spec; lia.
Qed.

Lemma total_pages_value (fallback n p : Z) :
  0 < p -> 0 <= n ->
  TotalPages fallback n (Some p)
  = Int (if n =? 0 then fallback else ceil_div n p).
Proof.
  intros Hp Hn. unfold TotalPages. rewrite ceil_quotient_ceil_div by done.
  cbn [or_number].
  pose proof (ceil_div_zero_iff n p Hp Hn) as Hz.
  destruct (ceil_div n p =? 0) eqn:E1, (n =? 0) eqn:E2; try reflexivity; lia.
Qed.

(** C3, as stated: the handler of movieApi.ts does not report
    [ceil(N/P)] pages for an empty result. *)
Lemma total_pages_of_empty_listing :
  ~ (forall (toUpperCase : list N -> list N)
            (DB_first_total : list N -> list sqlval -> completion (option Z))
            (DB_all : list N -> list sqlval -> completion (list movie_row))
            (query : gmap (list N) (list N)) (P N : Z),
       parseInt (or_default (query !! js "Limit") "100") = Some P -> 0 < P ->
       DB_first_total
         (countQuery (clause (buildMovieWhereClauseAndParams query)))
         (params (buildMovieWhereClauseAndParams query))
       = Normal (Some N) -> 0 <= N ->
       (forall sql binds, exists rows, DB_all sql binds = Normal rows) ->
       response_field "TotalPages"
         (get_items_current toUpperCase DB_first_total DB_all query)
       = Some (JNum (ceil_div N P))).
Proof.
  intros H.
  specialize (H (fun s => s) (counting 0) no_rows ∅ 100 0).
  assert (Hf : response_field "TotalPages"
                 (get_items_current (fun s => s) (counting 0) no_rows ∅)
               = Some (JNum 1)) by (vm_compute; reflexivity).
  rewrite Hf in H.
  assert (Hc : ceil_div 0 100 = 0) by reflexivity.
  rewrite Hc in H.
  assert (Some (JNum 1) = Some (JNum 0)); [|discriminate].
  apply H; try done; try lia.
  intros. by eexists.
Qed.

(** C3, amended. With a page size [P > 0] and [N >= 0] matching
    records, the [TotalPages] field is [ceil(N/P)] whenever [N > 0]; for
    [N = 0] the handler of movieApi.ts reports one page ([|| 1]), the
    unnamed variants report [0 = ceil(0/P)]. *)
Theorem total_pages_field
    (toUpperCase : list N -> list N)
    (DB_first_total : list N -> list sqlval -> completion (option Z))
    (DB_all : list N -> list sqlval -> completion (list movie_row))
    (query : gmap (list N) (list N)) (P N : Z) :
  parseInt (or_default (query !! js "Limit") "100") = Some P -> 0 < P ->
  DB_first_total
    (countQuery (clause (buildMovieWhereClauseAndParams query)))
    (params (buildMovieWhereClauseAndParams query))
  = Normal (Some N) -> 0 <= N ->
  (forall sql binds, exists rows, DB_all sql binds = Normal rows) ->
  response_field "TotalPages"
    (get_items_current toUpperCase DB_first_total DB_all query)
  = Some (JNum (if N =? 0 then 1 else ceil_div N P))
  /\ response_field "TotalPages"
       (get_items_variant toUpperCase DB_first_total DB_all query)
     = Some (JNum (ceil_div N P)).
Proof.
  intros HP Hpos Hcount HN Hrows.
  unfold get_items_current, get_items_variant, get_items.
  rewrite HP, !Hcount. cbn [default from_option]. unfold Datatypes.id.
  split.
  - destruct (Hrows (dataQuery toUpperCase sortMap
                       (clause (buildMovieWhereClauseAndParams query))
                       (or_default (query !! js "SortBy") "PremiereDate")
                       (or_default (query !! js "SortOrder") "Descending"))
                    (params (buildMovieWhereClauseAndParams query)
                     ++ [SqlNum (Some P);
                         SqlNum (parseInt (or_default (query !! js "StartIndex") "0"))]))
      as [rows ->].
    rewrite total_pages_value by done. reflexivity.
  - destruct (Hrows (dataQuery toUpperCase sortMap_variant
                       (clause (buildMovieWhereClauseAndParams query))
                       (or_default (query !! js "SortBy") "PremiereDate")
                       (or_default (query !! js "SortOrder") "Descending"))
                    (params (buildMovieWhereClauseAndParams query)
                     ++ [SqlNum (Some P);
                         SqlNum (parseInt (or_default (query !! js "StartIndex") "0"))]))
      as [rows ->].
    rewrite total_pages_value by done.
    destruct (N =? 0) eqn:E; [|reflexivity].
    assert (N = 0) as -> by lia.
    by rewrite (proj2 (ceil_div_zero_iff 0 P Hpos HN) eq_refl).
Qed.

Lemma total_pages_field_witness :
  response_field "TotalPages"
    (get_items_current (fun s => s) (counting 250) no_rows
       {[ js "Limit" := js "100" ]})
  = Some (JNum 3)
  /\ response_field "TotalPages"
       (get_items_variant (fun s => s) (counting 250) no_rows
          {[ js "Limit" := js "100" ]})
     = Some (JNum 3).
Proof.
  apply (total_pages_field (fun s => s) (counting 250) no_rows
           {[ js "Limit" := js "100" ]} 100 250).
  - reflexivity.
  - lia.
  - reflexivity.
  - lia.
  - intros sql binds. exists []. reflexivity.
Defined.

End ItemsFacts.

(** * The session gate *)

Section AuthFacts.

Import Auth HandlerSpec.

Variable verify : list N -> list N -> completion JwtPayload.
Variable secret : list N.

Lemma allow_list_by_prefix (path : list N) :
  existsb (fun allowedPath => startsWith path allowedPath) allowedPaths
  = startsWith path (js "/login") || startsWith path (js "/static/")
    || startsWith path (js "/favicon.ico").
Proof.
  unfold allowedPaths, LOGIN_PATH. cbn [existsb].
  destruct (startsWith path (js "/login")), (startsWith path (js "/static/")),
    (startsWith path (js "/favicon.ico")); reflexivity.
Qed.

(** C8. A request outside the allow-list without a valid session cookie
    (none, or one that fails verification) gets a 401 JSON error when
    its path starts with [/api/] or [/api_movies/], and a redirect to
    [/login] otherwise; with a valid session it is passed on to the
    routed handler. *)
Theorem gate_rejects_or_passes (path : list N) (cookie : option (list N)) :
  existsb (fun allowedPath => startsWith path allowedPath) allowedPaths = false ->
  (session_valid verify secret cookie = false ->
   exists cookieDeleted,
     if is_api_path path
     then exists message,
            requireLogin verify secret path cookie
            = Respond cookieDeleted (unauthorized message)
     else requireLogin verify secret path cookie
          = Respond cookieDeleted (RRedirect 307 (js "/login")))
  /\ (session_valid verify secret cookie = true ->
      exists payload, requireLogin verify secret path cookie = Next (Some payload)).
Proof.
  intros Hpub. unfold requireLogin, session_valid, verifyJwt. rewrite Hpub.
  split.
  - intros Hinvalid.
    destruct cookie as [[|c t]|].
    + exists false. destruct (is_api_path path); eauto.
    + destruct (verify (c :: t) secret) as [payload|m].
      * rewrite Hinvalid. exists true. destruct (is_api_path path); eauto.
      * exists true. destruct (is_api_path path); eauto.
    + exists false. destruct (is_api_path path); eauto.
  - intros Hvalid.
    destruct cookie as [[|c t]|]; try discriminate.
    destruct (verify (c :: t) secret) as [payload|m]; [|discriminate].
    rewrite Hvalid. eauto.
Qed.

(** C10. The allow-list is matched by prefix: a request whose path
    begins with [/login], [/static/] or [/favicon.ico] is handed to the
    next handler without any look at the session cookie. *)
Theorem gate_allows_by_prefix (path : list N) (cookie : option (list N)) :
  startsWith path (js "/login") = true
  \/ startsWith path (js "/static/") = true
  \/ startsWith path (js "/favicon.ico") = true ->
  requireLogin verify secret path cookie = Next None.
Proof.
  intros H. unfold requireLogin. rewrite allow_list_by_prefix.
  destruct H as [-> | [-> | ->]]; rewrite ?orb_true_r; reflexivity.
Qed.

End AuthFacts.

Lemma gate_rejects_or_passes_witness :
  (exists cookieDeleted message,
     Auth.requireLogin HandlerSpec.verify_same (js "k") (js "/api_movies/items") None
     = Auth.Respond cookieDeleted (Auth.unauthorized message))
  /\ (exists cookieDeleted,
        Auth.requireLogin HandlerSpec.verify_same (js "k") (js "/movies_home")
          (Some (js "forged"))
        = Auth.Respond cookieDeleted (RRedirect 307 (js "/login")))
  /\ (exists payload,
        Auth.requireLogin HandlerSpec.verify_same (js "k") (js "/movies_home")
          (Some (js "k"))
        = Auth.Next (Some payload)).
Proof.
  split; [|split].
  - destruct (proj1 (gate_rejects_or_passes HandlerSpec.verify_same (js "k")
                       (js "/api_movies/items") None eq_refl) eq_refl)
      as [d Hd].
    exists d. exact Hd.
  - exact (proj1 (gate_rejects_or_passes HandlerSpec.verify_same (js "k")
                    (js "/movies_home") (Some (js "forged")) eq_refl) eq_refl).
  - exact (proj2 (gate_rejects_or_passes HandlerSpec.verify_same (js "k")
                    (js "/movies_home") (Some (js "k")) eq_refl) eq_refl).
Defined.

Lemma gate_allows_by_prefix_witness :
  Auth.requireLogin HandlerSpec.verify_same (js "k") (js "/loginXYZ") None
  = Auth.Next None
  /\ Auth.requireLogin HandlerSpec.verify_same (js "k") (js "/login/anything")
       (Some (js "forged"))
     = Auth.Next None.
Proof.
  split.
  - apply (gate_allows_by_prefix HandlerSpec.verify_same (js "k")).
    left. reflexivity.
  - apply (gate_allows_by_prefix HandlerSpec.verify_same (js "k")).
    left. reflexivity.
Defined.

(** * Creating a collection *)

Section CollectionFacts.

Import MovieApi.

Local Open Scope Z_scope.

Lemma next_id_above (table : list collection) :
  Forall (fun c => collection_id c < next_id table) table /\ 0 < next_id table.
Proof.
  unfold next_id. induction table as [|c table [IH1 IH2]].
  - split; [constructor|]. simpl. lia.
  - cbn [fmap list_fmap foldr]. split; [|lia].
    constructor; [lia|].
    eapply Forall_impl; [exact IH1|]. cbn beta. intros x Hx. lia.
Qed.

Lemma next_id_fresh (table : list collection) :
  next_id table ∉ collection_id <$> table.
Proof.
  intros Hin. apply list_elem_of_fmap in Hin as (c & Heq & Hc).
  destruct (next_id_above table) as [Hall _].
  rewrite Forall_forall in Hall. specialize (Hall c Hc). lia.
Qed.

Lemma unique_violation_recognised :
  includes unique_violation (js "UNIQUE constraint failed") = true.
Proof. vm_compute. reflexivity. Qed.

(** C7, as stated: a name that is not a string is neither missing nor
    present in the table, yet the request is not answered 201.
    [payload.name?.trim()] stands before the [try], and the exception
    leaves the handler. *)
Lemma create_collection_number_name :
  post_movie_collections [] (Normal (JObj [(js "name", JNum 5)]))
  = (Throw (js "payload.name?.trim is not a function"), []).
Proof. reflexivity. Qed.

(** C7. Where the handler is registered (the variant part_001; in
    movieApi.ts the collection routes are inside a block comment and no
    POST route matches), a body that is a JSON object is answered as
    follows. A name that is missing, [null], or a string that is empty
    once trimmed: 400, the table unchanged. A string whose trimmed text
    is in the table: 409 with the error [Collection name already
    exists], the table unchanged. Any other string: inserted under a
    fresh id and answered 201 with the id and the trimmed name. A name
    of any other kind raises an exception before the [try], as do the
    body [null] and a body that is not JSON; nothing is inserted. A body
    that is a string, a number, a boolean or a list has no name and is
    answered 400. *)
Theorem create_collection_outcomes
    (table : list collection) (fields : list (list N * json)) :
  ((property (js "name") fields = None
    \/ property (js "name") fields = Some JNull
    \/ exists raw, property (js "name") fields = Some (JStr raw) /\ trim raw = []) ->
   post_movie_collections table (Normal (JObj fields))
   = (Normal (RJson 400 (JObj [(js "error", JStr (js "Name required"))])), table))
  /\ (forall raw, property (js "name") fields = Some (JStr raw) -> trim raw <> [] ->
      trim raw ∈ collection_name <$> table ->
      post_movie_collections table (Normal (JObj fields))
      = (Normal (RJson 409
                   (JObj [(js "error", JStr (js "Collection name already exists"))])),
         table))
  /\ (forall raw, property (js "name") fields = Some (JStr raw) -> trim raw <> [] ->
      trim raw ∉ collection_name <$> table ->
      post_movie_collections table (Normal (JObj fields))
      = (Normal (RJson 201 (JObj [(js "id", JNum (next_id table));
                                  (js "name", JStr (trim raw))])),
         table ++ [{| collection_id := next_id table;
                      collection_name := trim raw |}])
      /\ next_id table ∉ collection_id <$> table)
  /\ (forall v, property (js "name") fields = Some v ->
      v <> JNull -> (forall raw, v <> JStr raw) ->
      exists m, post_movie_collections table (Normal (JObj fields)) = (Throw m, table))
  /\ (exists m, post_movie_collections table (Normal JNull) = (Throw m, table))
  /\ (forall m, post_movie_collections table (Throw m) = (Throw m, table))
  /\ (forall payload, payload <> JNull -> (forall fields', payload <> JObj fields') ->
      post_movie_collections table (Normal payload)
      = (Normal (RJson 400 (JObj [(js "error", JStr (js "Name required"))])), table))
  /\ (Router.dispatch Router.post_routes_variant (js "/movie_collections")
      = Some (Router.PostMovieCollections, None)
      /\ Router.dispatch Router.post_routes (js "/movie_collections") = None).
Proof.
  unfold post_movie_collections, collectionName_of.
  split; [|split; [|split; [|split; [|split; [|split; [|split]]]]]].
  - intros [-> | [-> | (raw & -> & Hraw)]]; [reflexivity|reflexivity|].
    by rewrite Hraw.
  - intros raw -> Hne Hin.
    destruct (trim raw) as [|c n] eqn:Ht; [done|].
    unfold insert_returning_id. rewrite bool_decide_eq_true_2 by done.
    cbn [try_catch]. by rewrite unique_violation_recognised.
  - intros raw -> Hne Hnotin.
    split; [|apply next_id_fresh].
    destruct (trim raw) as [|c n] eqn:Ht; [done|].
    unfold insert_returning_id. rewrite bool_decide_eq_false_2 by done.
    cbn [try_catch].
    destruct (next_id_above table) as [_ Hpos].
    destruct (next_id table =? 0) eqn:E; [lia|]. reflexivity.
  - intros v -> Hnull Hstr.
    destruct v as [|b|z|s|items|fields']; eauto; [done|by destruct (Hstr s)].
  - eauto.
  - reflexivity.
  - intros payload Hnull Hobj.
    destruct payload as [|b|z|s|items|fields']; try reflexivity; [done|].
    by destruct (Hobj fields').
  - split; vm_compute; reflexivity.
Qed.

Lemma create_collection_outcomes_witness :
  post_movie_collections [] (Normal (JObj [(js "name", JStr (js "   "))]))
  = (Normal (RJson 400 (JObj [(js "error", JStr (js "Name required"))])), [])
  /\ post_movie_collections
       [{| collection_id := 1; collection_name := js "Favorites" |}]
       (Normal (JObj [(js "name", JStr (js " Favorites "))]))
     = (Normal (RJson 409
                  (JObj [(js "error", JStr (js "Collection name already exists"))])),
        [{| collection_id := 1; collection_name := js "Favorites" |}])
  /\ post_movie_collections [] (Normal (JObj [(js "name", JStr (js " Favorites "))]))
     = (Normal (RJson 201 (JObj [(js "id", JNum 1); (js "name", JStr (js "Favorites"))])),
        [{| collection_id := 1; collection_name := js "Favorites" |}]).
Proof.
  split; [|split].
  - apply (proj1 (create_collection_outcomes [] [(js "name", JStr (js "   "))])).
    right. right. exists (js "   "). split; reflexivity.
  - apply (proj1 (proj2 (create_collection_outcomes
                           [{| collection_id := 1; collection_name := js "Favorites" |}]
                           [(js "name", JStr (js " Favorites "))]))
             (js " Favorites ")).
    + reflexivity.
    + vm_compute. discriminate.
    + vm_compute. apply list_elem_of_here.
  - apply (proj1 (proj2 (proj2 (create_collection_outcomes []
                                  [(js "name", JStr (js " Favorites "))])))
             (js " Favorites ")).
    + reflexivity.
    + vm_compute. discriminate.
    + vm_compute. apply not_elem_of_nil.
Defined.

End CollectionFacts.

(** * Related-items blending *)

Section RelatedFacts.

Import MovieApi HandlerSpec.

Implicit Types (acc cands new : list movie) (seen : gset (option Z)).

Lemma filter_weaken_sublist {A} (P Q : A -> Prop)
    `{!forall x, Decision (P x)} `{!forall x, Decision (Q x)} (l : list A) :
  (forall x, P x -> Q x) -> filter P l `sublist_of` filter Q l.
Proof.
  intros HPQ. induction l as [|x l IH]; [constructor|].
  destruct (decide (P x)) as [HP|HP].
  - rewrite (filter_cons_True P) by done.
    rewrite (filter_cons_True Q) by auto. by constructor.
  - rewrite (filter_cons_False P) by done.
    destruct (decide (Q x)).
    + rewrite (filter_cons_True Q) by done. by constructor.
    + by rewrite (filter_cons_False Q).
Qed.

Lemma filter_tail_sublist {A} (P : A -> Prop) `{!forall x, Decision (P x)}
    (x : A) (l : list A) :
  filter P l `sublist_of` filter P (x :: l).
Proof.
  destruct (decide (P x)).
  - rewrite (filter_cons_True P) by done. by constructor.
  - by rewrite (filter_cons_False P).
Qed.

(** The loop appends to the list it starts from a sub-list of the
    candidates whose identifier was not seen, and stops at the cap. *)
Lemma pick_loop (cap : Z) cands acc seen :
  exists new,
    (pick_genre_random (Some cap) cands acc seen).1 = acc ++ new
    /\ new `sublist_of` filter (fun m => Id m ∉ seen) cands
    /\ ((Z.of_nat (length acc) <= cap)%Z ->
        (Z.of_nat (length (acc ++ new)) <= cap)%Z).
Proof.
  revert acc seen. induction cands as [|m rest IH]; intros acc seen.
  - exists []. rewrite app_nil_r. split; [reflexivity|]. split; [constructor|done].
  - cbn [pick_genre_random]. unfold reached.
    destruct (cap <=? Z.of_nat (length acc))%Z eqn:Hcap.
    + exists []. rewrite app_nil_r. split; [reflexivity|].
      split; [apply sublist_nil_l|done].
    + destruct (id_truthy (Id m) && negb (bool_decide (Id m ∈ seen))) eqn:Hpick.
      * apply andb_true_iff in Hpick as [_ Hnew].
        apply negb_true_iff, bool_decide_eq_false in Hnew.
        destruct (IH (acc ++ [m]) ({[Id m]} ∪ seen)) as (new & Heq & Hsub & Hlen).
        exists (m :: new). rewrite Heq, <- app_assoc. split; [reflexivity|]. split.
        -- rewrite filter_cons_True by done. constructor.
           etrans; [exact Hsub|]. apply filter_weaken_sublist. set_solver.
        -- intros _. rewrite <- app_assoc in Hlen. apply Hlen.
           rewrite length_app. cbn [length]. lia.
      * destruct (IH acc seen) as (new & Heq & Hsub & Hlen).
        exists new. split; [exact Heq|]. split; [|exact Hlen].
        etrans; [exact Hsub|]. apply filter_tail_sublist.
Qed.


(** The handler body taken alone: in the list it builds, the
    identifiers of the ranked prefix and of the appended genre-random
    suffix are disjoint; the suffix is no longer than
    [NUM_RANDOM_GENRE_PICKS] (a cap that is not positive, or [NaN],
    leaves it empty) and no longer than the number of fetched candidates
    whose identifier is not in the prefix. *)
Theorem related_blend_invariant
    (NUM_RANDOM_GENRE_PICKS : option Z) (primaryRows candidateRows : list movie_row) :
  let '(prefix, suffix) :=
    blend_related NUM_RANDOM_GENRE_PICKS primaryRows candidateRows in
  ids prefix ## ids suffix
  /\ match NUM_RANDOM_GENRE_PICKS with
     | Some cap => (Z.of_nat (length suffix) <= Z.max 0 cap)%Z
     | None => suffix = []
     end
  /\ (length suffix
      <= length (filter (fun m => Id m ∉ ids prefix) (mapped candidateRows)))%nat.
Proof.
  unfold blend_related. cbv zeta.
  set (prefix := mapped primaryRows).
  set (seen := list_to_set (Id <$> prefix) : gset (option Z)).
  destruct NUM_RANDOM_GENRE_PICKS as [cap|]; cbn [positive].
  - destruct (0 <? cap)%Z eqn:Hcap.
    + destruct (pick_loop cap (mapped candidateRows) [] seen)
        as (new & -> & Hsub & Hlen).
      cbn [app] in *.
      assert (Hfilter : filter (fun m => Id m ∉ seen) (mapped candidateRows)
                        = filter (fun m => Id m ∉ ids prefix) (mapped candidateRows)).
      { apply list_filter_iff. intros m. unfold seen, ids.
        by rewrite elem_of_list_to_set. }
      rewrite Hfilter in Hsub.
      split; [|split].
      * intros i Hp Hs. unfold ids in Hs.
        apply list_elem_of_fmap in Hs as (m & -> & Hm).
        eapply elem_of_sublist in Hm; [|exact Hsub].
        apply list_elem_of_filter in Hm as [Hm _]. by apply Hm.
      * cbn [length] in Hlen. lia.
      * by apply sublist_length.
    + split; [|split].
      * intros i _ Hs. by apply elem_of_nil in Hs.
      * cbn [length]. lia.
      * cbn [length]. lia.
  - split; [|split].
    + intros i _ Hs. by apply elem_of_nil in Hs.
    + reflexivity.
    + cbn [length]. lia.
Qed.

(** The body of the answer is the prefix followed by the suffix. *)
Lemma related_answer (picks : option Z) (src : movie_row)
    (primaryRows candidateRows : list movie_row) :
  id_truthy (id src) = true ->
  get_precomputed_related picks (Some src) primaryRows candidateRows
  = RJson 200
      (JArr (movie_json
               <$> ((blend_related picks primaryRows candidateRows).1
                    ++ (blend_related picks primaryRows candidateRows).2))).
Proof.
  intros Hsrc. unfold get_precomputed_related. rewrite Hsrc.
  by destruct (blend_related picks primaryRows candidateRows).
Qed.

End RelatedFacts.


(** * The related-items endpoint as the application serves it *)

Section RelatedRouteFacts.

Import MovieApi MovieStore Router.





End RelatedRouteFacts.


(** * Image key resolution and the redirect guard *)

Section ImageFacts.

Import DbUtils R2Utils MovieApi HandlerSpec.

Local Open Scope Z_scope.

(** A numeric request whose record carries the very same string as
    external identifier is served from the bucket, without redirect. *)
Lemma image_served_when_equal (e : Env) (t : image_type) (s : list N) (n : Z) :
  parseInt s = Some n ->
  DB_MOVIES e !! n = Some (Some s) ->
  serveMovieImage e t s
  = serveFileFromR2 (MOVIES_ASSETS_BUCKET e) (image_key e t s) default_cache.
Proof.
  intros Hn Hrow. unfold serveMovieImage, resolve_image_id.
  rewrite Hn, Hrow.
  destruct s as [|c u]; [discriminate|].
  unfold str_eqb. by rewrite bool_decide_eq_true_2.
Qed.

(** A numeric request whose record carries a different, non-empty
    external identifier is answered with one 301 redirect to the same
    endpoint under that identifier. *)
Lemma image_redirect_when_different
    (e : Env) (t : image_type) (s u : list N) (n : Z) :
  parseInt s = Some n ->
  DB_MOVIES e !! n = Some (Some u) ->
  u <> [] -> u <> s ->
  serveMovieImage e t s = RRedirect 301 (image_url t u).
Proof.
  intros Hn Hrow Hne Hdiff. unfold serveMovieImage, resolve_image_id.
  rewrite Hn, Hrow.
  destruct u as [|c u]; [done|].
  unfold str_eqb. by rewrite bool_decide_eq_false_2.
Qed.

(** An identifier that does not start like a number is served from the
    bucket at once. *)
Lemma image_served_when_not_numeric (e : Env) (t : image_type) (u : list N) :
  parseInt u = None ->
  serveMovieImage e t u
  = serveFileFromR2 (MOVIES_ASSETS_BUCKET e) (image_key e t u) default_cache.
Proof.
  intros Hn. unfold serveMovieImage, resolve_image_id. by rewrite Hn.
Qed.

Lemma served_is_no_redirect bucket key cache :
  is_redirect (serveFileFromR2 bucket key cache) = false.
Proof. unfold serveFileFromR2. by destruct (bucket !! key). Qed.

Lemma route_image_url (t : image_type) (u : list N) :
  u <> [] -> route_image (image_url t u) = Some (t, u).
Proof.
  intros Hu. destruct u as [|c u]; [done|]. by destruct t.
Qed.

(** With an external identifier that does not start like a number, the
    chain of a numeric request is one redirect followed by the stored
    object (or the 404 of a missing object). *)
Lemma chain_of_plain_identifier
    (e : Env) (t : image_type) (s u : list N) (n : Z) (fuel : nat) :
  parseInt s = Some n ->
  DB_MOVIES e !! n = Some (Some u) ->
  u <> [] -> u <> s -> s <> [] ->
  parseInt u = None ->
  request_chain (S (S fuel)) e (image_url t s)
  = [RRedirect 301 (image_url t u);
     serveFileFromR2 (MOVIES_ASSETS_BUCKET e) (image_key e t u) default_cache].
Proof.
  intros Hn Hrow Hne Hdiff Hs Hu.
  cbn [request_chain]. rewrite route_image_url by done.
  rewrite (image_redirect_when_different e t s u n) by done.
  rewrite route_image_url by done.
  rewrite image_served_when_not_numeric by done.
  pose proof (served_is_no_redirect (MOVIES_ASSETS_BUCKET e) (image_key e t u)
                default_cache) as Hnr.
  destruct (serveFileFromR2 _ _ _); try reflexivity. discriminate.
Qed.

Example chain_of_plain_identifier_example :
  request_chain 5 plain_env (js "/api_movies/images/poster/7")
  = [RRedirect 301 (js "/api_movies/images/poster/ABC-123");
     RBody (js "image/avif") 3 (js "etag") default_cache [1%N; 2%N; 3%N]].
Proof. vm_compute. reflexivity. Qed.

(** C1 at two failing inputs. The handler reads every identifier that
    starts with digits as a numeric id, also the external identifier a
    redirect leads to. First, a record [1] with the external identifier
    [300MAAN-123]: the redirected request looks up id [300] and answers
    404, although the poster is stored under the key of that
    identifier. Second, two records whose external identifiers are each
    other's numeric ids: the request for poster [1] is redirected to
    poster [2] and back, so that however many redirects the client
    follows, every answer is a 301 and no object is served. *)
Theorem redirected_request_not_served (fuel : nat) :
  (request_chain (S (S fuel)) digits_env (js "/api_movies/images/poster/1")
   = [RRedirect 301 (js "/api_movies/images/poster/300MAAN-123");
      RText 404 (js "poster not found for ID 300MAAN-123")]
   /\ is_Some (MOVIES_ASSETS_BUCKET digits_env
                !! image_key digits_env poster (js "300MAAN-123")))
  /\ serveMovieImage crossed_env poster (js "1")
     = RRedirect 301 (js "/api_movies/images/poster/2")
  /\ serveMovieImage crossed_env poster (js "2")
     = RRedirect 301 (js "/api_movies/images/poster/1")
  /\ length (request_chain fuel crossed_env (js "/api_movies/images/poster/1")) = fuel
  /\ Forall (fun r => is_redirect r = true)
       (request_chain fuel crossed_env (js "/api_movies/images/poster/1")).
Proof.
  split.
  { split; [vm_compute; reflexivity|]. vm_compute. eauto. }
  split; [vm_compute; reflexivity|]. split; [vm_compute; reflexivity|].
  assert (H1 : forall k, request_chain (S k) crossed_env (js "/api_movies/images/poster/1")
               = RRedirect 301 (js "/api_movies/images/poster/2")
                 :: request_chain k crossed_env (js "/api_movies/images/poster/2"))
    by (intros k; reflexivity).
  assert (H2 : forall k, request_chain (S k) crossed_env (js "/api_movies/images/poster/2")
               = RRedirect 301 (js "/api_movies/images/poster/1")
                 :: request_chain k crossed_env (js "/api_movies/images/poster/1"))
    by (intros k; reflexivity).
  assert (H : forall k,
             (length (request_chain k crossed_env (js "/api_movies/images/poster/1")) = k
              /\ Forall (fun r => is_redirect r = true)
                   (request_chain k crossed_env (js "/api_movies/images/poster/1")))
             /\ (length (request_chain k crossed_env (js "/api_movies/images/poster/2")) = k
                 /\ Forall (fun r => is_redirect r = true)
                      (request_chain k crossed_env (js "/api_movies/images/poster/2")))).
  { induction k as [|k [[IH1 IH1'] [IH2 IH2']]].
    - repeat split; constructor.
    - rewrite H1, H2. cbn [length]. rewrite IH1, IH2.
      repeat split; constructor; done. }
  apply H.
Qed.

End ImageFacts.

(** * The JSON codec round trip *)

Section CodecFacts.

Import Decimal JsonCodec.

Lemma hex_escape_value (c : N) :
  c < 32 -> hex4 48 48 (hex_digit (c / 16)) (hex_digit (c mod 16)) = Some c.
Proof.
  intros Hc.
  assert (H : c = 0 \/ c = 1 \/ c = 2 \/ c = 3 \/ c = 4 \/ c = 5 \/ c = 6 \/ c = 7
              \/ c = 8 \/ c = 9 \/ c = 10 \/ c = 11 \/ c = 12 \/ c = 13 \/ c = 14
              \/ c = 15 \/ c = 16 \/ c = 17 \/ c = 18 \/ c = 19 \/ c = 20 \/ c = 21
              \/ c = 22 \/ c = 23 \/ c = 24 \/ c = 25 \/ c = 26 \/ c = 27 \/ c = 28
              \/ c = 29 \/ c = 30 \/ c = 31) by lia.
  repeat destruct H as [->|H]; try subst c; reflexivity.
Qed.

Ltac eqb_case c k :=
  let E := fresh "E" in
  destruct (N.eqb c k) eqn:E;
  [apply N.eqb_eq in E; subst c; reflexivity | apply N.eqb_neq in E].

(** One escaped code unit is read back as that code unit. *)
Lemma parse_escape_unit (c : N) (t : list N) :
  parse_string_body (escape_unit c ++ t) = consing c (parse_string_body t).
Proof.
  unfold escape_unit.
  eqb_case c 34. eqb_case c 92. eqb_case c 8. eqb_case c 9. eqb_case c 10.
  eqb_case c 12. eqb_case c 13.
  destruct (c <? 32) eqn:Hlt.
  - apply N.ltb_lt in Hlt.
    change (parse_string_body
              ([92; 117; 48; 48; hex_digit (c / 16); hex_digit (c mod 16)] ++ t))
      with (match hex4 48 48 (hex_digit (c / 16)) (hex_digit (c mod 16)) with
            | Some n => consing n (parse_string_body t)
            | None => None
            end).
    by rewrite hex_escape_value.
  - change (parse_string_body ([c] ++ t))
      with (if c =? 34 then Some ([], t)
            else if c =? 92 then
              match t with
              | [] => None
              | e :: r1 =>
                  if e =? 117 then
                    match r1 with
                    | h1 :: h2 :: h3 :: h4 :: r2 =>
                        match hex4 h1 h2 h3 h4 with
                        | Some n => consing n (parse_string_body r2)
                        | None => None
                        end
                    | _ => None
                    end
                  else
                    match unescape e with
                    | Some n => consing n (parse_string_body r1)
                    | None => None
                    end
              end
            else if c <? 32 then None
            else consing c (parse_string_body t)).
    destruct (c =? 34) eqn:E34; [apply N.eqb_eq in E34; done|].
    destruct (c =? 92) eqn:E92; [apply N.eqb_eq in E92; done|].
    by rewrite Hlt.
Qed.

(** A quoted string is read back up to its closing quote. *)
Lemma parse_quoted (s rest : list N) :
  parse_string_body (concat (map escape_unit s) ++ dquote :: rest) = Some (s, rest).
Proof.
  induction s as [|c s IH]; [reflexivity|].
  cbn [map concat]. rewrite <- app_assoc, parse_escape_unit, IH. reflexivity.
Qed.

(** Digits *)

Lemma read_digits_units (u : uint) (rest : list N) :
  no_digit rest -> read_digits (uint_units u ++ rest) = (u, rest).
Proof.
  intros Hrest. induction u; try (simpl; by rewrite IHu).
  destruct rest as [|c r]; [reflexivity|].
  change (read_digits (uint_units Nil ++ c :: r))
    with (match digit_of c with
          | Some d => let '(u, r') := read_digits r in (d u, r')
          | None => (Nil, c :: r)
          end).
  cbn [no_digit] in Hrest. by rewrite Hrest.
Qed.

Lemma to_uint_normal (n : N) : unorm (N.to_uint n) = N.to_uint n.
Proof.
  rewrite <- (DecimalN.Unsigned.to_of (N.to_uint n)).
  by rewrite DecimalN.Unsigned.of_to.
Qed.

Lemma uint_beq_refl (u : uint) : uint_beq u u = true.
Proof. induction u; cbn; auto. Qed.


Lemma to_uint_not_nil (n : N) : N.to_uint n <> Nil.
Proof. rewrite <- to_uint_normal. apply DecimalFacts.unorm_nonnil. Qed.

Lemma split_sign_units (u : uint) (rest : list N) :
  u <> Nil -> split_sign (uint_units u ++ rest) = (false, uint_units u ++ rest).
Proof. intros Hu. by destruct u. Qed.

Lemma delimited_no_digit (rest : list N) : delimited rest -> no_digit rest.
Proof.
  destruct rest as [|c r]; [done|]. cbn [delimited no_digit].
  intros [-> | [-> | ->]]; reflexivity.
Qed.

Lemma delimited_no_fraction (rest : list N) :
  delimited rest -> starts_fraction rest = false.
Proof.
  destruct rest as [|c r]; [done|]. cbn [delimited].
  intros [-> | [-> | ->]]; reflexivity.
Qed.

Lemma parse_unsigned (n : N) (rest : list N) (negative : bool) :
  delimited rest ->
  (let '(u, r) := read_digits (uint_units (N.to_uint n) ++ rest) in
   if uint_beq u Nil then None
   else if uint_beq (unorm u) u && negb (starts_fraction r)
   then Some (JNum (if negative then - Z.of_N (N.of_uint u)
                    else Z.of_N (N.of_uint u))%Z, r)
   else None)
  = Some (JNum (if negative then - Z.of_N n else Z.of_N n)%Z, rest).
Proof.
  intros Hrest.
  rewrite read_digits_units by by apply delimited_no_digit.
  destruct (uint_beq (N.to_uint n) Nil) eqn:E.
  { apply internal_uint_dec_bl in E. by apply to_uint_not_nil in E. }
  rewrite to_uint_normal, uint_beq_refl, delimited_no_fraction by done.
  cbn [andb negb]. by rewrite DecimalN.Unsigned.of_to.
Qed.

(** A numeral is read back when a delimiter follows. *)
Lemma parse_number_stringify (z : Z) (rest : list N) :
  delimited rest ->
  parse_number (stringify_number z ++ rest) = Some (JNum z, rest).
Proof.
  intros Hrest. unfold parse_number, stringify_number.
  destruct z as [|p|p].
  - change [48] with (uint_units (N.to_uint 0)).
    rewrite split_sign_units by apply to_uint_not_nil.
    exact (parse_unsigned 0 rest false Hrest).
  - rewrite split_sign_units by apply to_uint_not_nil.
    exact (parse_unsigned (N.pos p) rest false Hrest).
  - change (split_sign ((45 :: uint_units (N.to_uint (N.pos p))) ++ rest))
      with (true, uint_units (N.to_uint (N.pos p)) ++ rest).
    exact (parse_unsigned (N.pos p) rest true Hrest).
Qed.


(** Induction over JSON values, with the hypothesis for every element
    of an array and every member of an object. *)
Lemma json_induction (P : json -> Prop) :
  P JNull -> (forall b, P (JBool b)) -> (forall z, P (JNum z)) ->
  (forall s, P (JStr s)) ->
  (forall items, Forall P items -> P (JArr items)) ->
  (forall fields, Forall (fun kv => P kv.2) fields -> P (JObj fields)) ->
  forall v, P v.
Proof.
  intros Hnull Hbool Hnum Hstr Harr Hobj.
  fix IH 1. intros [| b | z | s | items | fields].
  - exact Hnull.
  - exact (Hbool b).
  - exact (Hnum z).
  - exact (Hstr s).
  - apply Harr. induction items as [|x items IHitems]; constructor.
    + exact (IH x).
    + exact IHitems.
  - apply Hobj. induction fields as [|[k x] fields IHfields]; constructor.
    + exact (IH x).
    + exact IHfields.
Qed.

(** How [parse_value] dispatches on the first code unit. *)

Lemma number_head (z : Z) (rest : list N) :
  exists c r, stringify_number z ++ rest = c :: r /\ (c = 45 \/ 48 <= c <= 57).
Proof.
  destruct z as [|p|p].
  - exists 48, rest. split; [reflexivity|lia].
  - unfold stringify_number.
    pose proof (to_uint_not_nil (N.pos p)) as Hn.
    destruct (N.to_uint (N.pos p)); try done;
      eexists _, _; (split; [reflexivity|lia]).
  - eexists _, _. split; [reflexivity|lia].
Qed.

Lemma parse_value_number (fuel : nat) (c : N) (r : list N) :
  c = 45 \/ 48 <= c <= 57 ->
  parse_value (S fuel) (c :: r) = parse_number (c :: r).
Proof.
  intros [-> | H]; [reflexivity|].
  assert (Hc : c = 48 \/ c = 49 \/ c = 50 \/ c = 51 \/ c = 52 \/ c = 53
               \/ c = 54 \/ c = 55 \/ c = 56 \/ c = 57) by lia.
  repeat destruct Hc as [->|Hc]; try subst c; reflexivity.
Qed.

Lemma parse_value_string (fuel : nat) (s rest : list N) :
  parse_value (S fuel) (quote s ++ rest) = Some (JStr s, rest).
Proof.
  unfold quote.
  change ((dquote :: concat (map escape_unit s) ++ [dquote]) ++ rest)
    with (34 :: ((concat (map escape_unit s) ++ [dquote]) ++ rest)).
  rewrite <- app_assoc.
  change (parse_value (S fuel)
            (34 :: concat (map escape_unit s) ++ [dquote] ++ rest))
    with (match parse_string_body (concat (map escape_unit s) ++ dquote :: rest) with
          | Some (str, r') => Some (JStr str, r')
          | None => None
          end).
  by rewrite parse_quoted.
Qed.

Lemma skip_ws_start (c : N) (r : list N) :
  is_json_ws c = false -> skip_ws (c :: r) = c :: r.
Proof. intros H. cbn [skip_ws]. by rewrite H. Qed.

Lemma parse_value_array (fuel : nat) (c : N) (r : list N) :
  is_json_ws c = false -> c <> 93 ->
  parse_value (S fuel) (91 :: c :: r)
  = match parse_elements fuel (c :: r) with
    | Some (items, r'') => Some (JArr items, r'')
    | None => None
    end.
Proof.
  intros Hws Hc.
  change (parse_value (S fuel) (91 :: c :: r))
    with (match skip_ws (c :: r) with
          | c' :: r' =>
              if c' =? 93 then Some (JArr [], r')
              else match parse_elements fuel (c :: r) with
                   | Some (items, r'') => Some (JArr items, r'')
                   | None => None
                   end
          | [] => None
          end).
  rewrite skip_ws_start by done.
  by destruct (N.eqb_spec c 93).
Qed.

Lemma parse_value_object (fuel : nat) (c : N) (r : list N) :
  is_json_ws c = false -> c <> 125 ->
  parse_value (S fuel) (123 :: c :: r)
  = match parse_members fuel (c :: r) with
    | Some (fields, r'') => Some (JObj fields, r'')
    | None => None
    end.
Proof.
  intros Hws Hc.
  change (parse_value (S fuel) (123 :: c :: r))
    with (match skip_ws (c :: r) with
          | c' :: r' =>
              if c' =? 125 then Some (JObj [], r')
              else match parse_members fuel (c :: r) with
                   | Some (fields, r'') => Some (JObj fields, r'')
                   | None => None
                   end
          | [] => None
          end).
  rewrite skip_ws_start by done.
  by destruct (N.eqb_spec c 125).
Qed.

(** Every serialised value starts with a code unit that is neither
    white space nor a closing bracket or brace. *)
Lemma stringify_head (v : json) (rest : list N) :
  exists c r, stringify v ++ rest = c :: r
              /\ is_json_ws c = false /\ c <> 93 /\ c <> 125.
Proof.
  destruct v as [| [] | z | s | items | fields];
    try (eexists _, _; repeat split; [reflexivity..| done | done]).
  destruct (number_head z rest) as (c & r & Heq & Hc).
  exists c, r. split; [exact Heq|].
  unfold is_json_ws.
  destruct (N.eqb_spec c 32), (N.eqb_spec c 9), (N.eqb_spec c 10),
    (N.eqb_spec c 13); repeat split; try reflexivity; lia.
Qed.

Lemma join_cons_app (sep x t : list N) (l : list (list N)) :
  join sep (x :: l) ++ t
  = x ++ match l with
         | [] => t
         | _ :: _ => sep ++ join sep l ++ t
         end.
Proof.
  destruct l as [|y l]; [reflexivity|].
  change (join sep (x :: y :: l)) with (x ++ sep ++ join sep (y :: l)).
  by rewrite <- !app_assoc.
Qed.


Lemma elements_round_trip (items : list json) :
  Forall reads_back items -> items <> [] ->
  forall (fuel : nat) (rest : list N),
    (list_sum (map (fun x => S (jsize x)) items) <= fuel)%nat ->
    parse_elements fuel (join (js ",") (map stringify items) ++ 93 :: rest)
    = Some (items, rest).
Proof.
  induction items as [|x items IH]; [done|].
  intros Hall _ fuel rest Hfuel.
  inversion Hall as [|? ? Hx Hitems]; subst.
  simpl in Hfuel.
  destruct fuel as [|fuel]; [lia|].
  cbn [map]. rewrite join_cons_app.
  cbn [parse_elements].
  destruct items as [|y items].
  - cbn [map]. rewrite Hx; [|simpl in *; lia|cbn [delimited]; auto].
    reflexivity.
  - cbn [map]. rewrite Hx; [|simpl in *; lia|left; reflexivity].
    set (more := join (js ",") (stringify y :: map stringify items) ++ 93 :: rest).
    change (skip_ws (js "," ++ more)) with (44 :: more).
    change (44 =? 44) with true. cbv iota. subst more.
    change (stringify y :: map stringify items) with (map stringify (y :: items)).
    rewrite IH; [reflexivity|done|done|].
    simpl in *. lia.
Qed.

Lemma members_round_trip (fields : list (list N * json)) :
  Forall (fun kv => reads_back kv.2) fields -> fields <> [] ->
  forall (fuel : nat) (rest : list N),
    (list_sum (map (fun kv => match kv with (_, x) => S (jsize x) end) fields)
     <= fuel)%nat ->
    parse_members fuel (join (js ",") (map member_text fields) ++ 125 :: rest)
    = Some (fields, rest).
Proof.
  induction fields as [|[k x] fields IH]; [done|].
  intros Hall _ fuel rest Hfuel.
  inversion Hall as [|? ? Hx Hfields]; subst. cbn [snd] in Hx.
  simpl in Hfuel.
  destruct fuel as [|fuel]; [lia|].
  cbn [map]. rewrite join_cons_app.
  unfold member_text at 1. unfold quote.
  rewrite <- !app_assoc.
  set (tail := match map member_text fields with
               | [] => 125 :: rest
               | _ :: _ => js "," ++ join (js ",") (map member_text fields) ++ 125 :: rest
               end).
  change ((dquote :: concat (map escape_unit k) ++ [dquote])
          ++ js ":" ++ stringify x ++ tail)
    with (34 :: (concat (map escape_unit k) ++ [dquote])
                ++ js ":" ++ stringify x ++ tail).
  rewrite <- app_assoc.
  change (parse_members (S fuel)
            (34 :: concat (map escape_unit k) ++ [dquote] ++ js ":"
                   ++ stringify x ++ tail))
    with (match parse_string_body
                  (concat (map escape_unit k) ++ dquote :: 58 :: stringify x ++ tail) with
          | Some (k', r1) =>
              match skip_ws r1 with
              | c1 :: r2 =>
                  if c1 =? 58 then
                    match parse_value fuel r2 with
                    | Some (x', r3) =>
                        match skip_ws r3 with
                        | c2 :: r4 =>
                            if c2 =? 44 then
                              match parse_members fuel r4 with
                              | Some (ms, r5) => Some ((k', x') :: ms, r5)
                              | None => None
                              end
                            else if c2 =? 125 then Some ([(k', x')], r4)
                            else None
                        | [] => None
                        end
                    | None => None
                    end
                  else None
              | [] => None
              end
          | None => None
          end).
  rewrite parse_quoted.
  change (skip_ws (58 :: stringify x ++ tail)) with (58 :: stringify x ++ tail).
  cbn [N.eqb Pos.eqb].
  subst tail. destruct fields as [|kv fields].
  - cbn [map]. rewrite Hx; [|simpl in *; lia|cbn [delimited]; auto].
    reflexivity.
  - cbn [map]. rewrite Hx; [|simpl in *; lia|left; reflexivity].
    set (more := join (js ",") (member_text kv :: map member_text fields) ++ 125 :: rest).
    change (skip_ws (js "," ++ more)) with (44 :: more).
    change (44 =? 44) with true. cbv iota. subst more.
    change (member_text kv :: map member_text fields)
      with (map member_text (kv :: fields)).
    rewrite IH; [reflexivity|done|done|].
    destruct kv. simpl in *. lia.
Qed.

(** Every serialised value is read back, whatever delimiter follows. *)
Lemma value_round_trip (v : json) : reads_back v.
Proof.
  induction v as [| b | z | s | items Hitems | fields Hfields] using json_induction;
    intros fuel rest Hfuel Hrest;
    (destruct fuel as [|fuel]; [simpl in Hfuel; lia|]).
  - reflexivity.
  - by destruct b.
  - destruct (number_head z rest) as (c & r & Heq & Hc).
    cbn [stringify]. rewrite Heq, parse_value_number by done.
    rewrite <- Heq. by apply parse_number_stringify.
  - apply parse_value_string.
  - destruct items as [|x items]; [reflexivity|].
    cbn [stringify]. rewrite <- !app_assoc.
    change (js "[" ++ join (js ",") (map stringify (x :: items)) ++ js "]" ++ rest)
      with (91 :: (join (js ",") (map stringify (x :: items)) ++ 93 :: rest)).
    assert (Hhead : exists c r,
               join (js ",") (map stringify (x :: items)) ++ 93 :: rest = c :: r
               /\ is_json_ws c = false /\ c <> 93).
    { cbn [map]. rewrite join_cons_app.
      destruct (stringify_head x
                  (match map stringify items with
                   | [] => 93 :: rest
                   | _ :: _ => js "," ++ join (js ",") (map stringify items) ++ 93 :: rest
                   end)) as (c & r & Heq & Hws & Hc & _).
      eauto. }
    destruct Hhead as (c & r & Heq & Hws & Hc).
    rewrite Heq, parse_value_array by done. rewrite <- Heq.
    rewrite elements_round_trip; [reflexivity|done|done|].
    simpl in Hfuel |- *. lia.
  - destruct fields as [|kv fields]; [reflexivity|].
    cbn [stringify]. rewrite <- !app_assoc.
    change (js "{"
            ++ join (js ",")
                 (map (fun kv0 => match kv0 with
                                  | (k, x) => quote k ++ js ":" ++ stringify x
                                  end) (kv :: fields))
            ++ js "}" ++ rest)
      with (123 :: (join (js ",") (map member_text (kv :: fields)) ++ 125 :: rest)).
    assert (Hhead : exists r,
               join (js ",") (map member_text (kv :: fields)) ++ 125 :: rest = 34 :: r).
    { cbn [map]. rewrite join_cons_app. destruct kv as [k x]. eexists. reflexivity. }
    destruct Hhead as (r & Heq).
    rewrite Heq, parse_value_object by done. rewrite <- Heq.
    rewrite members_round_trip; [reflexivity|done|done|].
    simpl in Hfuel |- *. lia.
Qed.


(** The fuel [JSON_parse] starts with suffices. *)

Lemma join_length_bound {A} (size : A -> nat) (text : A -> list N) (l : list A) :
  Forall (fun a => (size a <= length (text a))%nat) l ->
  (list_sum (map (fun a => S (size a)) l)
   <= S (length (join (js ",") (map text l))))%nat.
Proof.
  induction l as [|a l IH]; intros Hall; [simpl; lia|].
  inversion Hall as [|? ? Ha Hl]; subst. specialize (IH Hl).
  destruct l as [|b l].
  - simpl. lia.
  - cbn [map] in *.
    change (join (js ",") (text a :: text b :: map text l))
      with (text a ++ js "," ++ join (js ",") (text b :: map text l)).
    rewrite !length_app. change (length (js ",")) with 1%nat.
    change (list_sum (S (size a) :: S (size b) :: map (fun a => S (size a)) l))
      with (S (size a) + list_sum (S (size b) :: map (fun a => S (size a)) l))%nat.
    lia.
Qed.

Lemma jsize_length (v : json) : (jsize v <= length (stringify v))%nat.
Proof.
  induction v as [| b | z | s | items Hitems | fields Hfields] using json_induction.
  - simpl. lia.
  - destruct b; simpl; lia.
  - destruct (number_head z []) as (c & r & Heq & _).
    rewrite app_nil_r in Heq. cbn [stringify jsize]. rewrite Heq. simpl. lia.
  - cbn [stringify jsize]. unfold quote. simpl. lia.
  - cbn [stringify jsize]. rewrite !length_app.
    pose proof (join_length_bound jsize stringify items Hitems).
    change (length (js "[")) with 1%nat. change (length (js "]")) with 1%nat. lia.
  - cbn [stringify jsize]. rewrite !length_app.
    change (length (js "{")) with 1%nat. change (length (js "}")) with 1%nat.
    assert (H : (list_sum (map (fun kv => S (jsize kv.2)) fields)
                 <= S (length (join (js ",") (map member_text fields))))%nat).
    { apply (join_length_bound (fun kv => jsize kv.2) member_text).
      eapply Forall_impl; [exact Hfields|]. intros [k x] Hx. cbn [snd] in *.
      unfold member_text. rewrite !length_app. lia. }
    assert (Hm : map (fun kv : list N * json => match kv with (_, x) => S (jsize x) end) fields
                 = map (fun kv => S (jsize kv.2)) fields)
      by (apply map_ext; by intros [k x]).
    rewrite Hm.
    assert (Ht : map (fun kv : list N * json =>
                        match kv with (k, x) => quote k ++ js ":" ++ stringify x end) fields
                 = map member_text fields) by reflexivity.
    rewrite Ht. lia.
Qed.

(** The codec reads back every value it writes, and rejects the empty
    text. *)
Lemma codec_round_trip (v : json) : JSON_parse (stringify v) = Normal v.
Proof.
  unfold JSON_parse.
  pose proof (value_round_trip v (S (length (stringify v))) []) as H.
  rewrite app_nil_r in H. rewrite H; [reflexivity| |exact I].
  pose proof (jsize_length v). lia.
Qed.

Lemma codec_rejects_empty (v : json) : JSON_parse [] <> Normal v.
Proof. discriminate. Qed.

End CodecFacts.

(** * Decoding of JSON-encoded columns *)

Section ParseJsonFieldFacts.

Import DbUtils.

(** The two JSON primitives of the platform and what is assumed of
    them: a serialised value parses to itself, and the empty text is a
    syntax error. *)
Variable JSON_parse : list N -> completion json.
Variable JSON_stringify : json -> list N.

Hypothesis parse_stringify : forall v, JSON_parse (JSON_stringify v) = Normal v.
Hypothesis parse_empty : forall v, JSON_parse [] <> Normal v.

Lemma stringify_not_empty (v : json) : JSON_stringify v <> [].
Proof.
  intros H. apply (parse_empty v). rewrite <- H. apply parse_stringify.
Qed.

(** C4. [parseJsonField] returns for every input; it decodes the JSON
    text of a list to that list, in order; it returns the empty list for
    the empty string, [null] and [undefined] (an absent property); and a
    non-empty string that is not JSON is split on commas into its
    trimmed, non-empty tokens. *)
Theorem parseJsonField_total_round_trip :
  (forall l : list json,
     parseJsonField JSON_parse (Value (JStr (JSON_stringify (JArr l)))) [] = Normal l)
  /\ (parseJsonField JSON_parse (Value (JStr [])) [] = Normal []
      /\ parseJsonField JSON_parse (Value JNull) [] = Normal []
      /\ parseJsonField JSON_parse Undefined [] = Normal [])
  /\ (forall value defaultValue,
        exists l, parseJsonField JSON_parse value defaultValue = Normal l)
  /\ (forall s message,
        s <> [] -> JSON_parse s = Throw message ->
        parseJsonField JSON_parse (Value (JStr s)) []
        = Normal (JStr <$> FilterSpec.tokens s)).
Proof.
  split; [|split; [|split]].
  - intros l. unfold parseJsonField.
    destruct (JSON_stringify (JArr l)) as [|c t] eqn:E.
    + by apply stringify_not_empty in E.
    + rewrite <- E, parse_stringify. reflexivity.
  - repeat split.
  - intros value defaultValue. unfold parseJsonField.
    destruct value as [|[| b | z | [|c t] | items | fields]]; eauto.
    destruct (JSON_parse (c :: t)) as [parsed|m]; cbn [try_catch]; eauto.
  - intros s message Hs Hthrow. unfold parseJsonField.
    destruct s as [|c t]; [done|]. rewrite Hthrow. reflexivity.
Qed.

End ParseJsonFieldFacts.

Lemma parseJsonField_total_round_trip_witness :
  DbUtils.parseJsonField JsonCodec.JSON_parse
    (Value (JStr (JsonCodec.stringify (JArr [JStr (js "Action"); JStr (js "Drama")]))))
    []
  = Normal [JStr (js "Action"); JStr (js "Drama")]
  /\ (js "Action, Drama" <> []
      /\ JsonCodec.JSON_parse (js "Action, Drama") = Throw JsonCodec.syntax_error
      /\ DbUtils.parseJsonField JsonCodec.JSON_parse (Value (JStr (js "Action, Drama"))) []
         = Normal [JStr (js "Action"); JStr (js "Drama")]).
Proof.
  pose proof (parseJsonField_total_round_trip JsonCodec.JSON_parse JsonCodec.stringify
                codec_round_trip codec_rejects_empty) as (Hrt & _ & _ & Hsplit).
  assert (Hne : js "Action, Drama" <> []) by discriminate.
  assert (Hthrow : JsonCodec.JSON_parse (js "Action, Drama")
                   = Throw JsonCodec.syntax_error) by (vm_compute; reflexivity).
  split; [apply Hrt|].
  split; [exact Hne|]. split; [exact Hthrow|].
  exact (Hsplit (js "Action, Drama") JsonCodec.syntax_error Hne Hthrow).
Defined.

(** * Further properties of dbUtils.ts *)

Section TrimFacts.

Lemma trimStart_starts_clean (s : list N) : starts_clean (trimStart s).
Proof.
  induction s as [|c s IH]; [exact I|].
  cbn [trimStart]. destruct (is_ws c) eqn:E; [exact IH|exact E].
Qed.

Lemma trimStart_suffix (s : list N) : exists w, s = w ++ trimStart s.
Proof.
  induction s as [|c s [w IH]]; [by exists []|].
  cbn [trimStart]. destruct (is_ws c).
  - exists (c :: w). by rewrite IH at 1.
  - by exists [].
Qed.

Lemma trimStart_fixed (s : list N) : starts_clean s -> trimStart s = s.
Proof.
  destruct s as [|c s]; [done|]. cbn [starts_clean trimStart]. intros H. by rewrite H.
Qed.

(** [trim] leaves no white space at either end, and is the identity on
    such texts. *)
Lemma trim_clean (s : list N) : clean (trim s).
Proof.
  unfold clean, trim, trimEnd. rewrite reverse_involutive. split.
  - destruct (trimStart_suffix (reverse (trimStart s))) as [w Hw].
    apply (f_equal reverse) in Hw.
    rewrite reverse_involutive, reverse_app in Hw.
    pose proof (trimStart_starts_clean s) as Hs. rewrite Hw in Hs.
    destruct (reverse (trimStart (reverse (trimStart s)))); [exact I|exact Hs].
  - apply trimStart_starts_clean.
Qed.

Lemma trim_fixed (s : list N) : clean s -> trim s = s.
Proof.
  intros [H1 H2]. unfold trim, trimEnd.
  rewrite (trimStart_fixed s H1), (trimStart_fixed _ H2).
  apply reverse_involutive.
Qed.

Lemma trimStart_elements (s : list N) (x : N) : x ∈ trimStart s -> x ∈ s.
Proof.
  destruct (trimStart_suffix s) as [w Hw]. intros Hx.
  rewrite Hw. apply elem_of_app. by right.
Qed.

Lemma trim_elements (s : list N) (x : N) : x ∈ trim s -> x ∈ s.
Proof.
  unfold trim, trimEnd. intros Hx.
  rewrite elem_of_reverse in Hx. apply trimStart_elements in Hx.
  rewrite elem_of_reverse in Hx. by apply trimStart_elements.
Qed.

(** No token of a split holds the separator. *)
Lemma split_tokens_free (sep : N) (s t : list N) :
  t ∈ split sep s -> sep ∉ t.
Proof.
  revert t. induction s as [|c s IH]; intros t Ht.
  - cbn [split] in Ht. apply list_elem_of_singleton in Ht as ->. apply not_elem_of_nil.
  - cbn [split] in Ht. destruct (N.eqb_spec c sep) as [->|Hne].
    + apply elem_of_cons in Ht as [->|Ht]; [apply not_elem_of_nil|by apply IH].
    + destruct (split sep s) as [|t0 ts] eqn:E.
      * apply list_elem_of_singleton in Ht as ->.
        intros Hin. apply list_elem_of_singleton in Hin. congruence.
      * apply elem_of_cons in Ht as [->|Ht].
        -- intros Hin. apply elem_of_cons in Hin as [Hin|Hin]; [congruence|].
           revert Hin. apply IH. apply list_elem_of_here.
        -- apply IH. by apply list_elem_of_further.
Qed.

(** The tokens of a comma-separated text are non-empty, clean and free
    of commas. *)
Lemma tokens_clean (v g : list N) :
  g ∈ FilterSpec.tokens v -> g <> [] /\ clean g /\ 44 ∉ g.
Proof.
  unfold FilterSpec.tokens. intros Hg.
  apply list_elem_of_filter in Hg as [Hne Hg].
  apply list_elem_of_fmap in Hg as (t & -> & Ht).
  split; [exact Hne|]. split; [apply trim_clean|].
  intros Hin. apply trim_elements in Hin.
  by apply (split_tokens_free 44 v t).
Qed.

End TrimFacts.

Section BuilderMoreFacts.

Import DbUtils FilterSpec.

(** X1. The builder reads the nine filter keys and nothing else: two
    argument maps that agree on them give the same clause and the same
    bound values, whatever else they hold (paging and sorting entries,
    for instance). *)
Theorem build_reads_filter_keys_only (a1 a2 : gmap (list N) (list N)) :
  (forall k : filter_key, a1 !! key_name k = a2 !! key_name k) ->
  buildMovieWhereClauseAndParams a1 = buildMovieWhereClauseAndParams a2.
Proof.
  intros H. rewrite !build_refines.
  assert (Hs : forall k, subclause a1 k = subclause a2 k)
    by (intros k; unfold subclause; by rewrite H).
  assert (Hp : forall k, subparams a1 k = subparams a2 k)
    by (intros k; unfold subparams; by rewrite H).
  unfold spec_clause, spec_params, filter_keys.
  cbn [omap list_omap mbind list_bind]. by rewrite !Hs, !Hp.
Qed.

Lemma build_reads_filter_keys_only_witness :
  buildMovieWhereClauseAndParams search_args_paged
  = buildMovieWhereClauseAndParams search_args_1.
Proof.
  apply (build_reads_filter_keys_only search_args_paged search_args_1).
  intros k. destruct k; reflexivity.
Defined.

Lemma count_unit_app (c : N) (s t : list N) :
  count_unit c (s ++ t) = (count_unit c s + count_unit c t)%nat.
Proof. unfold count_unit. by rewrite filter_app, length_app. Qed.

Lemma count_unit_join (c : N) (sep : list N) (l : list (list N)) :
  count_unit c sep = O ->
  count_unit c (join sep l) = sum_list (count_unit c <$> l).
Proof.
  intros Hsep. induction l as [|x [|y l] IH].
  - reflexivity.
  - cbn [join fmap list_fmap sum_list sum_list_with]. unfold Datatypes.id. lia.
  - change (join sep (x :: y :: l)) with (x ++ sep ++ join sep (y :: l)).
    rewrite !count_unit_app, Hsep, IH.
    cbn [fmap list_fmap sum_list sum_list_with]. unfold Datatypes.id. lia.
Qed.

Lemma count_unit_replicate (c : N) (m : nat) (x : list N) :
  count_unit c x = O -> sum_list (count_unit c <$> replicate m x) = O.
Proof.
  intros Hx. induction m as [|m IH]; [reflexivity|].
  cbn [replicate fmap list_fmap]. change (sum_list (?a :: ?l)) with (a + sum_list l)%nat.
  by rewrite Hx, IH.
Qed.

Lemma subclause_balanced (s : shape) (k : filter_key) (c : list N) :
  subclause_of_shape s k = Some c -> count_unit 40 c = count_unit 41 c.
Proof.
  unfold subclause_of_shape. intros H.
  destruct k;
    repeat match type of H with
           | (if ?b then _ else _) = _ => destruct b
           | match ?x with _ => _ end = _ => destruct x
           end;
    try discriminate; injection H as <-; try reflexivity.
  unfold or_join, paren.
  rewrite !count_unit_app, !count_unit_join by reflexivity.
  change (js "genres LIKE ?" :: replicate n (js "genres LIKE ?"))
    with (replicate (S n) (js "genres LIKE ?")).
  by rewrite !count_unit_replicate.
Qed.

(** X2. The clause is never empty and holds as many opening as closing
    parentheses, for every argument map. *)
Theorem clause_parentheses_balanced (argsDict : gmap (list N) (list N)) :
  clause (buildMovieWhereClauseAndParams argsDict) <> []
  /\ count_unit 40 (clause (buildMovieWhereClauseAndParams argsDict))
     = count_unit 41 (clause (buildMovieWhereClauseAndParams argsDict)).
Proof.
  rewrite build_refines. cbn [clause]. rewrite spec_clause_shape.
  destruct (omap (subclause_of_shape (shape_of argsDict)) filter_keys)
    as [|c subs] eqn:E.
  - split; [discriminate|reflexivity].
  - assert (Hall : Forall (fun x => x <> [] /\ count_unit 40 x = count_unit 41 x)
                     (c :: subs)).
    { rewrite <- E. apply Forall_forall. intros x Hx.
      apply list_elem_of_omap in Hx as (k & _ & Hk). split.
      - intros ->. revert Hk. unfold subclause_of_shape.
        destruct k;
          repeat match goal with
                 | |- (if ?b then _ else _) = _ -> _ => destruct b
                 | |- match ?x with _ => _ end = _ -> _ => destruct x
                 end; discriminate.
      - by eapply subclause_balanced. }
    split.
    + inversion Hall as [|? ? [Hc _] _]; subst.
      unfold and_join. destruct subs as [|d subs]; [exact Hc|].
      change (join (js " AND ") (c :: d :: subs))
        with (c ++ js " AND " ++ join (js " AND ") (d :: subs)).
      destruct c; [done|discriminate].
    + unfold and_join. rewrite !count_unit_join by reflexivity.
      clear E. induction Hall as [|x l [_ Hx] _ IH]; [reflexivity|].
      cbn [fmap list_fmap].
      change (sum_list (?a :: ?l)) with (a + sum_list l)%nat.
      by rewrite Hx, IH.
Qed.

(** X3. The values the [Genres] block binds are the genres of the
    request and nothing else: one value [%"g"%] for every token [g] of
    the comma-separated [Genres] argument that is not empty once
    trimmed, in the order of the argument (none when the argument is
    absent); every such [g] is a non-empty text without white space at
    either end and without a comma. *)
Theorem genres_block_binds_clean_values
    (argsDict : gmap (list N) (list N)) (b : builder) :
  let genres :=
    match argsDict !! js "Genres" with
    | Some v => filter (fun g : list N => g <> []) (trim <$> split 44 v)
    | None => []
    end in
  sqlParams (genres_block argsDict b)
  = sqlParams b
    ++ ((fun g => SqlText (js "%" ++ [dquote] ++ g ++ [dquote] ++ js "%")) <$> genres)
  /\ Forall (fun g => g <> [] /\ clean g /\ 44 ∉ g) genres.
Proof.
  cbv zeta. rewrite genres_block_appends. cbn [sqlParams]. unfold subparams.
  change (key_name Genres) with (js "Genres").
  destruct (argsDict !! js "Genres") as [[|c v]|].
  - split; [reflexivity|]. change (Forall (fun g => g <> [] /\ clean g /\ 44 ∉ g) (tokens [])).
    rewrite tokens_nil. constructor.
  - split; [reflexivity|].
    apply Forall_forall. intros g Hg. by apply (tokens_clean (c :: v)).
  - split; [reflexivity|constructor].
Qed.

End BuilderMoreFacts.

Section ParseJsonFieldMoreFacts.

Import DbUtils.

Variable JSON_parse : list N -> completion json.
Variable JSON_stringify : json -> list N.

Hypothesis parse_stringify : forall v, JSON_parse (JSON_stringify v) = Normal v.
Hypothesis parse_empty : forall v, JSON_parse [] <> Normal v.

(** X4. The JSON text of a value that is not a list decodes to the
    one-element list of that value (a string, a number, an object,
    [null], ...), whatever the default. *)
Theorem parseJsonField_wraps_scalar (v : json) (defaultValue : list json) :
  (forall items, v <> JArr items) ->
  parseJsonField JSON_parse (Value (JStr (JSON_stringify v))) defaultValue
  = Normal [v].
Proof.
  intros Hv. unfold parseJsonField.
  destruct (JSON_stringify v) as [|c t] eqn:E.
  - exfalso. apply (parse_empty v). rewrite <- E. apply parse_stringify.
  - rewrite <- E, parse_stringify. cbn [try_catch].
    destruct v; try reflexivity. by destruct (Hv items).
Qed.

End ParseJsonFieldMoreFacts.

Lemma parseJsonField_wraps_scalar_witness :
  DbUtils.parseJsonField JsonCodec.JSON_parse
    (Value (JStr (JsonCodec.stringify (JStr (js "Drama"))))) []
  = Normal [JStr (js "Drama")].
Proof.
  apply (parseJsonField_wraps_scalar JsonCodec.JSON_parse JsonCodec.stringify
           codec_round_trip codec_rejects_empty).
  intros items. discriminate.
Defined.

(** X5. When a non-empty string is not JSON, [parseJsonField] returns,
    whatever the default, the comma-separated pieces of that very
    string, each trimmed, the empty ones dropped, in order; so what it
    returns are strings only, each non-empty, without white space at
    either end and without a comma. *)
Theorem parseJsonField_fallback_tokens
    (JSON_parse : list N -> completion json) (s message : list N)
    (defaultValue : list json) :
  s <> [] -> JSON_parse s = Throw message ->
  DbUtils.parseJsonField JSON_parse (Value (JStr s)) defaultValue
  = Normal (JStr <$> filter (fun g : list N => g <> []) (trim <$> split 44 s))
  /\ Forall (fun g => g <> [] /\ clean g /\ 44 ∉ g)
       (filter (fun g : list N => g <> []) (trim <$> split 44 s)).
Proof.
  intros Hs Hthrow. split.
  - unfold DbUtils.parseJsonField. destruct s as [|c t]; [done|].
    by rewrite Hthrow.
  - apply Forall_forall. intros g Hg. by apply (tokens_clean s).
Qed.

Lemma parseJsonField_fallback_tokens_witness :
  DbUtils.parseJsonField JsonCodec.JSON_parse
    (Value (JStr (js " Action ,, Drama,"))) [JNull]
  = Normal [JStr (js "Action"); JStr (js "Drama")]
  /\ Forall (fun g => g <> [] /\ clean g /\ 44 ∉ g) [js "Action"; js "Drama"].
Proof.
  apply (parseJsonField_fallback_tokens JsonCodec.JSON_parse
           (js " Action ,, Drama,") JsonCodec.syntax_error [JNull]).
  - discriminate.
  - vm_compute. reflexivity.
Defined.

(** * Lookups and likes *)

Section StoreFacts.

Import DbUtils MovieApi MovieStore HandlerSpec.

Implicit Types (movies : list stored_movie) (m row : stored_movie).

Lemma head_filter_none {A} (P : A -> Prop) `{!forall x, Decision (P x)} (l : list A) :
  head (filter P l) = None <-> forall x, x ∈ l -> ~ P x.
Proof.
  rewrite head_None. split.
  - intros Hnil x Hx HP.
    assert (Hin : x ∈ filter P l) by (apply list_elem_of_filter; auto).
    rewrite Hnil in Hin. by apply elem_of_nil in Hin.
  - intros Hall. induction l as [|y l IH]; [reflexivity|].
    rewrite filter_cons_False by (apply Hall; apply list_elem_of_here).
    apply IH. intros x Hx. apply Hall. by apply list_elem_of_further.
Qed.

(** X6. The item endpoint answers 404 [Movie not found] exactly when no
    row has the requested id, for a parameter that starts like a number,
    and exactly when no row has the parameter as external identifier
    otherwise. A parameter that starts like a number is thus never tried
    as an external identifier. *)
Theorem get_item_not_found movies (itemIdOrNum : list N) :
  get_item movies itemIdOrNum = not_found "Movie not found"
  <-> match parseInt itemIdOrNum with
      | Some n => forall m, m ∈ movies -> movie_id m <> n
      | None => forall m, m ∈ movies -> movie_uniqueid_num m <> Some itemIdOrNum
      end.
Proof.
  unfold get_item, find_movie.
  destruct (parseInt itemIdOrNum) as [n|].
  - unfold first_by_id.
    destruct (head (filter (fun m => movie_id m = n) movies)) as [found|] eqn:E.
    + cbn [movieRowToDict]. split; [discriminate|].
      intros Hall. apply (head_filter_none (fun m => movie_id m = n)) in Hall.
      congruence.
    + split; [|done]. intros _.
      by apply (head_filter_none (fun m => movie_id m = n)).
  - unfold first_by_uniqueid_num.
    destruct (head (filter (fun m => movie_uniqueid_num m = Some itemIdOrNum) movies))
      as [found|] eqn:E.
    + cbn [movieRowToDict]. split; [discriminate|].
      intros Hall.
      apply (head_filter_none (fun m => movie_uniqueid_num m = Some itemIdOrNum)) in Hall.
      congruence.
    + split; [|done]. intros _.
      by apply (head_filter_none (fun m => movie_uniqueid_num m = Some itemIdOrNum)).
Qed.


Lemma head_filter_fmap {A} (P : A -> Prop) `{!forall x, Decision (P x)}
    (g : A -> A) (l : list A) :
  (forall x, P (g x) <-> P x) ->
  head (filter P (g <$> l)) = g <$> head (filter P l).
Proof.
  intros Hg. induction l as [|x l IH]; [reflexivity|].
  cbn [fmap list_fmap]. destruct (decide (P x)) as [HP|HP].
  - rewrite (filter_cons_True P) by by apply Hg.
    by rewrite (filter_cons_True P).
  - rewrite (filter_cons_False P) by by rewrite Hg.
    by rewrite (filter_cons_False P).
Qed.

(** The lookup finds the same row after an update of the flag. *)
Lemma find_after_update (flag n : Z) movies (p : list N) :
  movie_id <$> find_movie (set_is_liked flag n movies) p
  = movie_id <$> find_movie movies p.
Proof.
  unfold find_movie, set_is_liked, first_by_id, first_by_uniqueid_num.
  destruct (parseInt p) as [k|].
  - rewrite (head_filter_fmap (fun m => movie_id m = k)).
    + destruct (head _) as [m|]; [|reflexivity].
      cbn [fmap option_fmap option_map]. by destruct (bool_decide _).
    + intros m. by destruct (bool_decide _).
  - rewrite (head_filter_fmap (fun m => movie_uniqueid_num m = Some p)).
    + destruct (head _) as [m|]; [|reflexivity].
      cbn [fmap option_fmap option_map]. by destruct (bool_decide _).
    + intros m. by destruct (bool_decide _).
Qed.

Lemma set_is_liked_twice (flag flag' n : Z) movies :
  set_is_liked flag' n (set_is_liked flag n movies) = set_is_liked flag' n movies.
Proof.
  unfold set_is_liked. rewrite <- list_fmap_compose. apply list_fmap_ext.
  intros i m _. cbn [compose].
  destruct (bool_decide (movie_id m = n)) eqn:E; cbn [movie_id]; by rewrite E.
Qed.

Lemma change_like_after (flag flag' : Z) (answer answer' : response) movies (p : list N) :
  change_like flag' answer' (change_like flag answer movies p).2 p
  = match find_movie movies p with
    | Some row =>
        if (movie_id row =? 0)%Z then (not_found "Movie not found", movies)
        else (answer', set_is_liked flag' (movie_id row) movies)
    | None => (not_found "Movie not found", movies)
    end.
Proof.
  unfold change_like at 2.
  destruct (find_movie movies p) as [row|] eqn:E.
  - destruct (movie_id row =? 0)%Z eqn:E0; cbn [snd].
    + unfold change_like. by rewrite E, E0.
    + unfold change_like.
      pose proof (find_after_update flag (movie_id row) movies p) as H.
      rewrite E in H. cbn [fmap option_fmap option_map] in H.
      destruct (find_movie (set_is_liked flag (movie_id row) movies) p) as [row'|];
        [|discriminate].
      injection H as ->. rewrite E0. by rewrite set_is_liked_twice.
  - cbn [snd]. unfold change_like. by rewrite E.
Qed.

(** X7. Liking is idempotent, and so is unliking: a second request of
    the same kind gets the same answer and leaves the table as the first
    one left it. An unlike after a like, or a like after an unlike,
    leaves the table as if only the later request had been made. *)
Theorem like_idempotent movies (itemIdOrNum : list N) :
  post_like (post_like movies itemIdOrNum).2 itemIdOrNum = post_like movies itemIdOrNum
  /\ delete_like (delete_like movies itemIdOrNum).2 itemIdOrNum
     = delete_like movies itemIdOrNum
  /\ delete_like (post_like movies itemIdOrNum).2 itemIdOrNum
     = delete_like movies itemIdOrNum
  /\ post_like (delete_like movies itemIdOrNum).2 itemIdOrNum
     = post_like movies itemIdOrNum.
Proof.
  unfold post_like, delete_like. rewrite !change_like_after. by repeat split.
Qed.

Lemma set_is_liked_same_but_likes (flag n : Z) movies :
  same_but_likes movies (set_is_liked flag n movies).
Proof.
  unfold same_but_likes, set_is_liked. induction movies as [|m movies IH].
  - constructor.
  - cbn [fmap list_fmap]. constructor; [|exact IH].
    by destruct (bool_decide _).
Qed.

Lemma same_but_likes_refl movies : same_but_likes movies movies.
Proof. unfold same_but_likes. induction movies; constructor; auto. Qed.

Lemma change_like_flag_only (flag : Z) (answer : response) movies (p : list N) :
  flag_only movies (change_like flag answer movies p).2 (find_movie movies p).
Proof.
  unfold change_like, flag_only.
  destruct (find_movie movies p) as [row|].
  - destruct (movie_id row =? 0)%Z; cbn [snd].
    + split; [apply same_but_likes_refl|auto].
    + split; [apply set_is_liked_same_but_likes|].
      intros m Hm Hne. unfold set_is_liked.
      apply list_elem_of_fmap. exists m. split; [|exact Hm].
      rewrite bool_decide_eq_false_2; [reflexivity|]. by apply Hne.
  - cbn [snd]. split; [apply same_but_likes_refl|auto].
Qed.

(** X8. A like or unlike request changes nothing but [is_liked]: the
    table keeps its rows, in order, with their ids, external
    identifiers, titles and stream files; rows with another id than the
    one found stay as they are; and a request answered 404 leaves the
    table untouched. *)
Theorem like_changes_flag_only movies (itemIdOrNum : list N) :
  flag_only movies (post_like movies itemIdOrNum).2 (find_movie movies itemIdOrNum)
  /\ flag_only movies (delete_like movies itemIdOrNum).2 (find_movie movies itemIdOrNum)
  /\ ((post_like movies itemIdOrNum).1 = not_found "Movie not found" ->
      (post_like movies itemIdOrNum).2 = movies)
  /\ ((delete_like movies itemIdOrNum).1 = not_found "Movie not found" ->
      (delete_like movies itemIdOrNum).2 = movies).
Proof.
  split; [apply change_like_flag_only|]. split; [apply change_like_flag_only|].
  unfold post_like, delete_like, change_like.
  destruct (find_movie movies itemIdOrNum) as [row|]; [|by split].
  destruct (movie_id row =? 0)%Z; [by split|].
  cbn [fst snd]. split; discriminate.
Qed.

(** X9. After a successful like the item endpoint shows the record as
    liked; after an unlike, and after a like followed by an unlike, as
    not liked. *)
Theorem like_is_read_back movies (itemIdOrNum : list N) (row : stored_movie) :
  find_movie movies itemIdOrNum = Some row -> movie_id row <> 0%Z ->
  response_field "is_liked" (get_item (post_like movies itemIdOrNum).2 itemIdOrNum)
  = Some (JBool true)
  /\ response_field "is_liked" (get_item (delete_like movies itemIdOrNum).2 itemIdOrNum)
     = Some (JBool false)
  /\ response_field "is_liked"
       (get_item (delete_like (post_like movies itemIdOrNum).2 itemIdOrNum).2
          itemIdOrNum)
     = Some (JBool false).
Proof.
  intros Hfound Hid.
  assert (Hread : forall flag answer,
             response_field "is_liked"
               (get_item (change_like flag answer movies itemIdOrNum).2 itemIdOrNum)
             = Some (JBool (negb (flag =? 0)%Z))).
  { intros flag answer. unfold change_like. rewrite Hfound.
    destruct (movie_id row =? 0)%Z eqn:E0; [lia|]. cbn [snd].
    unfold get_item.
    assert (Hf : exists row', find_movie (set_is_liked flag (movie_id row) movies)
                                itemIdOrNum = Some row'
                              /\ movie_is_liked row' = flag).
    { unfold find_movie, set_is_liked, first_by_id, first_by_uniqueid_num in *.
      destruct (parseInt itemIdOrNum) as [k|].
      - rewrite (head_filter_fmap (fun m => movie_id m = k));
          [|intros m; by destruct (bool_decide _)].
        rewrite Hfound. cbn [fmap option_fmap option_map].
        eexists. split; [reflexivity|]. by rewrite bool_decide_eq_true_2.
      - rewrite (head_filter_fmap (fun m => movie_uniqueid_num m = Some itemIdOrNum));
          [|intros m; by destruct (bool_decide _)].
        rewrite Hfound. cbn [fmap option_fmap option_map].
        eexists. split; [reflexivity|]. by rewrite bool_decide_eq_true_2. }
    destruct Hf as (row' & -> & Hflag).
    cbn [movieRowToDict as_row is_liked]. rewrite Hflag.
    unfold movie_json, response_field.
    cbn [MovieApi.row MovieApi.id MovieApi.title liked Id Name Type_ SortName as_row].
    destruct (movie_title row'); reflexivity. }
  split; [exact (Hread 1%Z _)|]. split; [exact (Hread 0%Z _)|].
  assert (H : delete_like (post_like movies itemIdOrNum).2 itemIdOrNum
              = delete_like movies itemIdOrNum)
    by (unfold post_like, delete_like; by rewrite !change_like_after).
  rewrite H. exact (Hread 0%Z _).
Qed.

Lemma like_is_read_back_witness :
  response_field "is_liked"
    (get_item (post_like sample_movies (js "ABC-123")).2 (js "ABC-123"))
  = Some (JBool true)
  /\ response_field "is_liked"
       (get_item (delete_like sample_movies (js "ABC-123")).2 (js "ABC-123"))
     = Some (JBool false)
  /\ response_field "is_liked"
       (get_item (delete_like (post_like sample_movies (js "ABC-123")).2
                    (js "ABC-123")).2 (js "ABC-123"))
     = Some (JBool false).
Proof.
  apply (like_is_read_back sample_movies (js "ABC-123")
           {| movie_id := 1; movie_uniqueid_num := Some (js "ABC-123");
              movie_title := Some (js "First"); movie_is_liked := 0;
              movie_strm_files := Some (js "[]") |}).
  - reflexivity.
  - discriminate.
Defined.

End StoreFacts.

(** * Streams *)

Section StreamFacts.

Import DbUtils R2Utils MovieApi MovieStore.

Variable JSON_parse : list N -> completion json.
Variable JSON_stringify : json -> list N.

Hypothesis parse_stringify : forall v, JSON_parse (JSON_stringify v) = Normal v.
Hypothesis parse_empty : forall v, JSON_parse [] <> Normal v.

Lemma stringified_list (l : list json) :
  exists c t, JSON_stringify (JArr l) = c :: t
              /\ parseJsonField JSON_parse (Value (JStr (c :: t))) [] = Normal l.
Proof.
  destruct (JSON_stringify (JArr l)) as [|c t] eqn:E.
  - exfalso. apply (parse_empty (JArr l)). rewrite <- E. apply parse_stringify.
  - exists c, t. split; [reflexivity|].
    unfold parseJsonField. by rewrite <- E, parse_stringify.
Qed.

(** X10. The stream endpoint serves the first entry of the stored list
    and nothing else: when [strm_files] is the JSON text of a list that
    starts with a non-empty string, the answer is the object under the
    base prefix joined to that string (double slashes collapsed) with a
    one-day cache header, whatever follows in the list; the text of the
    empty list is answered 404 [No stream links available]. *)
Theorem stream_serves_first_entry
    (prefix : list N) (bucket : gmap (list N) R2Object)
    (movies : list stored_movie) (itemIdOrNum : list N) (movieRaw : stored_movie) :
  find_movie movies itemIdOrNum = Some movieRaw ->
  (forall k rest,
     k <> [] ->
     movie_strm_files movieRaw = Some (JSON_stringify (JArr (JStr k :: rest))) ->
     get_stream JSON_parse prefix (Some bucket) movies itemIdOrNum
     = Normal (serveFileFromR2 bucket (collapse_slashes (prefix ++ js "/" ++ k))
                 (js "public, max-age=86400")))
  /\ (movie_strm_files movieRaw = Some (JSON_stringify (JArr [])) ->
      get_stream JSON_parse prefix (Some bucket) movies itemIdOrNum
      = Normal (not_found "No stream links available")).
Proof.
  intros Hfound. unfold get_stream. rewrite Hfound. split.
  - intros k rest Hk ->.
    destruct (stringified_list (JStr k :: rest)) as (c & t & -> & ->).
    cbn [json_truthy to_string]. by destruct k.
  - intros ->.
    by destruct (stringified_list []) as (c & t & -> & ->).
Qed.

End StreamFacts.

Lemma stream_serves_first_entry_witness :
  MovieStore.get_stream JsonCodec.JSON_parse (js "assets/") (Some stream_bucket)
    stream_movies (js "5")
  = Normal (RBody (js "video/mp4") 3 (js "v1") (js "public, max-age=86400") [7; 8; 9]).
Proof.
  apply (proj1 (stream_serves_first_entry JsonCodec.JSON_parse JsonCodec.stringify
                  codec_round_trip codec_rejects_empty (js "assets/") stream_bucket
                  stream_movies (js "5")
                  {| MovieStore.movie_id := 5;
                     MovieStore.movie_uniqueid_num := Some (js "XYZ-9");
                     MovieStore.movie_title := Some (js "Streamed");
                     MovieStore.movie_is_liked := 0;
                     MovieStore.movie_strm_files :=
                       Some (JsonCodec.stringify
                               (JArr [JStr (js "videos/a.mp4"); JNull])) |}
                  eq_refl)
           (js "videos/a.mp4") [JNull]).
  - discriminate.
  - reflexivity.
Defined.


(** * Client address, login and the session cookie *)

Section ClientIpFacts.

Import Session.

Lemma head_split_free (v : list N) : 44 ∉ default [] (head (split 44 v)).
Proof.
  destruct (split 44 v) as [|t ts] eqn:E; [apply not_elem_of_nil|].
  apply (split_tokens_free 44 v). rewrite E. apply list_elem_of_here.
Qed.

(** X11. The client address used in the logs is never the empty text. A
    non-empty [CF-Connecting-IP] header is taken as it is; otherwise the
    result is either [Unknown IP] or the first comma-separated entry of
    [X-Forwarded-For], without white space around it and without a
    comma. *)
Theorem getClientIp_shape (cfConnectingIp xForwardedFor : option (list N)) :
  getClientIp cfConnectingIp xForwardedFor <> []
  /\ (truthy cfConnectingIp = true ->
      cfConnectingIp = Some (getClientIp cfConnectingIp xForwardedFor))
  /\ (truthy cfConnectingIp = false ->
      getClientIp cfConnectingIp xForwardedFor = js "Unknown IP"
      \/ exists v,
           xForwardedFor = Some v
           /\ getClientIp cfConnectingIp xForwardedFor
              = trim (default [] (head (split 44 v)))
           /\ clean (getClientIp cfConnectingIp xForwardedFor)
           /\ 44 ∉ getClientIp cfConnectingIp xForwardedFor).
Proof.
  assert (Hx : forall x : option (list N),
             let r := match x with
                      | Some v =>
                          match trim (default [] (head (split 44 v))) with
                          | c :: t => c :: t
                          | [] => js "Unknown IP"
                          end
                      | None => js "Unknown IP"
                      end in
             r <> []
             /\ (r = js "Unknown IP"
                 \/ exists v, x = Some v
                              /\ r = trim (default [] (head (split 44 v)))
                              /\ clean r /\ 44 ∉ r)).
  { intros [v|]; cbn zeta; [|split; [discriminate|by left]].
    destruct (trim (default [] (head (split 44 v)))) as [|c t] eqn:E.
    - split; [discriminate|by left].
    - split; [discriminate|]. right. exists v. rewrite <- E.
      split; [reflexivity|]. split; [reflexivity|]. split; [apply trim_clean|].
      intros Hin. apply trim_elements in Hin. by apply (head_split_free v). }
  unfold getClientIp. destruct cfConnectingIp as [[|c t]|].
  - destruct (Hx xForwardedFor) as [H1 H2]. split; [exact H1|]. split; [discriminate|].
    intros _. exact H2.
  - split; [discriminate|]. split; [reflexivity|discriminate].
  - destruct (Hx xForwardedFor) as [H1 H2]. split; [exact H1|]. split; [discriminate|].
    intros _. exact H2.
Qed.

End ClientIpFacts.

Section SessionFacts.

Import Auth Session HandlerSpec.

Variable sign : JwtPayload -> list N -> completion (list N).
Variable verify : list N -> list N -> completion JwtPayload.

(** What the token library promises: a token signed with a non-empty
    secret is a non-empty text that verifies, under the same secret, to
    the payload signed. *)
Hypothesis sign_verify :
  forall secret, secret <> [] ->
    exists token, sign {| loggedIn := true |} secret = Normal token
                  /\ token <> []
                  /\ verify token secret = Normal {| loggedIn := true |}.

(** X12. The gate clears the session cookie in exactly one situation: a
    request outside the allow-list that carries a non-empty cookie which
    does not verify to a logged-in payload. A request without a cookie
    is rejected with the cookie header untouched. *)
Theorem gate_clears_bad_cookie_only
    (secret path : list N) (cookie : option (list N)) :
  (exists r, requireLogin verify secret path cookie = Respond true r)
  <-> existsb (fun allowedPath => startsWith path allowedPath) allowedPaths = false
      /\ truthy cookie = true
      /\ session_valid verify secret cookie = false.
Proof.
  unfold requireLogin, session_valid, verifyJwt.
  destruct (existsb _ allowedPaths).
  { split; [intros [r Hr]; discriminate|intros [? _]; discriminate]. }
  destruct cookie as [[|c t]|]; cbn [truthy].
  - split; [intros [r Hr]|intros (_ & ? & _); discriminate].
    destruct (is_api_path path); discriminate.
  - destruct (verify (c :: t) secret) as [payload|m].
    + destruct (loggedIn payload).
      * split; [intros [r Hr]; discriminate|intros (_ & _ & ?); discriminate].
      * split; [done|]. intros _. destruct (is_api_path path); eauto.
    + split; [done|]. intros _. destruct (is_api_path path); eauto.
  - split; [intros [r Hr]|intros (_ & ? & _); discriminate].
    destruct (is_api_path path); discriminate.
Qed.

(** X13. Logging in opens the gate: with the configured code and a
    non-empty session secret, POST /login answers with a redirect to [/]
    and a cookie named [auth_session], and every later request that
    carries this cookie is handed on by [requireLogin], whatever its
    path. *)
Theorem login_opens_gate (code secret protocol errorUrl : list N) :
  secret <> [] ->
  exists a,
    post_login sign (Normal (Some code)) (Some code) (Some secret) protocol errorUrl
    = Normal a
    /\ sent a = RRedirect 303 (js "/")
    /\ cookie_name <$> set_cookie a = Some COOKIE_NAME
    /\ forall path before,
         exists payload,
           requireLogin verify secret path (carried before a) = Next payload.
Proof.
  intros Hsecret. destruct (sign_verify secret Hsecret) as (token & Hs & Hne & Hv).
  unfold post_login, generateJwt, DbUtils.str_eqb.
  rewrite bool_decide_eq_true_2 by reflexivity.
  destruct secret as [|c t]; [done|]. rewrite Hs.
  eexists. split; [reflexivity|]. cbn [sent set_cookie fmap option_fmap option_map cookie_name].
  split; [reflexivity|]. split; [reflexivity|].
  intros path before. unfold carried. cbn [set_cookie cookie_value].
  unfold requireLogin, verifyJwt.
  destruct (existsb _ allowedPaths); [eauto|].
  destruct token as [|c' t']; [done|]. rewrite Hv. cbn [loggedIn]. eauto.
Qed.

End SessionFacts.

Lemma login_opens_gate_witness :
  exists a,
    Session.post_login Session.sign_same (Normal (Some (js "open sesame")))
      (Some (js "open sesame")) (Some (js "k")) (js "https:")
      (js "https://host/login?error=x") = Normal a
    /\ Session.sent a = RRedirect 303 (js "/")
    /\ Session.cookie_name <$> Session.set_cookie a = Some Auth.COOKIE_NAME
    /\ forall path before,
         exists payload,
           Auth.requireLogin HandlerSpec.verify_same (js "k") path
             (Session.carried before a) = Auth.Next payload.
Proof.
  apply (login_opens_gate Session.sign_same HandlerSpec.verify_same).
  - intros secret Hsecret. exists secret. split; [reflexivity|]. split; [exact Hsecret|].
    unfold HandlerSpec.verify_same, DbUtils.str_eqb.
    by rewrite bool_decide_eq_true_2.
  - discriminate.
Defined.

(** X14. No session without the code: an answer of POST /login sets a
    cookie only when the body is a form whose field [login_code] equals
    the configured login code. A form with a wrong or missing code, or
    a missing configuration, is answered 303 to the login URL with the
    error parameter and leaves the browser's cookie as it was. An
    exception leaves the handler in two cases only: the body is not a
    form (the exception of [formData]), or the code matched and the
    token could not be issued. *)
Theorem login_needs_code
    (sign : Auth.JwtPayload -> list N -> completion (list N))
    (formData : completion (option (list N)))
    (LOGIN_CODE SESSION_SECRET_KEY : option (list N))
    (protocol errorUrl : list N) :
  match Session.post_login sign formData LOGIN_CODE SESSION_SECRET_KEY
          protocol errorUrl with
  | Normal a =>
      (is_Some (Session.set_cookie a)
       <-> exists code, formData = Normal (Some code) /\ LOGIN_CODE = Some code)
      /\ (Session.set_cookie a = None ->
          Session.sent a = RRedirect 303 errorUrl
          /\ forall before, Session.carried before a = before)
  | Throw m =>
      formData = Throw m
      \/ (exists code, formData = Normal (Some code) /\ LOGIN_CODE = Some code)
         /\ Session.generateJwt sign SESSION_SECRET_KEY = Throw m
  end.
Proof.
  unfold Session.post_login, DbUtils.str_eqb.
  destruct formData as [loginCode|m]; [|by left].
  destruct loginCode as [given|], LOGIN_CODE as [expected|];
    try (split; [split; [intros [? ?]; discriminate
                        |intros (code & ? & ?); discriminate]|done]).
  destruct (bool_decide_reflect (given = expected)) as [->|Hne].
  - destruct (Session.generateJwt sign SESSION_SECRET_KEY) as [token|m];
      [|right; eauto].
    split; [|discriminate]. split; [eauto|]. intros _. cbn. eauto.
  - split; [|done]. split; [intros [? ?]; discriminate|].
    intros (code & ? & ?). congruence.
Qed.

(** * Ordering of the listing *)

Section OrderFacts.

Import DbUtils MovieApi.

Ltac in_list := repeat first [apply list_elem_of_here | apply list_elem_of_further].

(** X15. The ORDER BY part of the listing statement never carries text
    of the request: whatever [SortBy] and [SortOrder] are, the column is
    one of [title], [last_scanned_date], [premiered], [rating] and
    [runtime] (the columns [uniqueid_num] and [id] of the white list are
    out of reach of the sort map of movieApi.ts), a name the map does
    not know sorts by [premiered], and the direction is [ASC] or
    [DESC]. *)
Theorem sort_column_whitelisted
    (toUpperCase : list N -> list N) (clause sortBy sortOrder : list N) :
  dbSortBy sortMap sortBy
    ∈ [js "title"; js "last_scanned_date"; js "premiered"; js "rating"; js "runtime"]
  /\ (sortBy ∉ sortMap.*1 -> dbSortBy sortMap sortBy = js "premiered")
  /\ dbSortOrder toUpperCase sortOrder ∈ [js "ASC"; js "DESC"]
  /\ exists column direction,
       column ∈ validSortCols
       /\ direction ∈ [js "ASC"; js "DESC"]
       /\ dataQuery toUpperCase sortMap clause sortBy sortOrder
          = js "SELECT * FROM movies WHERE " ++ clause ++ js " ORDER BY "
            ++ column ++ js " " ++ direction ++ js " NULLS LAST LIMIT ? OFFSET ?".
Proof.
  assert (Hcol : dbSortBy sortMap sortBy
                   ∈ [js "title"; js "last_scanned_date"; js "premiered";
                      js "rating"; js "runtime"]
                 /\ (sortBy ∉ sortMap.*1 -> dbSortBy sortMap sortBy = js "premiered")).
  { unfold dbSortBy, sortMap. cbn [assoc]. unfold str_eqb.
    repeat (case_bool_decide as H;
            [ subst sortBy; split;
              [ vm_compute; in_list
              | intros Hn; exfalso; apply Hn; vm_compute; in_list ]
            | clear H ]).
    split; [vm_compute; in_list|reflexivity]. }
  assert (Hdir : dbSortOrder toUpperCase sortOrder ∈ [js "ASC"; js "DESC"]).
  { unfold dbSortOrder. destruct (str_eqb _ _); in_list. }
  destruct Hcol as [Hcol Hunknown].
  split; [exact Hcol|]. split; [exact Hunknown|]. split; [exact Hdir|].
  exists (dbSortBy sortMap sortBy), (dbSortOrder toUpperCase sortOrder).
  split; [|split; [exact Hdir|reflexivity]].
  unfold validSortCols.
  repeat (apply elem_of_cons in Hcol as [->|Hcol]; [in_list|]).
  by apply elem_of_nil in Hcol.
Qed.

End OrderFacts.

(** * The genre listing *)

Section StringOrderFacts.

Lemma str_leb_total (a b : list N) : str_leb a b = true \/ str_leb b a = true.
Proof.
  revert b. induction a as [|x a IH]; intros [|y b]; cbn [str_leb]; auto.
  destruct (N.ltb_spec x y), (N.ltb_spec y x); auto; lia.
Qed.

Lemma str_leb_trans (a b c : list N) :
  str_leb a b = true -> str_leb b c = true -> str_leb a c = true.
Proof.
  revert b c. induction a as [|x a IH]; intros [|y b] [|z c]; cbn [str_leb];
    try done.
  destruct (N.ltb_spec x y), (N.ltb_spec y x), (N.ltb_spec y z), (N.ltb_spec z y),
    (N.ltb_spec x z), (N.ltb_spec z x); try done; try lia.
  apply IH.
Qed.

Lemma str_le_total : Total str_le.
Proof. intros a b. apply str_leb_total. Qed.

Lemma str_le_trans : Transitive str_le.
Proof. intros a b c. apply str_leb_trans. Qed.

End StringOrderFacts.

Section GenresFacts.

Import DbUtils Genres.

Variable JSON_parse : list N -> completion json.
Variable DB_all : list N -> list sqlval -> completion (list (list N)).

Lemma set_add_spec (x : list N) (s : list (list N)) :
  NoDup s -> NoDup (set_add x s) /\ forall g, g ∈ set_add x s <-> g ∈ s \/ g = x.
Proof.
  intros Hnd. unfold set_add. case_bool_decide as Hin.
  - split; [exact Hnd|]. intros g. split; [by left|]. by intros [?| ->].
  - split.
    + apply NoDup_app. split; [exact Hnd|]. split; [|apply NoDup_singleton].
      intros g Hg Hx. apply list_elem_of_singleton in Hx. by subst.
    + intros g. rewrite elem_of_app, list_elem_of_singleton. done.
Qed.

Lemma foldl_add_genre_throw (m : list N) (entries : list json) :
  foldl add_genre (Throw m) entries = Throw m.
Proof. by induction entries. Qed.

Lemma foldl_add_row_throw (m : list N) (rows : list (list N)) :
  foldl (add_row JSON_parse) (Throw m) rows = Throw m.
Proof. by induction rows. Qed.

(** The names gathered from one decoded list. *)
Lemma add_genres_spec (entries : list json) (names names' : list (list N)) :
  foldl add_genre (Normal names) entries = Normal names' ->
  NoDup names ->
  NoDup names'
  /\ forall g, g ∈ names' <->
               g ∈ names \/ (g <> [] /\ exists s, JStr s ∈ entries /\ trim s = g).
Proof.
  revert names. induction entries as [|v entries IH]; intros names Hfold Hnd.
  - cbn [foldl] in Hfold. injection Hfold as <-. split; [exact Hnd|].
    intros g. split; [by left|]. intros [?|(_ & s & Hs & _)]; [done|].
    by apply elem_of_nil in Hs.
  - cbn [foldl] in Hfold.
    destruct v as [|b|z|s|items|fields]; cbn [add_genre] in Hfold;
      try (rewrite foldl_add_genre_throw in Hfold; discriminate).
    + destruct (IH names Hfold Hnd) as [H1 H2]. split; [exact H1|].
      intros g. rewrite H2. split; intros [?|(Hg & s & Hs & Ht)]; auto.
      * right. split; [exact Hg|]. exists s. split; [by apply list_elem_of_further|done].
      * right. split; [exact Hg|]. exists s. split; [|done].
        apply elem_of_cons in Hs as [Hs|Hs]; [discriminate|done].
    + destruct (trim s) as [|c t] eqn:Hts.
      * destruct (IH names Hfold Hnd) as [H1 H2]. split; [exact H1|].
        intros g. rewrite H2. split; intros [?|(Hg & s' & Hs & Ht)]; auto.
        -- right. split; [exact Hg|]. exists s'.
           split; [by apply list_elem_of_further|done].
        -- right. split; [exact Hg|]. exists s'. split; [|done].
           apply elem_of_cons in Hs as [Hs|Hs]; [|done].
           injection Hs as ->. congruence.
      * destruct (set_add_spec (c :: t) names Hnd) as [Hnd' Hadd].
        destruct (IH _ Hfold Hnd') as [H1 H2]. split; [exact H1|].
        intros g. rewrite H2, Hadd. split.
        -- intros [[?| ->]|(Hg & s' & Hs & Ht)]; auto.
           ++ right. split; [discriminate|]. exists s.
              split; [apply list_elem_of_here|done].
           ++ right. split; [exact Hg|]. exists s'.
              split; [by apply list_elem_of_further|done].
        -- intros [?|(Hg & s' & Hs & Ht)]; auto.
           apply elem_of_cons in Hs as [Hs|Hs].
           ++ injection Hs as ->. left. right. congruence.
           ++ right. split; [exact Hg|]. by exists s'.
Qed.

(** The names gathered from all rows. *)
Lemma add_rows_spec (rows : list (list N)) (names names' : list (list N)) :
  foldl (add_row JSON_parse) (Normal names) rows = Normal names' ->
  NoDup names ->
  NoDup names'
  /\ forall g, g ∈ names' <->
               g ∈ names
               \/ (g <> []
                   /\ exists genres entries s,
                        genres ∈ rows
                        /\ parseJsonField JSON_parse (Value (JStr genres)) [] = Normal entries
                        /\ JStr s ∈ entries /\ trim s = g).
Proof.
  revert names. induction rows as [|genres rows IH]; intros names Hfold Hnd.
  - cbn [foldl] in Hfold. injection Hfold as <-. split; [exact Hnd|].
    intros g. split; [by left|]. intros [?|(_ & genres & ? & ? & Hg & _)]; [done|].
    by apply elem_of_nil in Hg.
  - cbn [foldl] in Hfold. cbn [add_row] in Hfold.
    destruct (parseJsonField JSON_parse (Value (JStr genres)) []) as [entries|m] eqn:Hp;
      [|rewrite foldl_add_row_throw in Hfold; discriminate].
    destruct (foldl add_genre (Normal names) entries) as [mid|m] eqn:Hmid;
      [|rewrite foldl_add_row_throw in Hfold; discriminate].
    destruct (add_genres_spec entries names mid Hmid Hnd) as [Hnd' Hadd].
    destruct (IH mid Hfold Hnd') as [H1 H2]. split; [exact H1|].
    intros g. rewrite H2, Hadd. split.
    + intros [[?|(Hg & s & Hs & Ht)]|(Hg & genres' & entries' & s & Hr & Hp' & Hs & Ht)];
        auto.
      * right. split; [exact Hg|]. exists genres, entries, s.
        split; [apply list_elem_of_here|done].
      * right. split; [exact Hg|]. exists genres', entries', s.
        split; [by apply list_elem_of_further|done].
    + intros [?|(Hg & genres' & entries' & s & Hr & Hp' & Hs & Ht)]; auto.
      apply elem_of_cons in Hr as [->|Hr].
      * left. right. split; [exact Hg|]. exists s. split; [|done]. congruence.
      * right. split; [exact Hg|]. by exists genres', entries', s.
Qed.

(** X16. The genre listing, when it answers, answers 200 with one
    [{Name, Id}] entry per genre name; the names are in ascending
    code-unit order without repetition, and they are exactly the
    non-empty trimmed texts of the string entries of the decoded
    [genres] columns of the rows found. *)
Theorem genres_sorted_distinct (parentId : option (list N)) (r : response) :
  get_genres JSON_parse DB_all parentId = Normal r ->
  exists rows names,
    DB_all (genres_query parentId).1 (genres_query parentId).2 = Normal rows
    /\ r = RJson 200 (JArr (genre_entry <$> names))
    /\ StronglySorted str_le names
    /\ NoDup names
    /\ forall g, g ∈ names <->
                 g <> []
                 /\ exists genres entries s,
                      genres ∈ rows
                      /\ parseJsonField JSON_parse (Value (JStr genres)) [] = Normal entries
                      /\ JStr s ∈ entries /\ trim s = g.
Proof.
  unfold get_genres. destruct (genres_query parentId) as [query params]. cbn [fst snd].
  destruct (DB_all query params) as [rows|m]; [|discriminate].
  destruct (foldl (add_row JSON_parse) (Normal []) rows) as [names|m] eqn:Hfold;
    [|discriminate].
  intros H. injection H as <-.
  destruct (add_rows_spec rows [] names Hfold (NoDup_nil_2)) as [Hnd Hin].
  exists rows, (merge_sort str_le names). split; [reflexivity|]. split; [reflexivity|].
  split; [apply (@StronglySorted_merge_sort _ str_le _ str_le_trans str_le_total)|].
  split; [by rewrite merge_sort_Permutation|].
  intros g. rewrite merge_sort_Permutation, Hin. split; [|by right].
  intros [Hg|?]; [by apply elem_of_nil in Hg|done].
Qed.

End GenresFacts.

Lemma genres_sorted_distinct_witness :
  exists rows names,
    Genres.sample_genres (Genres.genres_query (Some (js "/media"))).1
      (Genres.genres_query (Some (js "/media"))).2 = Normal rows
    /\ RJson 200 (JArr (Genres.genre_entry <$> [js "Action"; js "Comedy"; js "Drama"]))
       = RJson 200 (JArr (Genres.genre_entry <$> names))
    /\ StronglySorted str_le names
    /\ NoDup names
    /\ forall g, g ∈ names <->
                 g <> []
                 /\ exists genres entries s,
                      genres ∈ rows
                      /\ DbUtils.parseJsonField JsonCodec.JSON_parse (Value (JStr genres)) []
                         = Normal entries
                      /\ JStr s ∈ entries /\ trim s = g.
Proof.
  apply (genres_sorted_distinct JsonCodec.JSON_parse Genres.sample_genres
           (Some (js "/media"))).
  vm_compute. reflexivity.
Defined.

(** * More on the related-items blend *)

Section RelatedMoreFacts.

Import DbUtils MovieApi HandlerSpec.

(** The loop in full: what it appends is a sub-list of the candidates,
    with identifiers that are truthy, unseen and pairwise distinct; and
    when it ends below the cap, every candidate with a truthy identifier
    was either seen before or taken. *)
Lemma pick_loop_full (cap : option Z) cands acc seen :
  exists new,
    (pick_genre_random cap cands acc seen).1 = acc ++ new
    /\ new `sublist_of` cands
    /\ Forall (fun m => id_truthy (Id m) = true /\ Id m ∉ seen) new
    /\ NoDup (Id <$> new)
    /\ (reached (length (acc ++ new)) cap = false ->
        forall m, m ∈ cands -> id_truthy (Id m) = true ->
                  Id m ∈ seen \/ Id m ∈ Id <$> new).
Proof.
  revert acc seen. induction cands as [|m rest IH]; intros acc seen.
  - exists []. rewrite app_nil_r. split; [reflexivity|]. split; [constructor|].
    split; [constructor|]. split; [constructor|].
    intros _ m Hm. by apply elem_of_nil in Hm.
  - cbn [pick_genre_random].
    destruct (reached (length acc) cap) eqn:Hcap.
    + exists []. rewrite app_nil_r. split; [reflexivity|].
      split; [apply sublist_nil_l|]. split; [constructor|]. split; [constructor|].
      intros Hr. congruence.
    + destruct (id_truthy (Id m) && negb (bool_decide (Id m ∈ seen))) eqn:Hpick.
      * apply andb_true_iff in Hpick as [Htruthy Hnew].
        apply negb_true_iff, bool_decide_eq_false in Hnew.
        destruct (IH (acc ++ [m]) ({[Id m]} ∪ seen))
          as (new & Heq & Hsub & Hall & Hnd & Hdone).
        exists (m :: new). rewrite Heq, <- app_assoc. split; [reflexivity|].
        split; [by constructor|]. split; [|split].
        -- constructor; [done|]. eapply Forall_impl; [exact Hall|].
           cbn beta. intros x [Hx1 Hx2]. split; [exact Hx1|].
           intros Hin. apply Hx2. apply elem_of_union. by right.
        -- cbn [fmap list_fmap]. constructor; [|exact Hnd].
           intros Hin. apply list_elem_of_fmap in Hin as (x & Hidx & Hx).
           rewrite Forall_forall in Hall. destruct (Hall x Hx) as [_ Hx2].
           apply Hx2. apply elem_of_union. left. rewrite Hidx.
           by apply elem_of_singleton.
        -- intros Hr m' Hm' Ht'. rewrite <- app_assoc in Hdone.
           apply elem_of_cons in Hm' as [->|Hm'].
           ++ right. cbn [fmap list_fmap]. apply list_elem_of_here.
           ++ destruct (Hdone Hr m' Hm' Ht') as [Hseen|Hin].
              ** apply elem_of_union in Hseen as [Hseen|Hseen]; [|by left].
                 apply elem_of_singleton in Hseen. right.
                 cbn [fmap list_fmap]. rewrite Hseen. apply list_elem_of_here.
              ** right. cbn [fmap list_fmap]. by apply list_elem_of_further.
      * destruct (IH acc seen) as (new & Heq & Hsub & Hall & Hnd & Hdone).
        exists new. split; [exact Heq|]. split; [by apply sublist_cons|].
        split; [exact Hall|]. split; [exact Hnd|].
        intros Hr m' Hm' Ht'.
        apply elem_of_cons in Hm' as [->|Hm']; [|by apply Hdone].
        rewrite Ht' in Hpick. cbn [andb] in Hpick.
        apply negb_false_iff, bool_decide_eq_true in Hpick. by left.
Qed.

(** X17. The genre-random suffix of the related-items answer is a
    sub-list of the fetched candidates, in their order; every record in
    it has a truthy [Id], and no two of them share one. *)
Theorem related_suffix_distinct
    (NUM_RANDOM_GENRE_PICKS : option Z) (primaryRows candidateRows : list movie_row) :
  let suffix := (blend_related NUM_RANDOM_GENRE_PICKS primaryRows candidateRows).2 in
  suffix `sublist_of` mapped candidateRows
  /\ Forall (fun m => id_truthy (Id m) = true) suffix
  /\ NoDup (ids suffix).
Proof.
  unfold blend_related. cbv zeta. cbn [snd].
  destruct (positive NUM_RANDOM_GENRE_PICKS).
  - destruct (pick_loop_full NUM_RANDOM_GENRE_PICKS (mapped candidateRows) []
                (list_to_set (Id <$> mapped primaryRows)))
      as (new & -> & Hsub & Hall & Hnd & _).
    cbn [app]. split; [exact Hsub|]. split; [|exact Hnd].
    eapply Forall_impl; [exact Hall|]. by intros x [Hx _].
  - split; [apply sublist_nil_l|]. split; constructor.
Qed.

(** X18. The loop skips no eligible candidate: when the suffix ends
    shorter than [NUM_RANDOM_GENRE_PICKS], every fetched candidate with a
    truthy [Id] is in the answer, in the ranked prefix or in the
    suffix. *)
Theorem related_takes_every_eligible
    (cap : Z) (primaryRows candidateRows : list movie_row) (m : movie) :
  (Z.of_nat (length (blend_related (Some cap) primaryRows candidateRows).2) < cap)%Z ->
  m ∈ mapped candidateRows ->
  id_truthy (Id m) = true ->
  Id m ∈ ids (blend_related (Some cap) primaryRows candidateRows).1
         ++ ids (blend_related (Some cap) primaryRows candidateRows).2.
Proof.
  unfold blend_related. cbv zeta. cbn [fst snd positive].
  destruct (0 <? cap)%Z eqn:Hpos.
  - destruct (pick_loop_full (Some cap) (mapped candidateRows) []
                (list_to_set (Id <$> mapped primaryRows)))
      as (new & -> & _ & _ & _ & Hdone).
    cbn [app] in *. intros Hlen Hm Ht.
    assert (Hr : reached (length new) (Some cap) = false).
    { unfold reached. apply Z.leb_gt. exact Hlen. }
    apply elem_of_app. destruct (Hdone Hr m Hm Ht) as [Hseen|Hin].
    + left. unfold ids. by apply elem_of_list_to_set in Hseen.
    + right. exact Hin.
  - cbn [length]. intros Hlen. apply Z.ltb_ge in Hpos. lia.
Qed.

End RelatedMoreFacts.

Lemma related_takes_every_eligible_witness :
  MovieApi.Id
    {| MovieApi.row := related_row (Some 3%Z); MovieApi.Id := Some 3%Z;
       MovieApi.Name := None; MovieApi.Type_ := js "Movie";
       MovieApi.SortName := None; MovieApi.liked := false |}
  ∈ HandlerSpec.ids (MovieApi.blend_related (Some 5%Z) ranked_rows candidate_rows).1
    ++ HandlerSpec.ids (MovieApi.blend_related (Some 5%Z) ranked_rows candidate_rows).2.
Proof.
  apply (related_takes_every_eligible 5 ranked_rows candidate_rows).
  - vm_compute. reflexivity.
  - vm_compute. do 4 apply list_elem_of_further. apply list_elem_of_here.
  - reflexivity.
Defined.

(** * More on the image handler *)

Section ImageMoreFacts.

Import DbUtils R2Utils MovieApi HandlerSpec.

(** X19. The image handler redirects in one situation only, and never
    to the request itself: a redirect is a 301 to the same endpoint
    under the external identifier of the record found by numeric id,
    this identifier is not empty and differs from the identifier
    requested. *)
Theorem image_never_redirects_to_itself
    (e : Env) (t : image_type) (movieIdOrNum : list N) (status : Z) (location : list N) :
  serveMovieImage e t movieIdOrNum = RRedirect status location ->
  status = 301%Z
  /\ location <> image_url t movieIdOrNum
  /\ exists n u,
       parseInt movieIdOrNum = Some n
       /\ DB_MOVIES e !! n = Some (Some u)
       /\ u <> [] /\ u <> movieIdOrNum
       /\ location = image_url t u.
Proof.
  unfold serveMovieImage, resolve_image_id.
  pose proof (served_is_no_redirect (MOVIES_ASSETS_BUCKET e)) as Hserved.
  destruct (parseInt movieIdOrNum) as [n|].
  - destruct (DB_MOVIES e !! n) as [[[|c u]|]|] eqn:Hrow; try discriminate.
    unfold str_eqb. case_bool_decide as Hsame; cbn [negb].
    + intros H. specialize (Hserved (image_key e t (c :: u)) default_cache).
      rewrite H in Hserved. discriminate.
    + intros H. injection H as <- <-. split; [reflexivity|]. split.
      * unfold image_url. intros Heq. apply Hsame.
        by repeat apply app_inv_head in Heq.
      * exists n, (c :: u). repeat split; done.
  - intros H. specialize (Hserved (image_key e t movieIdOrNum) default_cache).
    rewrite H in Hserved. discriminate.
Qed.

(** X20. For identifiers that travel through URLs unchanged
    ([url_safe]): when the external identifier of a record does not
    start like a number, a client that asks for the image by numeric id
    and follows redirects gets one 301 and then the stored object of
    that identifier (or the 404 of a missing object), and the chain
    ends there. *)
Theorem image_redirect_then_served
    (e : Env) (t : image_type) (s u : list N) (n : Z) (fuel : nat) :
  url_safe s = true ->
  url_safe u = true ->
  parseInt s = Some n ->
  DB_MOVIES e !! n = Some (Some u) ->
  parseInt u = None ->
  request_chain (S (S fuel)) e (image_url t s)
  = [RRedirect 301 (image_url t u);
     serveFileFromR2 (MOVIES_ASSETS_BUCKET e) (image_key e t u) default_cache].
Proof.
  intros _ Hsafe Hn Hrow Hu.
  apply (chain_of_plain_identifier e t s u n fuel); try done.
  - intros ->. discriminate.
  - intros ->. congruence.
  - intros ->. discriminate.
Qed.

End ImageMoreFacts.

Lemma image_never_redirects_to_itself_witness :
  301%Z = 301%Z
  /\ js "/api_movies/images/poster/2" <> MovieApi.image_url MovieApi.poster (js "1")
  /\ exists n u,
       parseInt (js "1") = Some n
       /\ MovieApi.DB_MOVIES HandlerSpec.crossed_env !! n = Some (Some u)
       /\ u <> [] /\ u <> js "1"
       /\ js "/api_movies/images/poster/2" = MovieApi.image_url MovieApi.poster u.
Proof.
  apply (image_never_redirects_to_itself HandlerSpec.crossed_env MovieApi.poster (js "1")).
  reflexivity.
Defined.

Lemma image_redirect_then_served_witness :
  MovieApi.request_chain 2 HandlerSpec.plain_env (js "/api_movies/images/poster/7")
  = [RRedirect 301 (js "/api_movies/images/poster/ABC-123");
     RBody (js "image/avif") 3 (js "etag") R2Utils.default_cache [1; 2; 3]].
Proof.
  apply (image_redirect_then_served HandlerSpec.plain_env MovieApi.poster
           (js "7") (js "ABC-123") 7 0).
  - vm_compute. reflexivity.
  - vm_compute. reflexivity.
  - reflexivity.
  - reflexivity.
  - reflexivity.
Defined.

(** * The manga listing filter and favourites *)

Section MangaFacts.

Import MangaApi.

(** X21. The filter of the manga listing: the count statement holds as
    many [?] placeholders as values are bound to it, whatever the
    request; the condition that hides appendices is always the first
    one; and with an [author] given the search term is not bound, the
    only text bound is the author. *)
Theorem manga_filter_binds (query : gmap (list N) (list N)) :
  placeholders (countQuery query).1 = length (countQuery query).2
  /\ startsWith (whereClause (build_filter query))
       (js " WHERE m.is_appendix_to IS NULL") = true
  /\ (truthy (query !! js "author") = true ->
      forall v, SqlText v ∈ params (build_filter query) ->
                query !! js "author" = Some v).
Proof.
  unfold countQuery, build_filter, search_block, author_block, collection_block.
  cbv zeta.
  destruct (query !! js "collection_id") as [[|c1 v1]|];
    destruct (query !! js "author") as [[|c2 v2]|];
    destruct (query !! js "search_term") as [[|c3 v3]|];
    cbn [truthy negb];
    try destruct (number_truthy (parseInt (c1 :: v1)));
    (split; [vm_compute; reflexivity|]);
    (split; [vm_compute; reflexivity|]);
    try (intros ?; discriminate);
    intros _ v Hv; cbn [params app] in Hv;
    repeat (apply elem_of_cons in Hv as [Hv|Hv]; [try discriminate; congruence|]);
    by apply elem_of_nil in Hv.
Qed.




End MangaFacts.

(** * Manga images and the routes behind the gate *)

Section IndexFacts.

Import R2Utils Index Auth HandlerSpec.

Lemma replace_first_absent (s pattern replacement : list N) :
  includes s pattern = false -> replace_first s pattern replacement = s.
Proof.
  induction s as [|c s IH]; cbn [includes replace_first]; intros H;
    apply orb_false_iff in H as [-> H]; [reflexivity|].
  by rewrite IH.
Qed.

(** X23. The manga image route serves the object whose key is the base
    prefix joined to what follows [/data/manga_images/] in the path
    (pairs of slashes collapsed), with a one-week cache header. The bare
    directory is answered 400, as is every path the pattern does not
    occur in. *)
Theorem manga_image_key
    (prefix : list N) (bucket : gmap (list N) R2Object) (rest : list N) :
  get_manga_image prefix (Some bucket) (js "/data/manga_images/" ++ rest)
  = (if nonempty rest
     then serveFileFromR2 bucket (collapse_slashes (prefix ++ js "/" ++ rest))
            (js "public, max-age=604800")
     else RText 400 (js "Manga image path suffix missing or invalid"))
  /\ forall path,
       includes path (js "/data/manga_images/") = false ->
       get_manga_image prefix (Some bucket) path
       = RText 400 (js "Manga image path suffix missing or invalid").
Proof.
  split.
  - unfold get_manga_image.
    change (replace_first (js "/data/manga_images/" ++ rest) (js "/data/manga_images/") [])
      with rest.
    destruct rest as [|c rest]; [reflexivity|].
    cbn [nonempty negb orb]. unfold DbUtils.str_eqb.
    rewrite bool_decide_eq_false_2; [reflexivity|].
    intros Heq. change (c :: rest) with ([] ++ c :: rest) in Heq at 1.
    apply app_inv_tail in Heq. discriminate.
  - intros path Hpath. unfold get_manga_image.
    rewrite (replace_first_absent _ _ _ Hpath).
    unfold DbUtils.str_eqb. rewrite bool_decide_eq_true_2 by reflexivity.
    by rewrite orb_true_r.
Qed.

Lemma startsWith_app (s p : list N) :
  startsWith s p = true -> exists rest, s = p ++ rest.
Proof.
  revert s. induction p as [|a p IH]; intros s H; [by exists s|].
  destruct s as [|b s]; [discriminate|]. cbn [startsWith] in H.
  apply andb_true_iff in H as [Hab H]. apply N.eqb_eq in Hab as ->.
  destruct (IH s H) as [rest ->]. by exists rest.
Qed.

(** X24. The data routes are behind the gate: a request for a path
    under [/api/], [/api_movies/] or [/data/manga_images/] that carries
    no valid session is never handed to its handler; under the two API
    prefixes it is answered 401, under the image prefix it is sent to
    [/login]. *)
Theorem data_routes_need_session
    (verify : list N -> list N -> completion JwtPayload)
    (secret path : list N) (cookie : option (list N)) :
  session_valid verify secret cookie = false ->
  (startsWith path (js "/api/") = true \/ startsWith path (js "/api_movies/") = true ->
   exists cookieDeleted message,
     requireLogin verify secret path cookie = Respond cookieDeleted (unauthorized message))
  /\ (startsWith path (js "/data/manga_images/") = true ->
      exists cookieDeleted,
        requireLogin verify secret path cookie
        = Respond cookieDeleted (RRedirect 307 (js "/login"))).
Proof.
  intros Hinvalid.
  assert (Hgate : existsb (fun allowedPath => startsWith path allowedPath) allowedPaths
                  = false ->
                  exists cookieDeleted,
                    requireLogin verify secret path cookie
                    = Respond cookieDeleted
                        (if is_api_path path
                         then unauthorized (match cookie with
                                            | Some (_ :: _) => "Invalid session."
                                            | _ => "Authentication required."
                                            end)
                         else RRedirect 307 (js "/login"))).
  { intros Hpub. unfold requireLogin, session_valid, verifyJwt in *. rewrite Hpub.
    destruct cookie as [[|c t]|].
    - exists false. by destruct (is_api_path path).
    - exists true. destruct (verify (c :: t) secret) as [payload|m].
      + rewrite Hinvalid. by destruct (is_api_path path).
      + by destruct (is_api_path path).
    - exists false. by destruct (is_api_path path). }
  split.
  - intros [H|H]; apply startsWith_app in H as [rest ->];
      destruct (Hgate eq_refl) as [d Hd]; exists d; eexists; exact Hd.
  - intros H. apply startsWith_app in H as [rest ->].
    destruct (Hgate eq_refl) as [d Hd]. exists d. exact Hd.
Qed.

End IndexFacts.

Lemma data_routes_need_session_witness :
  (exists cookieDeleted message,
     Auth.requireLogin HandlerSpec.verify_same (js "k") (js "/api/mangas")
       (Some (js "forged"))
     = Auth.Respond cookieDeleted (Auth.unauthorized message))
  /\ (exists cookieDeleted,
        Auth.requireLogin HandlerSpec.verify_same (js "k")
          (js "/data/manga_images/One/001.jpg") None
        = Auth.Respond cookieDeleted (RRedirect 307 (js "/login"))).
Proof.
  split.
  - apply (proj1 (data_routes_need_session HandlerSpec.verify_same (js "k")
                    (js "/api/mangas") (Some (js "forged")) eq_refl)).
    left. reflexivity.
  - apply (proj2 (data_routes_need_session HandlerSpec.verify_same (js "k")
                    (js "/data/manga_images/One/001.jpg") None eq_refl)).
    reflexivity.
Defined.

(** * Creating a collection again *)

Section CollectionMoreFacts.

Import MovieApi.

Lemma post_name_present (table : list collection) (payload : json) (name : list N) :
  collectionName_of payload = Normal (Some name) ->
  name <> [] ->
  name ∈ collection_name <$> table ->
  post_movie_collections table (Normal payload)
  = (Normal (RJson 409 (JObj [(js "error", JStr (js "Collection name already exists"))])),
     table).
Proof.
  intros Hname Hne Hin. unfold post_movie_collections. rewrite Hname.
  destruct name as [|c n]; [done|].
  unfold insert_returning_id. rewrite bool_decide_eq_true_2 by done.
  cbn [try_catch]. by rewrite unique_violation_recognised.
Qed.

Lemma post_name_absent (table : list collection) (payload : json) (name : list N) :
  collectionName_of payload = Normal (Some name) ->
  name <> [] ->
  name ∉ collection_name <$> table ->
  (post_movie_collections table (Normal payload)).2
  = table ++ [{| collection_id := next_id table; collection_name := name |}].
Proof.
  intros Hname Hne Hin. unfold post_movie_collections. rewrite Hname.
  destruct name as [|c n]; [done|].
  unfold insert_returning_id. by rewrite bool_decide_eq_false_2.
Qed.

Lemma collectionName_of_clean (payload : json) (name : list N) :
  collectionName_of payload = Normal (Some name) -> clean name.
Proof.
  unfold collectionName_of.
  destruct payload as [|b|z|s|items|fields]; try discriminate.
  destruct (property (js "name") fields) as [[|b|z|s|items|fields']|]; try discriminate.
  intros H. injection H as <-. apply trim_clean.
Qed.

(** X25. Creating a collection is safe to repeat: a second request with
    the same body never adds a record and leaves the table as the
    first request left it. It is answered 409 when the body names a
    collection; otherwise it ends as the first request did, with 400 or
    with the same exception, and the table was never touched. The
    handler stores the trimmed name: when all stored names are trimmed
    and non-empty before a request, they are so after it. *)
Theorem create_collection_repeat (table : list collection) (body : completion json) :
  let first := post_movie_collections table body in
  let second := post_movie_collections first.2 body in
  second.2 = first.2
  /\ (second.1
      = Normal (RJson 409 (JObj [(js "error", JStr (js "Collection name already exists"))]))
      \/ (second = first /\ first.2 = table
          /\ (first.1 = Normal (RJson 400 (JObj [(js "error", JStr (js "Name required"))]))
              \/ exists m, first.1 = Throw m)))
  /\ (Forall stored_name_clean table -> Forall stored_name_clean first.2).
Proof.
  cbv zeta.
  assert (Hsame : forall r : completion response,
             (r = Normal (RJson 400 (JObj [(js "error", JStr (js "Name required"))]))
              \/ exists m, r = Throw m) ->
             post_movie_collections table body = (r, table) ->
             (post_movie_collections (post_movie_collections table body).2 body).2
             = (post_movie_collections table body).2
             /\ ((post_movie_collections (post_movie_collections table body).2 body).1
                 = Normal (RJson 409
                             (JObj [(js "error",
                                     JStr (js "Collection name already exists"))]))
                 \/ (post_movie_collections (post_movie_collections table body).2 body
                     = post_movie_collections table body
                     /\ (post_movie_collections table body).2 = table
                     /\ ((post_movie_collections table body).1
                         = Normal (RJson 400
                                     (JObj [(js "error", JStr (js "Name required"))]))
                         \/ exists m, (post_movie_collections table body).1 = Throw m)))
             /\ (Forall stored_name_clean table ->
                 Forall stored_name_clean (post_movie_collections table body).2)).
  { intros r Hr Heq. rewrite !Heq. cbn [fst snd]. rewrite Heq. cbn [fst snd].
    split; [reflexivity|]. split; [right; by repeat split|done]. }
  destruct body as [payload|m]; [|apply (Hsame (Throw m)); [right; eauto|reflexivity]].
  destruct (collectionName_of payload) as [[name|]|m] eqn:Hname.
  - destruct (decide (name = [])) as [->|Hgiven].
    { apply (Hsame (Normal (RJson 400 (JObj [(js "error", JStr (js "Name required"))]))));
        [by left|].
      unfold post_movie_collections. by rewrite Hname. }
    destruct (decide (name ∈ collection_name <$> table)) as [Hin|Hnotin].
    + rewrite !(post_name_present table payload name Hname Hgiven Hin). cbn [fst snd].
      rewrite (post_name_present table payload name Hname Hgiven Hin). cbn [fst snd].
      split; [reflexivity|]. split; [by left|done].
    + rewrite !(post_name_absent table payload name Hname Hgiven Hnotin).
      rewrite (post_name_present _ payload name Hname Hgiven).
      2:{ rewrite fmap_app. apply elem_of_app. right. apply list_elem_of_here. }
      cbn [fst snd]. split; [reflexivity|]. split; [by left|].
      intros Hall. apply Forall_app. split; [exact Hall|].
      constructor; [|constructor]. split; [exact Hgiven|].
      by apply (collectionName_of_clean payload).
  - apply (Hsame (Normal (RJson 400 (JObj [(js "error", JStr (js "Name required"))]))));
      [by left|].
    unfold post_movie_collections. by rewrite Hname.
  - apply (Hsame (Throw m)); [right; eauto|].
    unfold post_movie_collections. by rewrite Hname.
Qed.

End CollectionMoreFacts.
